(** * xFasterTransformer: the Attention and LlamaMLP layers

    A shallow embedding of [src/layers/attention.h] (class [Attention]) and
    of the LLaMA MLP layer (class [LlamaMLP]), together with the properties
    of the decoder-layer specification that can be stated over it.

    Conventions.
    - A C++ [int] is a [Z].  Integer division and remainder truncate toward
      zero ([Z.quot], [Z.rem]); a zero divisor is undefined behaviour and is
      reported as [UB] by the fallible operations [cdiv] and [cmod].
    - Code that may terminate the process ([exit(-1)], [REQUIRES]) or run
      into undefined behaviour returns a value of type [res].  [assert] is
      compiled out ([NDEBUG]) and does not affect the outcome; the asserts
      of [LlamaMLP::downProj] are recorded apart, as [downProj_asserts].
    - [float] data that is only moved around is kept polymorphic; the
      numerical properties are stated over the reals, the single-precision
      computation of [getMBlockSize] over [SpecFloat] at binary32. *)

From Stdlib Require Import ZArith List Bool Lia Reals Lra SpecFloat.
From stdpp Require Import gmap strings.
Import ListNotations.

(** ** Outcomes of fallible code *)

Inductive res (A : Type) : Type :=
| Ret (a : A)          (* normal completion *)
| Fatal (msg : string) (* the code printed [msg] and called [exit(-1)] *)
| UB.                  (* undefined behaviour, e.g. integer division by zero *)

Arguments Ret {A} a.
Arguments Fatal {A} msg.
Arguments UB {A}.

Definition rbind {A B : Type} (m : res A) (k : A -> res B) : res B :=
  match m with
  | Ret a => k a
  | Fatal msg => Fatal msg
  | UB => UB
  end.

Notation "'do' x <- m ; k" := (rbind m (fun x => k))
  (at level 10, x name, m at level 100, k at level 200).

Module CInt.

Open Scope Z_scope.

(** [a / b] on C++ ints. *)
Definition cdiv (a b : Z) : res Z :=
  if b =? 0 then UB else Ret (Z.quot a b).

(** [a % b] on C++ ints. *)
Definition cmod (a b : Z) : res Z :=
  if b =? 0 then UB else Ret (Z.rem a b).

End CInt.

(** ** The decoder context (the fields the two layers read) *)

Record DecoderContext : Type := mkCtx {
  hiddenSize : Z;
  intermediateSize : Z;
  attHeadNum : Z;
  kvHeadNum : Z;
  attHeadSize : Z;
  batchSize : Z;
  inputSeqLen : Z;
  maxSeqLength : Z;
  maxPosEmbed : Z;
  numSplit : Z;
  splitIdx : Z;
  numThreads : Z;
  ppSize : Z;
  layers : Z;
  reserved1 : Z
}.

(** ** Head ranges: [Attention::getTaskRange] and the constructor *)

Module HeadRange.

Import CInt.
Open Scope Z_scope.

(** [std::pair<int,int> getTaskRange(int N, int splits, int splitIdx)] *)
Definition getTaskRange (N splits splitIdx : Z) : res (Z * Z) :=
  do r <- cmod N splits;
  if r =? 0 then
    do tasksPerSplit <- cdiv N splits;
    let startId := splitIdx * tasksPerSplit in
    let endId := startId + tasksPerSplit in
    Ret (startId, endId)
  else
    do baseTasksPerSplit <- cdiv N splits;
    do remainingTasks <- cmod N splits;
    if splitIdx <? remainingTasks then
      let tasksPerSplit := baseTasksPerSplit + 1 in
      let startId := splitIdx * tasksPerSplit in
      let endId := startId + tasksPerSplit in
      Ret (startId, endId)
    else
      let taskOffset := (baseTasksPerSplit + 1) * remainingTasks in
      let startId := taskOffset + (splitIdx - remainingTasks) * baseTasksPerSplit in
      let endId := startId + baseTasksPerSplit in
      Ret (startId, endId).

(** The four members the constructor initialises. *)
Record Heads : Type := mkHeads {
  startQHead : Z;
  endQHead : Z;
  startKVHead : Z;
  endKVHead : Z
}.

(** [Attention::Attention(int layerId, DecoderContext *ctx)]: the head
    bookkeeping.  The unsupported case prints and calls [exit(-1)]. *)
Definition Attention_ctor (ctx : DecoderContext) : res Heads :=
  do m <- cmod (attHeadNum ctx) (kvHeadNum ctx);
  if m =? 0 then
    do range <- getTaskRange (attHeadNum ctx) (numSplit ctx) (splitIdx ctx);
    let sq := fst range in
    let eq := snd range in
    do expandFactor <- cdiv (attHeadNum ctx) (kvHeadNum ctx);
    do skv <- cdiv sq expandFactor;
    do ekv <- cdiv (eq - 1) expandFactor;
    Ret (mkHeads sq eq skv (ekv + 1))
  else Fatal "Not supported yet: QHeads, KVHeads".

(** The context of another rank of the same tensor-parallel group. *)
Definition with_splitIdx (ctx : DecoderContext) (idx : Z) : DecoderContext :=
  mkCtx (hiddenSize ctx) (intermediateSize ctx) (attHeadNum ctx) (kvHeadNum ctx)
        (attHeadSize ctx) (batchSize ctx) (inputSeqLen ctx) (maxSeqLength ctx)
        (maxPosEmbed ctx)
        (numSplit ctx) idx (numThreads ctx) (ppSize ctx) (layers ctx) (reserved1 ctx).

End HeadRange.


(** ** Bias handling of [Attention::setWeights] *)

Module SetWeights.

Import CInt HeadRange.
Open Scope Z_scope.

Section Bias.

(** The element type of the bias arrays ([float] in the source; the code
    only copies the elements) and the value [memset(.., 0, ..)] leaves. *)
Context {A : Type} (fzero : A).

(** [memcpy(dst + doff, src + soff, n * sizeof(float))].  Reading or writing
    outside either array is undefined behaviour. *)
Definition memcpy (dst : list A) (doff : Z) (src : list A) (soff n : Z) : res (list A) :=
  if (0 <=? doff) && (0 <=? soff) && (0 <=? n)
     && (doff + n <=? Z.of_nat (length dst)) && (soff + n <=? Z.of_nat (length src))
  then Ret (firstn (Z.to_nat doff) dst
            ++ firstn (Z.to_nat n) (skipn (Z.to_nat soff) src)
            ++ skipn (Z.to_nat (doff + n)) dst)
  else UB.

(** [memset(dst, 0, n * sizeof(float))] *)
Definition memset0 (dst : list A) (n : Z) : res (list A) :=
  if (0 <=? n) && (n <=? Z.of_nat (length dst))
  then Ret (repeat fzero (Z.to_nat n) ++ skipn (Z.to_nat n) dst)
  else UB.

(** [hpj::Vector<float>::Resize(n)]: [n] elements of unspecified content,
    here whatever [old] the allocator hands out. *)
Definition Resize (old : A) (n : Z) : list A := repeat old (Z.to_nat n).

(** The two bias members of [Attention]; both start out empty. *)
Record Biases : Type := mkBiases {
  qkvBias : list A;
  attnOutputBias : list A
}.

(** "Merged bias": the new [qkvBias].  A null pointer argument is [None]. *)
Definition setWeights_qkvBias (ctx : DecoderContext) (h : Heads) (old : A)
    (queryBias keyBias valueBias : option (list A)) : res (list A) :=
  let headSize := attHeadSize ctx in
  let qResponsibleCols := (endQHead h - startQHead h) * headSize in
  let kvResponsibleCols := (endKVHead h - startKVHead h) * headSize in
  let responsibleCols := qResponsibleCols + 2 * kvResponsibleCols in
  match queryBias, keyBias, valueBias with
  | Some qb, Some kb, Some vb =>
      let b0 := Resize old responsibleCols in
      do b1 <- memcpy b0 0 qb (splitIdx ctx * qResponsibleCols) qResponsibleCols;
      do b2 <- memcpy b1 qResponsibleCols kb (startKVHead h * headSize) kvResponsibleCols;
      memcpy b2 (qResponsibleCols + kvResponsibleCols) vb (startKVHead h * headSize)
             kvResponsibleCols
  | _, _, _ => Ret []
  end.

(** "Attention output bias": the new [attnOutputBias]. *)
Definition setWeights_outBias (hiddenSize splitIdx : Z) (old : A)
    (attnOutBias : option (list A)) : res (list A) :=
  match attnOutBias with
  | Some ob =>
      let o0 := Resize old hiddenSize in
      if splitIdx =? 0 then memcpy o0 0 ob 0 hiddenSize
      else (* For other splits, set bias to 0, to avoid duplicated calculation *)
        memset0 o0 hiddenSize
  | None => Ret []
  end.

(** The bias part of [setWeights]. *)
Definition setWeights_bias (ctx : DecoderContext) (h : Heads) (old : A)
    (queryBias keyBias valueBias attnOutBias : option (list A)) : res Biases :=
  do qkv <- setWeights_qkvBias ctx h old queryBias keyBias valueBias;
  do out <- setWeights_outBias (hiddenSize ctx) (splitIdx ctx) old attnOutBias;
  Ret (mkBiases qkv out).

(** The entries [[lo, hi)] of an array. *)
Definition slice (l : list A) (lo hi : Z) : list A :=
  firstn (Z.to_nat (hi - lo)) (skipn (Z.to_nat lo) l).

(** Modelled from the spec: the merged bias of a rank holds the query
    entries of its query heads, then the key and the value entries of its
    key/value heads. *)
Definition spec_qkvBias (ctx : DecoderContext) (h : Heads) (qb kb vb : list A) : list A :=
  let headSize := attHeadSize ctx in
  slice qb (startQHead h * headSize) (endQHead h * headSize)
  ++ slice kb (startKVHead h * headSize) (endKVHead h * headSize)
  ++ slice vb (startKVHead h * headSize) (endKVHead h * headSize).

End Bias.

End SetWeights.

(** ** Single precision, as far as [getMBlockSize] uses it *)

Module F32.

Open Scope Z_scope.

Definition prec : Z := 24.
Definition emax : Z := 128.

(** Conversion of an [int] to [float] (round to nearest even). *)
Definition of_int (z : Z) : spec_float := binary_normalize prec emax z 0 false.

Definition one : spec_float := of_int 1.

Definition mul (x y : spec_float) : spec_float := SFmul prec emax x y.

Definition div (x y : spec_float) : spec_float := SFdiv prec emax x y.

(** [std::ceil(float)], as an integer: a finite float is [±m * 2^e]. *)
Definition ceil_Z (s : bool) (m : positive) (e : Z) : Z :=
  let v := if s then Z.neg m else Z.pos m in
  if 0 <=? e then v * 2 ^ e else - ((- v) / 2 ^ (- e)).

Definition ceil (x : spec_float) : spec_float :=
  match x with
  | S754_finite s m e => of_int (ceil_Z s m e)
  | _ => x
  end.

(** Conversion of a [float] to [int]: truncation toward zero; undefined when
    the value is not finite or does not fit. *)
Definition to_int (x : spec_float) : res Z :=
  match x with
  | S754_zero _ => Ret 0
  | S754_finite s m e =>
      let v := if s then Z.neg m else Z.pos m in
      let t := if 0 <=? e then v * 2 ^ e else Z.quot v (2 ^ (- e)) in
      if (-2147483648 <=? t) && (t <=? 2147483647) then Ret t else UB
  | _ => UB
  end.

End F32.

(** ** The M-block size of slim attention *)

Module MBlock.

Import CInt.
Open Scope Z_scope.

(** The result of an [int] operation: overflow is undefined behaviour. *)
Definition cint (z : Z) : res Z :=
  if (-2147483648 <=? z) && (z <=? 2147483647) then Ret z else UB.

(** [std::ceil(1.0f * num / den)] converted to [int]. *)
Definition f32_ceil_quot (num den : Z) : res Z :=
  F32.to_int (F32.ceil (F32.div (F32.mul F32.one (F32.of_int num)) (F32.of_int den))).

(** [int getMBlockSize(int inputSeqLen, int headSize, int minVal = 6)];
    [sizeofImT] is [sizeof(ImT)] of the instantiation. *)
Definition getMBlockSize (sizeofImT : Z) (inputSeqLen headSize minVal : Z) : res Z :=
  if inputSeqLen =? 1 then Ret 1 else
  let l2CacheSize := 2 * 1024 * 1024 in
  do qkvSize <- cint (inputSeqLen * headSize);
  do scoreSize <- cint (inputSeqLen * inputSeqLen);
  do capacity <- cdiv l2CacheSize sizeofImT;
  do qkv2 <- cint (2 * qkvSize);
  do splits0 <-
    (if capacity <=? qkv2 then Ret 1
     else
       do num <- cint (qkv2 + scoreSize);
       do den <- cint (capacity - qkv2);
       f32_ceil_quot num den);
  let splits := if splits0 <=? 0 then 1 else splits0 in
  do t <- cint (inputSeqLen + splits);
  do mBlockSize <- cdiv (t - 1) splits;
  if mBlockSize <=? 0 then
    Ret (if inputSeqLen >? minVal then minVal else inputSeqLen)
  else if mBlockSize >? inputSeqLen then Ret inputSeqLen
  else Ret mBlockSize.

(** The first lines of [fusedAttention]: [ctx->reserved1] after the block
    "int &mBlockSize = ctx->reserved1; if (layerId % (layers / ppSize) == 0) ..." *)
Definition select_mBlockSize (sizeofImT : Z) (layerId : Z) (ctx : DecoderContext)
    (pastSeqLen : Z) : res Z :=
  do perStage <- cdiv (layers ctx) (ppSize ctx);
  do r <- cmod layerId perStage;
  if r =? 0 then
    if pastSeqLen =? 0 then getMBlockSize sizeofImT (inputSeqLen ctx) (attHeadSize ctx) 6
    else Ret (inputSeqLen ctx)
  else Ret (reserved1 ctx).

(** Modelled from the spec: [ceil(a / b)] on integers. *)
Definition ceil_div (a b : Z) : Z := - ((- a) / b).

(** Modelled from the spec: the number of splits, an exact ceiling. *)
Definition spec_splits (sizeofImT S headSize : Z) : Z :=
  let capacity := (2 * 1024 * 1024) / sizeofImT in
  if capacity <=? 2 * S * headSize then 1
  else ceil_div (2 * S * headSize + S * S) (capacity - 2 * S * headSize).

(** Modelled from the spec: [ceil(S / splits)] clamped to [[min(6, S), S]]. *)
Definition spec_mBlockSize (sizeofImT S headSize : Z) : Z :=
  Z.min S (Z.max (Z.min 6 S) (ceil_div S (spec_splits sizeofImT S headSize))).

End MBlock.

(** ** [fusedAttention]: choice between slim and head-sharded attention *)

Module Fused.

Import CInt HeadRange MBlock.
Open Scope Z_scope.

Inductive fusedKernel : Type :=
| SlimAttention
| CrossAttnShardHead.

(** [bool shardHead = (ctx->inputSeqLen == 1)
                      && (ctx->numThreads >= batchSize * responsibleHeads * 2);] *)
Definition shardHead (ctx : DecoderContext) (h : Heads) : bool :=
  let responsibleHeads := endQHead h - startQHead h in
  (inputSeqLen ctx =? 1) && (numThreads ctx >=? batchSize ctx * responsibleHeads * 2).

(** What [fusedAttention] has decided when it calls its kernel. *)
Record FusedPlan : Type := mkPlan {
  plan_mBlockSize : Z;      (* the new value of [ctx->reserved1] *)
  plan_kvCopied : bool;     (* [copyKVCache] has run before the kernel *)
  plan_kernel : fusedKernel
}.

(** [Attention::fusedAttention], up to the call of the kernel. *)
Definition fusedAttention (sizeofImT layerId : Z) (ctx : DecoderContext) (h : Heads)
    (pastSeqLen : Z) : res FusedPlan :=
  do groupNum <- cdiv (attHeadNum ctx) (kvHeadNum ctx);
  do mBlockSize <- select_mBlockSize sizeofImT layerId ctx pastSeqLen;
  let shard := shardHead ctx h in
  let kvCopied :=
    (kvHeadNum ctx <? attHeadNum ctx) || negb (mBlockSize =? inputSeqLen ctx) || shard in
  Ret (mkPlan mBlockSize kvCopied (if negb shard then SlimAttention else CrossAttnShardHead)).

(** The sharding of one head in [crossAttnShardHead]. *)
Record Sharding : Type := mkSharding {
  sh_N : Z;        (* number of key/value columns, [pastSeqLen + inputSeqLen] *)
  sh_splits : Z;   (* shards per head *)
  sh_nb : Z        (* columns per shard *)
}.

Definition splits_msg : string := "Do not call me when splits".
Definition headSize_msg : string := "Head size is not supported.".

(** [Attention::crossAttnShardHead], up to the two [REQUIRES]. *)
Definition crossAttnShardHead_prologue (ctx : DecoderContext) (h : Heads)
    (pastSeqLen : Z) : res Sharding :=
  let responsibleHeads := endQHead h - startQHead h in
  do groupNum <- cdiv (attHeadNum ctx) (kvHeadNum ctx);
  let N := pastSeqLen + inputSeqLen ctx in
  do splits <- cdiv (numThreads ctx) (batchSize ctx * responsibleHeads);
  do nb <- cdiv (N + splits - 1) splits;
  if negb (splits >? 1) then Fatal splits_msg
  else
    do r <- cmod (attHeadSize ctx) 16;
    if negb (r =? 0) then Fatal headSize_msg
    else Ret (mkSharding N splits nb).

(** The key/value columns shard [s] works on, as (offset, length):
    [int nOff = s * nb; int n = (s < splits - 1 ? nb : N - nOff);] *)
Definition shard_cols (sh : Sharding) (s : Z) : Z * Z :=
  let nOff := s * sh_nb sh in
  let n := if s <? sh_splits sh - 1 then sh_nb sh else sh_N sh - nOff in
  (nOff, n).

(** Modelled from the spec: the columns of shard [s], as (first,
    past-the-end): [[s * nb, min((s + 1) * nb, T))]. *)
Definition spec_shard_range (sh : Sharding) (s : Z) : Z * Z :=
  (s * sh_nb sh, Z.min ((s + 1) * sh_nb sh) (sh_N sh)).

End Fused.

(** ** The head-sharded reducer of [crossAttnShardHead] (online softmax) *)

Module ShardHead.

Open Scope R_scope.

(** [acc += x] over a list, in the order of the loop. *)
Definition Rsum (l : list R) : R := fold_left Rplus l 0.

Section Reduce.

(** [std::numeric_limits<float>::lowest()] *)
Variable lowest : R.

(** [ctx->attHeadSize] *)
Variable headSize : nat.

(** One key/value column of a head: the argument of the exponential for
    that column (the scaled and masked score) and the row of V. *)
Record Col : Type := mkCol {
  col_logit : R;
  col_v : nat -> R
}.

(** Modelled from the spec: [DecoderUtil::softmaxWithStats], which is not
    part of the sources at hand.  It returns the maximum and the sum of the
    exponentials of the shard, and leaves the shard-local softmax in the
    score memory. *)
Definition softmaxWithStats (xs : list R) : (R * R) * list R :=
  let maxVal := fold_left Rmax xs lowest in
  let es := map (fun x => exp (x - maxVal)) xs in
  let sumVal := Rsum es in
  ((maxVal, sumVal), map (fun e => e / sumVal) es).

(** Modelled from the spec: [xft::small_gemm(A, B, C, 1, headSize, n, ..)],
    which is not part of the sources at hand: one row of scores times the
    [n] rows of V. *)
Definition small_gemm (a : list R) (B : list (nat -> R)) : list R :=
  map (fun c => Rsum (zip_with (fun x v => x * v c) a B)) (seq 0 headSize).

(** [splitInfo[idx]]: max, sum, and the finish flag that is later reused
    for the revise factor. *)
Record SplitInfo : Type := mkInfo {
  s_max : R;
  s_sum : R;
  s_flag : R
}.

(** The body of the loop over [s] up to "set finished flag": the statistics
    of the shard and its [shardedOut] row. *)
Definition shard_task (cols : list Col) : SplitInfo * list R :=
  let '((maxVal, sumVal), probs) := softmaxWithStats (map col_logit cols) in
  (mkInfo maxVal sumVal 1, small_gemm probs (map col_v cols)).

(** "Firstly get the max value": the loop over [idx > headStartIdx]. *)
Definition realMax_of (first : SplitInfo) (rest : list SplitInfo) : R :=
  fold_left (fun realMax inf => if Rgt_dec (s_max inf) realMax then s_max inf else realMax)
            rest (s_max first).

(** The second loop: revise factors stored in the flag, and [realSum]. *)
Definition revise (realMax : R) (infos : list SplitInfo) : R * list SplitInfo :=
  (fold_left (fun realSum inf => realSum + s_sum inf * exp (s_max inf - realMax)) infos 0,
   map (fun inf => mkInfo (s_max inf) (s_sum inf) (exp (s_max inf - realMax))) infos).

(** The third loop: [acc[off] += p[off] * factor] for every shard. *)
Definition accumulate (realSum : R) (tasks : list (SplitInfo * list R)) : list R :=
  fold_left
    (fun acc t =>
       let factor := s_flag (fst t) * (s_sum (fst t) / realSum) in
       zip_with (fun a p => a + p * factor) acc (snd t))
    tasks (repeat 0 headSize).

(** The work of shard 0 of a head once all shards have finished. *)
Definition reduce (tasks : list (SplitInfo * list R)) : list R :=
  match tasks with
  | [] => []
  | t0 :: rest =>
      let realMax := realMax_of (fst t0) (map fst rest) in
      let '(realSum, infos) := revise realMax (map fst tasks) in
      accumulate realSum (combine infos (map snd tasks))
  end.

(** One (batch, head) of [crossAttnShardHead]: every shard runs its task,
    shard 0 reduces. *)
Definition crossAttnShardHead_row (shards : list (list Col)) : list R :=
  reduce (map shard_task shards).

(** Modelled from the spec: the same row without sharding, one softmax over
    all columns, then the product with V. *)
Definition unsharded_row (cols : list Col) : list R :=
  small_gemm (snd (softmaxWithStats (map col_logit cols))) (map col_v cols).

End Reduce.

End ShardHead.

(** ** The matmul helper *)

Module MM.

Open Scope R_scope.

(** A buffer of [float]s behind a pointer. *)
Definition Data : Type := nat -> R.

(** A packed weight: the helper alone knows the layout, [B k j] is the
    entry of row [k] and column [j] of the matrix that was packed. *)
Definition Packed : Type := nat -> nat -> R.

(** [sum_{k < K} f k] *)
Fixpoint sigma (K : nat) (f : nat -> R) : R :=
  match K with
  | O => 0
  | S k => sigma k f + f k
  end.

(** Entry [(i, j)] of [A * B] for a row-major [A] with leading dimension [lda]. *)
Definition gemm_at (K : nat) (A : Data) (lda : nat) (B : Packed) (i j : nat) : R :=
  sigma K (fun k => A (i * lda + k)%nat * B k j).

(** Store [v i j] at [C[i * ldc + j]] for [i < M], [j < N]. *)
Definition store_tile (M N ldc : nat) (v : nat -> nat -> R) (C : Data) : Data :=
  fun idx =>
    let i := (idx / ldc)%nat in
    let j := (idx mod ldc)%nat in
    if (i <? M)%nat && (j <? N)%nat then v i j else C idx.

(** Modelled from the spec: [SiLU(x) = x * sigmoid(x)]. *)
Definition silu (x : R) : R := x / (1 + exp (- x)).

(** A bias pointer that may be [NULL]. *)
Definition bias_at (bias : option Data) (j : nat) : R :=
  match bias with
  | Some b => b j
  | None => 0
  end.

(** The projection variants of the matmul helper.  Its implementation is not
    part of the sources at hand; every call site passes [alpha = 1] and
    [beta = 0], which are left out. *)

(** Modelled from the spec: [compute], [C <- A * B]. *)
Definition compute (M N K : nat) (A : Data) (lda : nat) (B : Packed)
    (C : Data) (ldc : nat) : Data :=
  store_tile M N ldc (fun i j => gemm_at K A lda B i j) C.

(** Modelled from the spec: [compute_bias], [C <- A * B + bias]. *)
Definition compute_bias (M N K : nat) (A : Data) (lda : nat) (B : Packed)
    (C : Data) (ldc : nat) (bias : Data) : Data :=
  store_tile M N ldc (fun i j => gemm_at K A lda B i j + bias j) C.

(** Modelled from the spec: [compute_silu], [C <- SiLU(A * B)]. *)
Definition compute_silu (M N K : nat) (A : Data) (lda : nat) (B : Packed)
    (C : Data) (ldc : nat) : Data :=
  store_tile M N ldc (fun i j => silu (gemm_at K A lda B i j)) C.

(** Modelled from the spec: [compute_resmul], [C <- (A * B) .* R]. *)
Definition compute_resmul (M N K : nat) (A : Data) (lda : nat) (B : Packed)
    (C : Data) (ldc : nat) (R : Data) (ldr : nat) : Data :=
  store_tile M N ldc (fun i j => gemm_at K A lda B i j * R (i * ldr + j)%nat) C.

(** Modelled from the spec: [compute_residential], [C <- A * B + R [+ bias]]. *)
Definition compute_residential (M N K : nat) (A : Data) (lda : nat) (B : Packed)
    (C : Data) (ldc : nat) (bias : option Data) (R : Data) (ldr : nat) : Data :=
  store_tile M N ldc
    (fun i j => gemm_at K A lda B i j + bias_at bias j + R (i * ldr + j)%nat) C.

(** Modelled from the spec: [compute_resext],
    [C <- A * B + gamma * R [+ bias]]. *)
Definition compute_resext (M N K : nat) (A : Data) (lda : nat) (B : Packed)
    (C : Data) (ldc : nat) (bias : option Data) (gamma : R) (R : Data) (ldr : nat) : Data :=
  store_tile M N ldc
    (fun i j => gemm_at K A lda B i j + bias_at bias j + gamma * R (i * ldr + j)%nat) C.

(** The entry point of the helper a projection is issued through, with the
    arguments that come after [C, ldc]. *)
Inductive mmCall : Type :=
| Call_compute
| Call_compute_bias (bias : Data)
| Call_compute_residential (bias : option Data) (R : Data) (ldr : nat)
| Call_compute_resext (bias : option Data) (gamma : R) (R : Data) (ldr : nat).

Definition run (c : mmCall) (M N K : nat) (A : Data) (lda : nat) (B : Packed)
    (C : Data) (ldc : nat) : Data :=
  match c with
  | Call_compute => compute M N K A lda B C ldc
  | Call_compute_bias bias => compute_bias M N K A lda B C ldc bias
  | Call_compute_residential bias R ldr => compute_residential M N K A lda B C ldc bias R ldr
  | Call_compute_resext bias gamma R ldr =>
      compute_resext M N K A lda B C ldc bias gamma R ldr
  end.




(** A packed [hpj::Matrix<WeiT>]. *)
Record Weight : Type := mkWeight {
  W_at : Packed;
  W_Rows : nat;
  W_Cols : nat
}.


(** [memcpy(dst + doff, src + soff, n * sizeof(T))] on buffers. *)
Definition memcpy (dst : Data) (doff : nat) (src : Data) (soff n : nat) : Data :=
  fun idx =>
    if (doff <=? idx)%nat && (idx <? doff + n)%nat then src (soff + (idx - doff))%nat
    else dst idx.

End MM.

(** ** Buffers in memory *)

Module Mem.

(** Addresses of buffers; two pointers alias when the addresses are equal. *)
Definition addr : Type := positive.

Abbreviation store := (gmap positive MM.Data).

Definition rd (m : store) (a : addr) : MM.Data :=
  default (fun _ => 0%R) (m !! a).

Definition wr (a : addr) (d : MM.Data) (m : store) : store := <[a := d]> m.

(** A matrix view [hpj::Matrix<T>(ptr, rows, cols, stride)]. *)
Record View : Type := mkView {
  v_ptr : addr;
  v_Rows : nat;
  v_Cols : nat;
  v_Stride : nat
}.

End Mem.

(** ** The LLaMA MLP layer *)

Module LlamaMLP.

Import MM Mem.
Open Scope R_scope.

(** The weight members of [LlamaMLP]. *)
Record MLP : Type := mkMLP {
  gateWeight : Weight;
  upWeight : Weight;
  catWeights : Weight;
  downWeight : Weight;
  normWeight : Data
}.

Definition noWeight : Weight := mkWeight (fun _ _ => 0) 0 0.



Section Forward.

(** [xft::rmsNorm(out, in, gamma, rows, cols, inStride, outStride, 1e-6)]:
    the new content of [out]. *)
Variable rmsNorm : Data -> Data -> Data -> nat -> nat -> nat -> nat -> Data.

(** [enableCATMLP()] *)
Variable enableCATMLP : bool.

Variable mlp : MLP.

Definition gateProj (input output : View) (m : store) : store :=
  let M := v_Rows input in
  let N := v_Cols output in
  let K := v_Cols input in
  wr (v_ptr output)
     (compute_silu M N K (rd m (v_ptr input)) (v_Stride input) (W_at (gateWeight mlp))
                   (rd m (v_ptr output)) (v_Stride output)) m.

Definition upProj (input output : View) (m : store) : store :=
  let M := v_Rows input in
  let N := v_Cols output in
  let K := v_Cols input in
  let C := rd m (v_ptr output) in
  let ldc := v_Stride output in
  wr (v_ptr output)
     (compute_resmul M N K (rd m (v_ptr input)) (v_Stride input) (W_at (upWeight mlp))
                     C ldc C ldc) m.

(** The helper call [downProj] issues. *)
Definition downProj_call (residential : View) (isMaster : bool) (m : store) : mmCall :=
  if isMaster then
    Call_compute_residential None (rd m (v_ptr residential)) (v_Stride residential)
  else Call_compute.

Definition downProj (input output residential : View) (isMaster : bool) (m : store) : store :=
  let M := v_Rows input in
  let N := v_Cols output in
  let K := W_Rows (downWeight mlp) in
  let A := rd m (v_ptr input) in
  let B := W_at (downWeight mlp) in
  let C := rd m (v_ptr output) in
  wr (v_ptr output)
     (run (downProj_call residential isMaster m) M N K A (v_Stride input) B C
          (v_Stride output)) m.

(** The [assert]s of [downProj]; with [NDEBUG] they are compiled out, and
    [downProj] above does not depend on them. *)
Definition downProj_asserts (input output : View) : bool :=
  (v_Rows input =? v_Rows output)%nat
  && (if negb enableCATMLP then (v_Cols input =? W_Rows (downWeight mlp))%nat
      else (v_Cols input =? 2 * W_Rows (downWeight mlp))%nat)
  && (W_Cols (downWeight mlp) =? v_Cols output)%nat.

(** Modelled from the spec: [DecoderUtil::siluSum(src, dst)], which is not
    part of the sources at hand: for each row,
    [dst[j] = SiLU(src[j]) * src[j + cols]]. *)
Definition siluSum (src dst : View) (m : store) : store :=
  let cols := v_Cols dst in
  let s := rd m (v_ptr src) in
  wr (v_ptr dst)
     (store_tile (v_Rows src) cols (v_Stride dst)
        (fun i j => silu (s (i * v_Stride src + j)%nat)
                    * s (i * v_Stride src + j + cols)%nat)
        (rd m (v_ptr dst))) m.

Definition catGateUpProj (input output siluBuf : View) (m : store) : store :=
  let M := v_Rows input in
  let N := v_Cols output in
  let K := v_Cols input in
  let m1 :=
    wr (v_ptr output)
       (compute M N K (rd m (v_ptr input)) (v_Stride input) (W_at (catWeights mlp))
                (rd m (v_ptr output)) (v_Stride output)) m in
  siluSum output siluBuf m1.

(** The buffers of the context and of the memory pool that [forward] uses. *)
Record Scratch : Type := mkScratch {
  normBuf : View;       (* [ctx->normBuf] *)
  imOut : View;         (* [ctx->imOut] *)
  mlp_silu : addr       (* [SimpleMemPool::instance().getBuffer("mlp_silu", ..)] *)
}.

(** [LlamaMLP::forward(ctx, input, output, iStride, oStride, doLnBefore)] *)
Definition forward (ctx : DecoderContext) (sc : Scratch) (input output : addr)
    (iStride oStride : nat) (doLnBefore : bool) (m : store) : store :=
  let M := Z.to_nat (batchSize ctx * inputSeqLen ctx) in
  let hidden := Z.to_nat (hiddenSize ctx) in
  let inBuffer := mkView input M hidden iStride in
  let outBuffer := mkView output M hidden oStride in
  let normBuffer := normBuf sc in
  let m1 :=
    if doLnBefore then
      wr (v_ptr normBuffer)
         (rmsNorm (rd m (v_ptr normBuffer)) (rd m input) (normWeight mlp) M hidden
                  (v_Stride inBuffer) (v_Stride normBuffer)) m
    else m in
  let X := if doLnBefore then normBuffer else inBuffer in
  if negb enableCATMLP then
    let imBuffer := imOut sc in
    let m2 := gateProj X imBuffer m1 in
    let m3 := upProj X imBuffer m2 in
    downProj imBuffer outBuffer inBuffer (splitIdx ctx =? 0)%Z m3
  else
    let M' := v_Rows normBuffer in
    let N := W_Cols (catWeights mlp) in
    let imBuffer := mkView (v_ptr (imOut sc)) M' N N in
    let cols := (N / 2)%nat in
    let siluBuf := mkView (mlp_silu sc) M' cols cols in
    let m2 := catGateUpProj X imBuffer siluBuf m1 in
    downProj siluBuf outBuffer inBuffer (splitIdx ctx =? 0)%Z m2.

End Forward.

End LlamaMLP.

(** ** The attention layer: [Attention::forward] and its kernels *)

Module Attention.

Import CInt HeadRange MBlock Fused MM Mem.
Open Scope Z_scope.

(** The element types the template is instantiated with. *)
Inductive dtype : Type := Float32 | BFloat16 | Float16.

Definition sizeof (t : dtype) : Z :=
  match t with
  | Float32 => 4
  | BFloat16 | Float16 => 2
  end.

Definition is_bfloat16 (t : dtype) : bool :=
  match t with
  | BFloat16 => true
  | _ => false
  end.

Definition is_float (t : dtype) : bool :=
  match t with
  | Float32 => true
  | _ => false
  end.

Definition dtype_eqb (a b : dtype) : bool :=
  match a, b with
  | Float32, Float32 | BFloat16, BFloat16 | Float16, Float16 => true
  | _, _ => false
  end.

(** The members of an [Attention] object that [forward] reads. *)
Record Layer : Type := mkLayer {
  layerId : Z;
  heads : Heads;
  qkvWeight : Weight;
  qkvBias : list R;
  attnOutputWeight : Weight;
  attnOutputBias : list R
}.

(** [hpj::Vector<float>::Data()] *)
Definition vec (l : list R) : Data := fun j => nth j l 0%R.

(** [ctx->qkvMatMul], [ctx->qkScores] and [ctx->getScoreCapacity()]. *)
Record CtxBufs : Type := mkCtxBufs {
  qkvMatMul : addr;
  qkScores : addr;
  scoreCapacity : Z
}.

(** What [forward] changes: the context, the memory, and [ctx->attFactor]. *)
Record State : Type := mkState {
  st_ctx : DecoderContext;
  st_mem : store;
  st_attFactor : R
}.

Definition set_reserved1 (ctx : DecoderContext) (v : Z) : DecoderContext :=
  mkCtx (hiddenSize ctx) (intermediateSize ctx) (attHeadNum ctx) (kvHeadNum ctx)
        (attHeadSize ctx) (batchSize ctx) (inputSeqLen ctx) (maxSeqLength ctx)
        (maxPosEmbed ctx)
        (numSplit ctx) (splitIdx ctx) (numThreads ctx) (ppSize ctx) (layers ctx) v.

(** The projection after the attention kernel ("Output/projection in
    attention, only add the input in the first split"): the call issued. *)
Definition outputProjection_call (gamma : R) (splitIdx : Z) (attnOutputBias : list R)
    (inputBuffer : View) (m : store) : mmCall :=
  if splitIdx =? 0 then
    let pbias := if (length attnOutputBias =? 0)%nat then None else Some (vec attnOutputBias) in
    if Req_dec_T gamma 1 then
      Call_compute_residential pbias (rd m (v_ptr inputBuffer)) (v_Stride inputBuffer)
    else
      Call_compute_resext pbias gamma (rd m (v_ptr inputBuffer)) (v_Stride inputBuffer)
  else
    if (length attnOutputBias =? 0)%nat then Call_compute
    else Call_compute_bias (vec attnOutputBias).

Definition outputProjection (gamma : R) (splitIdx : Z) (att : Layer)
    (attnSplit outBuffer inputBuffer : View) (m : store) : store :=
  wr (v_ptr outBuffer)
     (run (outputProjection_call gamma splitIdx (attnOutputBias att) inputBuffer m)
          (v_Rows attnSplit) (W_Cols (attnOutputWeight att)) (v_Cols attnSplit)
          (rd m (v_ptr attnSplit)) (v_Stride attnSplit) (W_at (attnOutputWeight att))
          (rd m (v_ptr outBuffer)) (v_Stride outBuffer)) m.

Section Driver.

(** Template parameters, and [AttnT] of [flashAttention]. *)
Variables InT ImT OutT AttnT : dtype.
Variable INPUT_AS_RESID : bool.

(** [getFlashThresh()] *)
Variable flashThresh : Z.

(** The virtual [getResidentialScale()] and [getScalingCoeff()]. *)
Variable residentialScale : R.
Variable scalingCoeff : R.

(** [SimpleMemPool::instance().getBuffer(name, ..)] *)
Variable pool : string -> addr.

(** [NORM_CLS::forward(in, out, rows, inStride, outStride)]: the new [out]. *)
Variable norm_forward : Data -> Data -> nat -> nat -> nat -> Data.

(** [QKPO_CLS::forward(query, key, .., qkShape, positionIds)]: the new
    content of the buffer that holds query and key. *)
Variable qkpo_forward : Data -> list Z -> list Z -> Data.

(** What the kernels leave in a buffer, as an unknown function of the name
    of the step, the old content and the buffers the step reads. *)
Variable kernel_out : string -> list Data -> Data.

Definition write_from (step : string) (dst : addr) (srcs : list addr) (m : store) : store :=
  wr dst (kernel_out step (rd m dst :: map (rd m) srcs)) m.

(** The arguments the three kernels share. *)
Record KernelArgs : Type := mkArgs {
  a_qkv : addr;            (* query, key and value are views of this buffer *)
  a_result : addr;
  a_presentKey : addr;
  a_presentValue : addr;
  a_attnMask : addr;
  a_pastSeqLen : Z
}.

(** [copyKVCache(ctx, key, value, presentKey, presentValue, pastSeqLen)] *)
Definition copyKVCache (a : KernelArgs) (m : store) : store :=
  let m1 := write_from "copyKVCache.key" (a_presentKey a) [a_qkv a] m in
  write_from "copyKVCache.value" (a_presentValue a) [a_qkv a] m1.

Definition flashAttention (ctx : DecoderContext) (att : Layer) (a : KernelArgs)
    (st : State) : res State :=
  let m := st_mem st in
  do m1 <-
    (if dtype_eqb AttnT ImT then Ret m
     else if (is_bfloat16 AttnT && is_float ImT) || (is_float AttnT && is_bfloat16 ImT)
     then Ret (write_from "flashAttention.convert" (pool "flashKVBuf") [a_qkv a] m)
     else Fatal "Not supported Type in Flash Attention yet");
  let kv := if dtype_eqb AttnT ImT then a_qkv a else pool "flashKVBuf" in
  let m2 := write_from "scaledDpAttention.thrBuf" (pool "threadBuffers") [] m1 in
  let m3 := write_from "scaledDpAttention.thrPtrBuf" (pool "threadPtrBuffers") [] m2 in
  let m4 := write_from "scaledDpAttention" (a_result a)
                       [a_qkv a; kv; a_attnMask a; pool "threadBuffers"] m3 in
  let m5 := write_from "flashAttention.key" (a_presentKey a) [a_qkv a] m4 in
  let m6 := write_from "flashAttention.value" (a_presentValue a) [a_qkv a] m5 in
  Ret (mkState (st_ctx st) m6 (st_attFactor st)).

Definition selfAttentionBF16 (ctx : DecoderContext) (att : Layer) (a : KernelArgs)
    (st : State) : res State :=
  let h := heads att in
  let responsibleQHeads := endQHead h - startQHead h in
  let responsibleKVHeads := endKVHead h - startKVHead h in
  if negb (responsibleKVHeads =? responsibleQHeads) then
    Fatal "Error: encounter the case not supported in selfAttentionBF16."
  else
    let m := st_mem st in
    let m1 := write_from "selfAttention" (a_result a) [a_qkv a] m in
    let m2 := write_from "selfAttention.key" (a_presentKey a) [a_qkv a] m1 in
    let m3 := write_from "selfAttention.value" (a_presentValue a) [a_qkv a] m2 in
    Ret (mkState (st_ctx st) m3 (st_attFactor st)).

Definition slimAttention (ctx : DecoderContext) (cb : CtxBufs) (a : KernelArgs)
    (mBlockSize : Z) (kvCopied : bool) (m : store) : res store :=
  do groupNum <- cdiv (attHeadNum ctx) (kvHeadNum ctx);
  do mBlockNum <- cdiv (inputSeqLen ctx + mBlockSize - 1) mBlockSize;
  let pastSeqLen := a_pastSeqLen a in
  let scoreStride :=
    if pastSeqLen >? 0 then Z.quot (pastSeqLen + inputSeqLen ctx + 15) 16 * 16
    else inputSeqLen ctx in
  let bufSizeRequired := numThreads ctx * mBlockSize * scoreStride in
  let scoreBuf := if bufSizeRequired >? scoreCapacity cb then pool "scoreBuf" else qkScores cb in
  let m1 := if kvCopied then m
            else write_from "copyKVCache.head" (a_presentKey a) [a_qkv a] m in
  let m2 := write_from "gemm1" scoreBuf [a_qkv a; a_presentKey a] m1 in
  let m3 := write_from "softmax" scoreBuf [a_attnMask a] m2 in
  let m4 := if kvCopied then m3
            else write_from "copyValue.head" (a_presentValue a) [a_qkv a] m3 in
  Ret (write_from "gemm2" (a_result a) [scoreBuf; a_presentValue a] m4).

Definition crossAttnShardHead (ctx : DecoderContext) (att : Layer) (cb : CtxBufs)
    (a : KernelArgs) (m : store) : res store :=
  do sharding <- crossAttnShardHead_prologue ctx (heads att) (a_pastSeqLen a);
  let m1 := write_from "small_gemm_transb" (qkScores cb)
                       [a_attnMask a; a_qkv a; a_presentKey a] m in
  let m2 := write_from "softmaxWithStats" (qkScores cb) [a_attnMask a] m1 in
  let m3 := write_from "small_gemm" (pool "shardedOutput") [qkScores cb; a_presentValue a] m2 in
  Ret (write_from "reduce" (a_result a) [pool "shardedOutput"] m3).

Definition fusedAttention (ctx : DecoderContext) (att : Layer) (cb : CtxBufs)
    (a : KernelArgs) (st : State) : res State :=
  do plan <- Fused.fusedAttention (sizeof ImT) (layerId att) ctx (heads att) (a_pastSeqLen a);
  let ctx' := set_reserved1 ctx (plan_mBlockSize plan) in
  let m1 := if plan_kvCopied plan then copyKVCache a (st_mem st) else st_mem st in
  do m2 <-
    match plan_kernel plan with
    | SlimAttention =>
        slimAttention ctx' cb a (plan_mBlockSize plan) (plan_kvCopied plan) m1
    | CrossAttnShardHead => crossAttnShardHead ctx' att cb a m1
    end;
  Ret (mkState ctx' m2 (st_attFactor st)).

(** The choice of the kernel in [forward]. *)
Definition dispatchAttention {K : Type} (ctx : DecoderContext) (pastSeqLen : Z)
    (flash self fused : K) : K :=
  if pastSeqLen =? 0 then
    if inputSeqLen ctx >? flashThresh then flash
    else if is_bfloat16 InT && is_bfloat16 OutT then self
    else fused
  else fused.

(** [Attention::forward(ctx, input, imBuf, output, attnMask, presentKey,
    presentValue, inputSeqLen, pastSeqLen, useSelfAttn, doLnBefore,
    positionIds)] *)
Definition forward (att : Layer) (cb : CtxBufs) (input imBuf output attnMask : addr)
    (presentKey presentValue : addr) (inputSeqLen_arg pastSeqLen : Z)
    (useSelfAttn doLnBefore : bool) (positionIds : option (list Z))
    (st : State) : res State :=
  let ctx := st_ctx st in
  let hidden := Z.to_nat (hiddenSize ctx) in
  let rows := Z.to_nat (batchSize ctx * inputSeqLen_arg) in
  let inputBuffer := mkView input rows hidden hidden in
  let imBuffer := mkView imBuf rows hidden hidden in
  let outBuffer := mkView output rows hidden hidden in
  let headSize := attHeadSize ctx in
  let h := heads att in
  let qCols := (endQHead h - startQHead h) * headSize in
  let kvCols := (endKVHead h - startKVHead h) * headSize in
  let qkvCols := qCols + kvCols + kvCols in
  let qkvGroupMatMul := mkView (qkvMatMul cb) rows (Z.to_nat qkvCols) (Z.to_nat qkvCols) in
  let m0 := st_mem st in
  let m1 :=
    if doLnBefore then
      wr imBuf (norm_forward (rd m0 input) (rd m0 imBuf) (v_Rows inputBuffer)
                             (v_Stride inputBuffer) (v_Stride imBuffer)) m0
    else m0 in
  (* Query, Key, Value computed together *)
  let qkvCall :=
    if (length (qkvBias att) =? 0)%nat then Call_compute
    else Call_compute_bias (vec (qkvBias att)) in
  let m2 :=
    wr (qkvMatMul cb)
       (run qkvCall (v_Rows imBuffer) (W_Cols (qkvWeight att)) (v_Cols imBuffer)
            (rd m1 imBuf) (v_Stride imBuffer) (W_at (qkvWeight att))
            (rd m1 (qkvMatMul cb)) (v_Stride qkvGroupMatMul)) m1 in
  (* Apply post operations on query and key *)
  let qkShape :=
    [batchSize ctx; inputSeqLen ctx; endQHead h - startQHead h; headSize;
     endKVHead h - startKVHead h; maxSeqLength ctx; pastSeqLen] in
  let m3 :=
    match positionIds with
    | Some ids => wr (qkvMatMul cb) (qkpo_forward (rd m2 (qkvMatMul cb)) qkShape ids) m2
    | None =>
        if maxPosEmbed ctx >? 0 then
          let posIds :=
            if inputSeqLen_arg =? 1 then
              pastSeqLen :: repeat 0 (Z.to_nat (inputSeqLen ctx) - 1)
            else map (fun i => pastSeqLen + Z.of_nat i) (seq 0 (Z.to_nat (inputSeqLen ctx))) in
          wr (qkvMatMul cb) (qkpo_forward (rd m2 (qkvMatMul cb)) qkShape posIds) m2
        else m2
    end in
  let attFactor' :=
    if Req_dec_T scalingCoeff 0%R then st_attFactor st else scalingCoeff in
  (* Swap inputBuffer and imBuffer *)
  let inputBuffer' := if INPUT_AS_RESID then inputBuffer else imBuffer in
  let imBuffer' := if INPUT_AS_RESID then imBuffer else inputBuffer in
  let attnSplit := mkView (v_ptr imBuffer') (v_Rows imBuffer') (Z.to_nat qCols) (Z.to_nat qCols) in
  let a := mkArgs (qkvMatMul cb) (v_ptr attnSplit) presentKey presentValue attnMask pastSeqLen in
  let st3 := mkState ctx m3 attFactor' in
  do st4 <-
    dispatchAttention ctx pastSeqLen
      (flashAttention ctx att a st3)
      (selfAttentionBF16 ctx att a st3)
      (fusedAttention ctx att cb a st3);
  (* Output/projection in attention, only add the input in the first split *)
  let m5 := outputProjection residentialScale (splitIdx ctx) att attnSplit outBuffer
                             inputBuffer' (st_mem st4) in
  let m6 :=
    if negb doLnBefore then
      wr output (norm_forward (rd m5 output) (rd m5 output) (v_Rows outBuffer)
                              (v_Stride outBuffer) (v_Stride outBuffer)) m5
    else m5 in
  Ret (mkState (st_ctx st4) m6 (st_attFactor st4)).

End Driver.

End Attention.

(** * Further parts of the two layers *)

(** ** Counted loops *)

Module Loops.
Open Scope Z_scope.

(** The values [0, 1, .., n - 1] that the counter of
    [for (int i = 0; i < n; ++i)] takes; none when [n <= 0]. *)
Definition upto (n : Z) : list Z := map Z.of_nat (seq 0 (Z.to_nat n)).

(** The value of an integer expression of type [uint64_t]. *)
Definition u64 (z : Z) : Z := z mod 2 ^ 64.

(** The same for [for (uint64_t i = 0; i < n; ++i)] with an [int] bound,
    which the comparison converts to [uint64_t]. *)
Definition upto_u64 (n : Z) : list Z := upto (u64 n).

End Loops.

(** ** The KV head that a query head reads in the fused kernels *)

Module KVHead.
Import CInt HeadRange.
Open Scope Z_scope.

(** [presentKey.getHead(b, i / groupNum)] and
    [presentValue.getHead(b, i / groupNum)] in [slimAttention] and
    [crossAttnShardHead]: the head of the rank's KV cache that the local
    query head [i] reads, with
    [groupNum = ctx->attHeadNum / ctx->kvHeadNum]. *)
Definition kernel_kvHead (ctx : DecoderContext) (i : Z) : res Z :=
  do groupNum <- cdiv (attHeadNum ctx) (kvHeadNum ctx);
  cdiv i groupNum.

End KVHead.

(** ** [Attention::setWeights]: the merged weight and its scales *)

Module SetWeightsConcat.
Import HeadRange MM Loops.
Open Scope Z_scope.

(** [memcpy(dst + doff, src + soff, n * sizeof(T))] with [int] offsets and
    count; the offsets and the count are the values of the [int]
    expressions, which have to be representable and non-negative for the
    call to be defined. *)
Definition memcpy_at (dst : Data) (doff : Z) (src : Data) (soff n : Z) : Data :=
  memcpy dst (Z.to_nat doff) src (Z.to_nat soff) (Z.to_nat n).

(** [concatBuf] of [Attention::setWeights]: the query, key and value weights
    of the rank in one buffer; [fresh] is the content [malloc] leaves.  With
    [trans] there are three block copies; without it the three sources are
    copied row by row, [qkvStride] elements apart. *)
Definition concatBuf (trans : bool) (ctx : DecoderContext) (h : Heads)
    (queryWeight keyWeight valueWeight : Data) (fresh : Data) : Data :=
  let hiddenSize := hiddenSize ctx in
  let headSize := attHeadSize ctx in
  let qResponsibleCols := (endQHead h - startQHead h) * headSize in
  let kvResponsibleCols := (endKVHead h - startKVHead h) * headSize in
  let responsibleCols := qResponsibleCols + 2 * kvResponsibleCols in
  if trans then
    let b1 := memcpy_at fresh 0 queryWeight (startQHead h * headSize * hiddenSize)
                        (hiddenSize * qResponsibleCols) in
    let b2 := memcpy_at b1 (hiddenSize * qResponsibleCols)
                        keyWeight (startKVHead h * headSize * hiddenSize)
                        (hiddenSize * kvResponsibleCols) in
    memcpy_at b2 (hiddenSize * (qResponsibleCols + kvResponsibleCols))
              valueWeight (startKVHead h * headSize * hiddenSize)
              (hiddenSize * kvResponsibleCols)
  else
    let qkvStride := (attHeadNum ctx + kvHeadNum ctx + kvHeadNum ctx) * attHeadSize ctx in
    fold_left
      (fun d i =>
         let d1 := memcpy_at d (i * responsibleCols)
                             queryWeight (i * qkvStride + startQHead h * headSize)
                             qResponsibleCols in
         let d2 := memcpy_at d1 (i * responsibleCols + qResponsibleCols)
                             keyWeight (i * qkvStride + startKVHead h * headSize)
                             kvResponsibleCols in
         memcpy_at d2 (i * responsibleCols + qResponsibleCols + kvResponsibleCols)
                   valueWeight (i * qkvStride + startKVHead h * headSize)
                   kvResponsibleCols)
      (upto hiddenSize) fresh.

End SetWeightsConcat.

Module SetWeightsQuant.
Import CInt HeadRange SetWeights.
Open Scope Z_scope.

Section Concat.
Context {A : Type}.

(** [concatScale] and [concatZero] of [setWeights] (the [int8_t] case): the
    per-column scales, or zero points, of the query, key and value weights
    of the rank, one after the other.  [old] is the content [malloc]
    leaves; the same three copies run once on the scales and once on the
    zero points. *)
Definition setWeights_concatScale (ctx : DecoderContext) (h : Heads) (old : A)
    (queryScale keyScale valueScale : list A) : res (list A) :=
  let headSize := attHeadSize ctx in
  let qResponsibleCols := (endQHead h - startQHead h) * headSize in
  let kvResponsibleCols := (endKVHead h - startKVHead h) * headSize in
  let responsibleCols := qResponsibleCols + 2 * kvResponsibleCols in
  let s0 := Resize old responsibleCols in
  do s1 <- memcpy s0 0 queryScale (startQHead h * headSize) qResponsibleCols;
  do s2 <- memcpy s1 qResponsibleCols keyScale (startKVHead h * headSize) kvResponsibleCols;
  memcpy s2 (qResponsibleCols + kvResponsibleCols) valueScale (startKVHead h * headSize)
         kvResponsibleCols.

End Concat.
End SetWeightsQuant.

(** ** [slimAttention]: blocks of query rows and the score buffer *)

Module Slim.
Import CInt.
Open Scope Z_scope.

(** "How many blocks in M dimension":
    [int mBlockNum = (ctx->inputSeqLen + mBlockSize - 1) / mBlockSize;] *)
Definition mBlockNum (ctx : DecoderContext) (mBlockSize : Z) : res Z :=
  cdiv (inputSeqLen ctx + mBlockSize - 1) mBlockSize.

(** The query rows [[startSeq, endSeq)] of block [mb]:
    [startSeq = mb * mBlockSize] and
    [endSeq = startSeq + mBlockSize < ctx->inputSeqLen
              ? startSeq + mBlockSize : ctx->inputSeqLen]. *)
Definition mBlock (ctx : DecoderContext) (mBlockSize mb : Z) : Z * Z :=
  let startSeq := mb * mBlockSize in
  let endSeq :=
    if startSeq + mBlockSize <? inputSeqLen ctx then startSeq + mBlockSize
    else inputSeqLen ctx in
  (startSeq, endSeq).

(** [int scoreStride = pastSeqLen > 0 ? (pastSeqLen + ctx->inputSeqLen + 15) / 16 * 16
                                      : ctx->inputSeqLen;] *)
Definition scoreStride (ctx : DecoderContext) (pastSeqLen : Z) : Z :=
  if pastSeqLen >? 0 then Z.quot (pastSeqLen + inputSeqLen ctx + 15) 16 * 16
  else inputSeqLen ctx.

(** [auto bufSizeRequired = ctx->numThreads * mBlockSize * scoreStride;] *)
Definition bufSizeRequired (ctx : DecoderContext) (mBlockSize pastSeqLen : Z) : Z :=
  numThreads ctx * mBlockSize * scoreStride ctx pastSeqLen.


End Slim.

(** ** Copies into the KV cache *)

Module KVCopy.
Import HeadRange MM Loops.
Open Scope Z_scope.

(** Modelled from the spec: the KV cache [KVCacheTensor<KVCacheT>], whose
    implementation is not part of the sources at hand.
    [getSequence(seqIdx, b, h)] is a row of [headSize] elements, and the
    rows of different positions do not overlap: a cache is the content of
    its rows. *)
Abbreviation cache := (gmap (Z * Z * Z) (list R)).

(** A view [hpj::Matrix<ImT>]: [Data()] is the element [m_off] of a buffer,
    and [Row(r)] is [Data() + r * Stride()]. *)
Record MatView : Type := mkMatView {
  m_buf : Data;
  m_off : Z;
  m_stride : Z
}.

(** The [n] elements behind the pointer [buf + off]. *)
Definition elems (buf : Data) (off n : Z) : list R :=
  map (fun j => buf (Z.to_nat (off + j))) (upto n).

(** Modelled from the spec:
    [xft::copy(presentKV.getSequence(seqIdx, b, h), src, headSize)]. *)
Definition copy_row (c : cache) (seqIdx b h : Z) (src : list R) : cache :=
  <[(seqIdx, b, h) := src]> c.

(** "Copy one head from key or value to K cache or V cache":
    [copyKVCache(ctx, kv, presentKV, pastSeqLen, bdx, hdx)]. *)
Definition copyKVCache_head (ctx : DecoderContext) (kv : MatView) (presentKV : cache)
    (pastSeqLen bdx hdx : Z) : cache :=
  fold_left
    (fun c seq =>
       let src := m_off kv + (bdx * inputSeqLen ctx + seq) * m_stride kv
                  + hdx * attHeadSize ctx in
       copy_row c (pastSeqLen + seq) bdx hdx (elems (m_buf kv) src (attHeadSize ctx)))
    (upto (inputSeqLen ctx)) presentKV.

(** "Copy all keys and values to KV cache":
    [copyKVCache(ctx, key, value, presentKey, presentValue, pastSeqLen)];
    the state is the pair of the two caches. *)
Definition copyKVCache (ctx : DecoderContext) (h : Heads) (key value : MatView)
    (presentKey presentValue : cache) (pastSeqLen : Z) : cache * cache :=
  let batchSize := batchSize ctx in
  let headSize := attHeadSize ctx in
  fold_left
    (fun kv b =>
       fold_left
         (fun kv hh =>
            fold_left
              (fun kv seq =>
                 let srcK := m_off key + (b * inputSeqLen ctx + seq) * m_stride key
                             + hh * headSize in
                 let srcV := m_off value + (b * inputSeqLen ctx + seq) * m_stride value
                             + hh * headSize in
                 (copy_row (fst kv) (pastSeqLen + seq) b hh (elems (m_buf key) srcK headSize),
                  copy_row (snd kv) (pastSeqLen + seq) b hh
                           (elems (m_buf value) srcV headSize)))
              (upto (inputSeqLen ctx)) kv)
         (upto (endKVHead h - startKVHead h)) kv)
    (upto batchSize) (presentKey, presentValue).

(** The copies of [slimAttention] under [if (!kvCopied)]: in every task
    [(b, i, mb)] the keys of head [i] are copied before [gemm1] and its
    values before [gemm2]. *)
Definition slimAttention_copies (ctx : DecoderContext) (h : Heads) (key value : MatView)
    (presentKey presentValue : cache) (pastSeqLen mBlockNum : Z) : cache * cache :=
  let responsibleHeads := endQHead h - startQHead h in
  fold_left
    (fun kv b =>
       fold_left
         (fun kv i =>
            fold_left
              (fun kv mb =>
                 (copyKVCache_head ctx key (fst kv) pastSeqLen b i,
                  copyKVCache_head ctx value (snd kv) pastSeqLen b i))
              (upto mBlockNum) kv)
         (upto responsibleHeads) kv)
    (upto (batchSize ctx)) (presentKey, presentValue).

(** The copy loop at the end of [flashAttention].  The three counters are
    [uint64_t], so each offset added to [key.Data()] and [value.Data()] is
    computed modulo [2^64]; the position handed to [getSequence] is the
    value of [pastSeqLen + seq]. *)
Definition flashAttention_copies (ctx : DecoderContext) (h : Heads) (key value : MatView)
    (presentKey presentValue : cache) (pastSeqLen : Z) : cache * cache :=
  let batchSize := batchSize ctx in
  let respQHeads := endQHead h - startQHead h in
  let respKVHeads := endKVHead h - startKVHead h in
  let headSize := attHeadSize ctx in
  let qCols := respQHeads * headSize in
  let kvCols := respKVHeads * headSize in
  let qkvCols := qCols + kvCols * 2 in
  let srcLen := inputSeqLen ctx in
  let tgtLen := pastSeqLen + srcLen in
  fold_left
    (fun kv b =>
       fold_left
         (fun kv i =>
            fold_left
              (fun kv seq =>
                 let srcK := m_off key + u64 (b * tgtLen * qkvCols) + u64 (seq * qkvCols)
                             + u64 (i * headSize) in
                 let srcV := m_off value + u64 (b * tgtLen * qkvCols) + u64 (seq * qkvCols)
                             + u64 (i * headSize) in
                 (copy_row (fst kv) (pastSeqLen + seq) b i (elems (m_buf key) srcK headSize),
                  copy_row (snd kv) (pastSeqLen + seq) b i
                           (elems (m_buf value) srcV headSize)))
              (upto_u64 tgtLen) kv)
         (upto_u64 (endKVHead h - startKVHead h)) kv)
    (upto_u64 batchSize) (presentKey, presentValue).

End KVCopy.

(** ** [crossAttnShardHead]: the slots of the shards *)

Module ShardIndex.
Open Scope Z_scope.

(** [int totalTasks = batchSize * responsibleHeads * splits;] *)
Definition totalTasks (batchSize responsibleHeads splits : Z) : Z :=
  batchSize * responsibleHeads * splits.

(** [int headStartIdx = b * responsibleHeads * splits + i * splits;] *)
Definition headStartIdx (responsibleHeads splits b i : Z) : Z :=
  b * responsibleHeads * splits + i * splits.

(** [int threadIdx = b * responsibleHeads * splits + i * splits + s;]: the
    slot of [splitInfo] and the row of [shardedOut] of shard [s] of head
    [i] of sequence [b]. *)
Definition threadIdx (responsibleHeads splits b i s : Z) : Z :=
  b * responsibleHeads * splits + i * splits + s.

End ShardIndex.

(** ** [scaledDpAttention]: query blocks and per-thread arrays *)

Module Flash.
Import CInt.
Open Scope Z_scope.

(** [int minBlk = (int)std::pow(2, int(std::log2(srcLen / 2)));
     int srcBlk = std::min(256, minBlk);]
    The logarithm of [srcLen / 2 <= 0] is minus infinity or not a number,
    and its conversion to [int] is undefined.  For a positive [int] the
    [double] that [std::log2] returns is taken to be close enough to the
    logarithm for its integer part to be exact. *)
Definition srcBlk (srcLen : Z) : res Z :=
  let half := Z.quot srcLen 2 in
  if half <=? 0 then UB
  else
    let minBlk := 2 ^ Z.log2 half in
    Ret (Z.min 256 minBlk).

(** The rows [[m, m + qRealBlk)] of the query block that starts at [m]:
    [int qRealBlk = std::min(srcBlk, srcLen - m);] *)
Definition qBlock (srcLen srcBlk m : Z) : Z * Z :=
  let qRealBlk := Z.min srcBlk (srcLen - m) in
  (m, qRealBlk).

(** [int arrStride = (4 + tgtBlk + 2 * headSize) * srcBlk;]: the floats of
    [thrBuf] per thread. *)
Definition arrStride (srcBlk tgtBlk headSize : Z) : Z :=
  (4 + tgtBlk + 2 * headSize) * srcBlk.

(** The seven arrays that every thread has in [thrBuf]. *)
Inductive thrArr : Type :=
| PreSum | Sum | PreMax | Max | QkArr | ExpQkvArr | QArr.

(** Where the array of thread [i] starts in [thrBuf]: the loop
    "for (int i = 0; i < nth; ++i) { preSum[i] = thrBuf + srcBlk * i; .. }". *)
Definition arr_start (nth srcBlk tgtBlk headSize : Z) (a : thrArr) (i : Z) : Z :=
  match a with
  | PreSum => srcBlk * i
  | Sum => srcBlk * nth + srcBlk * i
  | PreMax => srcBlk * nth * 2 + srcBlk * i
  | Max => srcBlk * nth * 3 + srcBlk * i
  | QkArr => srcBlk * nth * 4 + srcBlk * tgtBlk * i
  | ExpQkvArr => srcBlk * nth * (4 + tgtBlk) + srcBlk * headSize * i
  | QArr => srcBlk * nth * (4 + tgtBlk + headSize) + srcBlk * headSize * i
  end.

(** The floats of one array: a value per row of a query block for the four
    statistics ([preSum[tid][ii]] with [ii < qRealBlk <= srcBlk]), a block
    of [srcBlk x tgtBlk] scores, and [srcBlk] rows of [headSize] elements
    for the last two ([q[ii * headSize + jj]]). *)
Definition arr_len (srcBlk tgtBlk headSize : Z) (a : thrArr) : Z :=
  match a with
  | PreSum | Sum | PreMax | Max => srcBlk
  | QkArr => srcBlk * tgtBlk
  | ExpQkvArr | QArr => srcBlk * headSize
  end.

End Flash.

(** ** [LlamaMLP::catGateUpWeights]: scales, zero points and sums *)

Module CatVectors.
Import SetWeights.
Open Scope Z_scope.

Section Vectors.
Context {A : Type}.

(** The second half of [LlamaMLP::catGateUpWeights]: the scales, zero
    points and sums of the gate and the up weight, concatenated.  [old] is
    the content [Resize] leaves.  The two copies of the zero points are made
    with [M] and [N] still holding the sizes of the scale vectors. *)
Definition catGateUp_vectors (old : A)
    (gateWeightScale gateWeightZero gateWeightSum : list A)
    (upWeightScale upWeightZero upWeightSum : list A) : res (list A * list A * list A) :=
  let size (v : list A) := Z.of_nat (length v) in
  let catWeightsScale := Resize old (size gateWeightScale + size upWeightScale) in
  let catWeightsZero := Resize old (size gateWeightZero + size upWeightZero) in
  let catWeightsSum := Resize old (size gateWeightSum + size upWeightSum) in
  let M := size gateWeightScale in
  let N := size upWeightScale in
  do s1 <- memcpy catWeightsScale 0 gateWeightScale 0 M;
  do s2 <- memcpy s1 M upWeightScale 0 N;
  do z1 <- memcpy catWeightsZero 0 gateWeightZero 0 M;
  do z2 <- memcpy z1 M upWeightZero 0 N;
  let M := size gateWeightSum in
  let N := size upWeightSum in
  do u1 <- memcpy catWeightsSum 0 gateWeightSum 0 M;
  do u2 <- memcpy u1 M upWeightSum 0 N;
  Ret (s2, z2, u2).

End Vectors.
End CatVectors.

(** * Properties *)

(** ** Integer arithmetic *)

Module CIntFacts.

Import CInt.
Open Scope Z_scope.

Lemma cdiv_pos a b : 0 < b -> cdiv a b = Ret (Z.quot a b).
Proof. intros Hb. unfold cdiv. destruct (Z.eqb_spec b 0); [lia | reflexivity]. Qed.

Lemma cmod_pos a b : 0 < b -> cmod a b = Ret (Z.rem a b).
Proof. intros Hb. unfold cmod. destruct (Z.eqb_spec b 0); [lia | reflexivity]. Qed.

Lemma cdiv_nonzero a b : b <> 0 -> cdiv a b = Ret (Z.quot a b).
Proof. intros Hb. unfold cdiv. destruct (Z.eqb_spec b 0); [contradiction | reflexivity]. Qed.

Lemma cmod_nonzero a b : b <> 0 -> cmod a b = Ret (Z.rem a b).
Proof. intros Hb. unfold cmod. destruct (Z.eqb_spec b 0); [contradiction | reflexivity]. Qed.

Lemma quot_div_nonneg a b : 0 <= a -> 0 < b -> Z.quot a b = a / b.
Proof. intros. apply Z.quot_div_nonneg; lia. Qed.

Lemma rem_mod_nonneg a b : 0 <= a -> 0 < b -> Z.rem a b = a mod b.
Proof. intros. apply Z.rem_mod_nonneg; lia. Qed.

End CIntFacts.

(** ** Head ranges *)

Module HeadRangeFacts.
Import CInt HeadRange CIntFacts.
Open Scope Z_scope.

(** Closed form of the range of a rank. *)
Definition rangeStart (N splits idx : Z) : Z :=
  idx * (N / splits) + Z.min idx (N mod splits).

Definition rangeLen (N splits idx : Z) : Z :=
  N / splits + (if idx <? N mod splits then 1 else 0).

Lemma getTaskRange_closed N splits idx :
  0 <= N -> 1 <= splits -> 0 <= idx < splits ->
  getTaskRange N splits idx
  = Ret (rangeStart N splits idx, rangeStart N splits idx + rangeLen N splits idx).
Proof.
  intros HN Hs Hi. unfold getTaskRange, rangeStart, rangeLen.
  rewrite !cmod_pos, !cdiv_pos by lia. cbn [rbind].
  rewrite rem_mod_nonneg, quot_div_nonneg by lia.
  pose proof (Z.mod_pos_bound N splits ltac:(lia)) as Hm.
  destruct (Z.eqb_spec (N mod splits) 0) as [E|E].
  - rewrite E. destruct (Z.ltb_spec idx 0); [lia|].
    f_equal. f_equal; lia.
  - destruct (Z.ltb_spec idx (N mod splits)).
    + f_equal. f_equal; lia.
    + f_equal. f_equal; lia.
Qed.

Lemma rangeStart_0 N splits : 1 <= splits -> rangeStart N splits 0 = 0.
Proof.
  intros Hs. unfold rangeStart.
  pose proof (Z.mod_pos_bound N splits ltac:(lia)). lia.
Qed.

Lemma rangeStart_succ N splits idx :
  1 <= splits -> 0 <= idx ->
  rangeStart N splits (idx + 1) = rangeStart N splits idx + rangeLen N splits idx.
Proof.
  intros Hs Hi. unfold rangeStart, rangeLen.
  pose proof (Z.mod_pos_bound N splits ltac:(lia)).
  destruct (Z.ltb_spec idx (N mod splits)); lia.
Qed.

Lemma rangeStart_last N splits :
  1 <= splits -> rangeStart N splits splits = N.
Proof.
  intros Hs. unfold rangeStart.
  pose proof (Z.mod_pos_bound N splits ltac:(lia)).
  pose proof (Z.div_mod N splits ltac:(lia)). lia.
Qed.

Lemma rangeStart_bounds N splits idx :
  0 <= N -> 1 <= splits -> 0 <= idx <= splits ->
  0 <= rangeStart N splits idx <= N.
Proof.
  intros HN Hs Hi. unfold rangeStart.
  pose proof (Z.mod_pos_bound N splits ltac:(lia)) as Hm.
  pose proof (Z.div_mod N splits ltac:(lia)) as Hd.
  assert (0 <= N / splits) by (apply Z.div_pos; lia).
  split; [nia|].
  destruct (Z.le_ge_cases idx (N mod splits)).
  - rewrite Z.min_l by lia. nia.
  - rewrite Z.min_r by lia. nia.
Qed.

Lemma rangeEnd_pos N splits idx :
  1 <= N -> 1 <= splits -> 0 <= idx ->
  1 <= rangeStart N splits idx + rangeLen N splits idx.
Proof.
  intros HN Hs Hi. rewrite <- rangeStart_succ by lia. unfold rangeStart.
  pose proof (Z.mod_pos_bound N splits ltac:(lia)) as Hm.
  pose proof (Z.div_mod N splits ltac:(lia)) as Hd.
  assert (0 <= N / splits) by (apply Z.div_pos; lia).
  destruct (Z.eq_dec (N / splits) 0) as [E|E].
  - rewrite E in *. lia.
  - nia.
Qed.

Lemma Attention_ctor_closed ctx :
  0 < kvHeadNum ctx -> 0 < attHeadNum ctx ->
  Z.rem (attHeadNum ctx) (kvHeadNum ctx) = 0 ->
  1 <= numSplit ctx -> 0 <= splitIdx ctx < numSplit ctx ->
  let sq := rangeStart (attHeadNum ctx) (numSplit ctx) (splitIdx ctx) in
  let eq := sq + rangeLen (attHeadNum ctx) (numSplit ctx) (splitIdx ctx) in
  let e := attHeadNum ctx / kvHeadNum ctx in
  Attention_ctor ctx = Ret (mkHeads sq eq (sq / e) ((eq - 1) / e + 1)).
Proof.
  intros Hkv Hatt Hrem Hs Hi sq eq e. unfold Attention_ctor.
  rewrite cmod_pos by lia. cbn [rbind]. rewrite Hrem. cbn [Z.eqb].
  rewrite getTaskRange_closed by lia. cbn [rbind fst snd].
  rewrite rem_mod_nonneg in Hrem by lia.
  assert (He : 1 <= e).
  { subst e. pose proof (Z.div_mod (attHeadNum ctx) (kvHeadNum ctx) ltac:(lia)).
    assert (0 <= attHeadNum ctx / kvHeadNum ctx) by (apply Z.div_pos; lia). nia. }
  rewrite (cdiv_pos (attHeadNum ctx)) by lia. cbn [rbind].
  rewrite quot_div_nonneg by lia. fold e.
  pose proof (rangeStart_bounds (attHeadNum ctx) (numSplit ctx) (splitIdx ctx)
                ltac:(lia) ltac:(lia) ltac:(lia)) as Hb.
  pose proof (rangeEnd_pos (attHeadNum ctx) (numSplit ctx) (splitIdx ctx)
                ltac:(lia) ltac:(lia) ltac:(lia)) as Hep.
  fold sq in Hb, Hep |- *. fold eq in Hep |- *.
  rewrite !cdiv_pos by lia. cbn [rbind].
  rewrite !quot_div_nonneg by lia. reflexivity.
Qed.

Lemma kv_formula (x att kv : Z) :
  0 <= x -> 0 < kv -> 0 < att -> att mod kv = 0 ->
  x / (att / kv) = Z.quot (x * kv) att.
Proof.
  intros Hx Hkv Hatt Hm.
  assert (He : att = (att / kv) * kv).
  { pose proof (Z.div_mod att kv ltac:(lia)). lia. }
  assert (0 < att / kv) by nia.
  rewrite quot_div_nonneg by nia.
  rewrite He at 2. rewrite Z.div_mul_cancel_r by lia. reflexivity.
Qed.

(** Claim C5.  For head counts [attHeadNum], [kvHeadNum >= 1] with
    [attHeadNum % kvHeadNum == 0], [numSplit >= 1] and a rank
    [0 <= splitIdx < numSplit], the constructor returns, and the ranges it
    stores satisfy: the Q range has [attHeadNum / numSplit] heads, one more
    on the ranks below [attHeadNum % numSplit]; the Q ranges of the ranks
    lie in [[0, attHeadNum)], start at 0, end at [attHeadNum], and each
    range starts where the range of the rank before ends; and the KV range
    is [startQHead * kvHeadNum / attHeadNum] to
    [(endQHead - 1) * kvHeadNum / attHeadNum + 1]. *)
Theorem C5_head_range_invariant (ctx : DecoderContext) :
  0 < kvHeadNum ctx -> 0 < attHeadNum ctx ->
  Z.rem (attHeadNum ctx) (kvHeadNum ctx) = 0 ->
  1 <= numSplit ctx -> 0 <= splitIdx ctx < numSplit ctx ->
  exists h : Heads,
    Attention_ctor ctx = Ret h
    /\ endQHead h - startQHead h
       = Z.quot (attHeadNum ctx) (numSplit ctx)
         + (if splitIdx ctx <? Z.rem (attHeadNum ctx) (numSplit ctx) then 1 else 0)
    /\ 0 <= startQHead h /\ endQHead h <= attHeadNum ctx
    /\ (splitIdx ctx = 0 -> startQHead h = 0)
    /\ (splitIdx ctx = numSplit ctx - 1 -> endQHead h = attHeadNum ctx)
    /\ (splitIdx ctx + 1 < numSplit ctx ->
        exists h' : Heads,
          Attention_ctor (with_splitIdx ctx (splitIdx ctx + 1)) = Ret h'
          /\ startQHead h' = endQHead h)
    /\ startKVHead h = Z.quot (startQHead h * kvHeadNum ctx) (attHeadNum ctx)
    /\ endKVHead h = Z.quot ((endQHead h - 1) * kvHeadNum ctx) (attHeadNum ctx) + 1.
Proof.
  intros Hkv Hatt Hrem Hs Hi.
  set (N := attHeadNum ctx) in *. set (n := numSplit ctx) in *. set (i := splitIdx ctx) in *.
  eexists. split; [apply Attention_ctor_closed; assumption|].
  cbn [startQHead endQHead startKVHead endKVHead]. fold N n i.
  pose proof (rangeStart_bounds N n i ltac:(lia) ltac:(lia) ltac:(lia)) as Hb.
  pose proof (rangeStart_bounds N n (i + 1) ltac:(lia) ltac:(lia) ltac:(lia)) as Hb'.
  pose proof (rangeStart_succ N n i ltac:(lia) ltac:(lia)) as Hsucc.
  pose proof (rangeEnd_pos N n i ltac:(lia) ltac:(lia) ltac:(lia)) as Hep.
  assert (Hm : N mod kvHeadNum ctx = 0) by (rewrite <- rem_mod_nonneg by lia; exact Hrem).
  repeat split.
  - unfold rangeLen. rewrite quot_div_nonneg, rem_mod_nonneg by lia. lia.
  - lia.
  - lia.
  - intros E. rewrite E. apply rangeStart_0. lia.
  - intros E. rewrite <- Hsucc. replace (i + 1) with n by lia. apply rangeStart_last. lia.
  - intros Hlt. eexists. split.
    + apply Attention_ctor_closed; cbn; fold N n i; try assumption; lia.
    + cbn. fold N n i. exact Hsucc.
  - apply kv_formula; lia.
  - f_equal. apply kv_formula; lia.
Qed.

Definition ctx_S6 : DecoderContext :=
  mkCtx 128 352 8 8 16 1 1 2048 2048 2 1 4 1 1 0.

Lemma C5_head_range_invariant_witness :
  exists h : Heads,
    Attention_ctor ctx_S6 = Ret h
    /\ startQHead h = 4 /\ endQHead h = 8 /\ startKVHead h = 4 /\ endKVHead h = 8.
Proof.
  destruct (C5_head_range_invariant ctx_S6) as (h & Hc & _);
    [reflexivity | reflexivity | reflexivity | cbn; lia | cbn; lia |].
  exists h. split; [exact Hc|].
  vm_compute in Hc. injection Hc as <-. repeat split.
Defined.

End HeadRangeFacts.

(** ** The bias of [setWeights] *)

Module SetWeightsFacts.
Import CInt HeadRange SetWeights.
Open Scope Z_scope.

Lemma memcpy_inv {A} (dst : list A) doff (src : list A) soff n b :
  SetWeights.memcpy dst doff src soff n = Ret b ->
  (0 <= doff /\ 0 <= soff /\ 0 <= n
   /\ doff + n <= Z.of_nat (length dst) /\ soff + n <= Z.of_nat (length src))%Z
  /\ b = firstn (Z.to_nat doff) dst
          ++ firstn (Z.to_nat n) (skipn (Z.to_nat soff) src)
          ++ skipn (Z.to_nat (doff + n)) dst.
Proof.
  unfold SetWeights.memcpy.
  match goal with |- (if ?c then _ else _) = _ -> _ => destruct c eqn:E end;
    [|discriminate].
  intros [= <-]. rewrite !andb_true_iff, !Z.leb_le in E. split; [lia | reflexivity].
Qed.

Lemma memcpy_ok {A} (dst : list A) doff (src : list A) soff n :
  (0 <= doff)%Z -> (0 <= soff)%Z -> (0 <= n)%Z ->
  (doff + n <= Z.of_nat (length dst))%Z -> (soff + n <= Z.of_nat (length src))%Z ->
  SetWeights.memcpy dst doff src soff n
  = Ret (firstn (Z.to_nat doff) dst
         ++ firstn (Z.to_nat n) (skipn (Z.to_nat soff) src)
         ++ skipn (Z.to_nat (doff + n)) dst).
Proof.
  intros. unfold SetWeights.memcpy.
  match goal with |- (if ?c then _ else _) = _ => destruct c eqn:E end; [reflexivity|].
  rewrite !andb_false_iff, !Z.leb_gt in E. lia.
Qed.


Section Slices.
Context {A : Type}.

Lemma slice_length (l : list A) (lo n : Z) :
  0 <= lo -> 0 <= n -> lo + n <= Z.of_nat (length l) ->
  length (firstn (Z.to_nat n) (skipn (Z.to_nat lo) l)) = Z.to_nat n.
Proof.
  intros. rewrite length_firstn, length_skipn. lia.
Qed.

(** Where the query offset of the code is the offset of the rank's first
    head, the merged bias is the specified one. *)
Lemma setWeights_qkvBias_aligned (ctx : DecoderContext) (h : Heads) (old : A)
    (qb kb vb : list A) :
  splitIdx ctx * ((endQHead h - startQHead h) * attHeadSize ctx)
    = startQHead h * attHeadSize ctx ->
  0 <= attHeadSize ctx ->
  0 <= startQHead h <= endQHead h -> 0 <= startKVHead h <= endKVHead h ->
  endQHead h * attHeadSize ctx <= Z.of_nat (length qb) ->
  endKVHead h * attHeadSize ctx <= Z.of_nat (length kb) ->
  endKVHead h * attHeadSize ctx <= Z.of_nat (length vb) ->
  setWeights_qkvBias ctx h old (Some qb) (Some kb) (Some vb)
  = Ret (spec_qkvBias ctx h qb kb vb).
Proof.
  intros Hoff Hhs Hq Hkv Hlq Hlk Hlv.
  unfold setWeights_qkvBias, spec_qkvBias, slice. rewrite Hoff.
  set (hs := attHeadSize ctx) in *.
  set (q := (endQHead h - startQHead h) * hs).
  set (kv := (endKVHead h - startKVHead h) * hs).
  assert (Hq0 : 0 <= q) by (subst q; nia).
  assert (Hkv0 : 0 <= kv) by (subst kv; nia).
  assert (Hsq : 0 <= startQHead h * hs) by nia.
  assert (Hsk : 0 <= startKVHead h * hs) by nia.
  replace (endQHead h * hs - startQHead h * hs) with q by (subst q; lia).
  replace (endKVHead h * hs - startKVHead h * hs) with kv by (subst kv; lia).
  set (Q := firstn (Z.to_nat q) (skipn (Z.to_nat (startQHead h * hs)) qb)).
  set (K := firstn (Z.to_nat kv) (skipn (Z.to_nat (startKVHead h * hs)) kb)).
  set (V := firstn (Z.to_nat kv) (skipn (Z.to_nat (startKVHead h * hs)) vb)).
  assert (HQ : length Q = Z.to_nat q) by (apply slice_length; subst q; lia).
  assert (HK : length K = Z.to_nat kv) by (apply slice_length; subst kv; lia).
  assert (HV : length V = Z.to_nat kv) by (apply slice_length; subst kv; lia).
  unfold Resize.
  rewrite memcpy_ok by (rewrite ?repeat_length; subst q; lia).
  cbn [rbind]. fold Q. change (Z.to_nat 0) with O. rewrite firstn_O, Z.add_0_l. cbn [app].
  set (b1 := Q ++ skipn (Z.to_nat q) (repeat old (Z.to_nat (q + 2 * kv)))).
  assert (Hb1 : length b1 = Z.to_nat (q + 2 * kv)).
  { subst b1. rewrite length_app, length_skipn, repeat_length. lia. }
  rewrite memcpy_ok by (rewrite ?Hb1; subst kv; lia).
  cbn [rbind]. fold K.
  assert (E1 : firstn (Z.to_nat q) b1 = Q).
  { subst b1. apply take_app_length'. lia. }
  rewrite E1.
  set (b2 := Q ++ K ++ skipn (Z.to_nat (q + kv)) b1).
  assert (Hb2 : length b2 = Z.to_nat (q + 2 * kv)).
  { subst b2. rewrite !length_app, length_skipn. lia. }
  rewrite memcpy_ok by (rewrite ?Hb2; subst kv; lia).
  fold V. f_equal.
  assert (E2 : firstn (Z.to_nat (q + kv)) b2 = Q ++ K).
  { subst b2. rewrite app_assoc. apply take_app_length'. rewrite length_app. lia. }
  rewrite E2.
  rewrite skipn_all2 by lia. rewrite app_nil_r, <- app_assoc. reflexivity.
Qed.

End Slices.

(** Rank 1 of two ranks over three heads of size two. *)
Definition ctx_uneven : DecoderContext :=
  mkCtx 6 16 3 3 2 1 1 2048 2048 2 1 4 1 1 0.

(** Claim C9, on a rank of an uneven split.  With three heads over two
    ranks, rank 1 owns head 2, and the merged bias should start with the
    query bias of head 2; the code copies from [splitIdx * qResponsibleCols]
    and takes the query bias of head 1.  The key, value and output parts
    are as specified. *)
Theorem C9_query_bias_offset_on_uneven_split :
  exists h : Heads,
    Attention_ctor ctx_uneven = Ret h
    /\ h = mkHeads 2 3 2 3
    /\ setWeights_bias 0 ctx_uneven h (-1)
         (Some [10; 11; 12; 13; 14; 15]) (Some [20; 21; 22; 23; 24; 25])
         (Some [30; 31; 32; 33; 34; 35]) (Some [1; 2; 3; 4; 5; 6])
       = Ret (mkBiases [12; 13; 24; 25; 34; 35] [0; 0; 0; 0; 0; 0])
    /\ spec_qkvBias ctx_uneven h [10; 11; 12; 13; 14; 15] [20; 21; 22; 23; 24; 25]
                    [30; 31; 32; 33; 34; 35]
       = [14; 15; 24; 25; 34; 35].
Proof.
  exists (mkHeads 2 3 2 3). repeat split.
Qed.

End SetWeightsFacts.

(** ** Single precision *)

Module F32Facts.
Import F32.
Open Scope Z_scope.

Lemma digits2_pos_bounds (p : positive) :
  2 ^ (Zpos (digits2_pos p) - 1) <= Zpos p < 2 ^ Zpos (digits2_pos p).
Proof.
  induction p as [p IH|p IH|]; cbn [digits2_pos].
  - rewrite Pos2Z.inj_succ. replace (Z.succ (Zpos (digits2_pos p)) - 1) with (Zpos (digits2_pos p)) by lia.
    rewrite Z.pow_succ_r by lia.
    assert (E : 2 ^ Zpos (digits2_pos p) = 2 * 2 ^ (Zpos (digits2_pos p) - 1)).
    { rewrite <- Z.pow_succ_r by lia. f_equal. lia. }
    lia.
  - rewrite Pos2Z.inj_succ. replace (Z.succ (Zpos (digits2_pos p)) - 1) with (Zpos (digits2_pos p)) by lia.
    rewrite Z.pow_succ_r by lia.
    assert (E : 2 ^ Zpos (digits2_pos p) = 2 * 2 ^ (Zpos (digits2_pos p) - 1)).
    { rewrite <- Z.pow_succ_r by lia. f_equal. lia. }
    lia.
  - cbn. lia.
Qed.

Lemma Zdigits2_nonneg (m : Z) : 0 <= Zdigits2 m.
Proof. destruct m; cbn; lia. Qed.

Lemma Zdigits2_le (m a : Z) : 0 <= m < 2 ^ a -> 0 <= a -> Zdigits2 m <= a.
Proof.
  intros [H0 H1] Ha. destruct m as [|p|p]; cbn; [lia| |lia].
  pose proof (digits2_pos_bounds p) as [Hl _].
  destruct (Z.le_gt_cases (Zpos (digits2_pos p)) a) as [|Hgt]; [assumption|].
  assert (2 ^ a <= 2 ^ (Zpos (digits2_pos p) - 1)) by (apply Z.pow_le_mono_r; lia).
  lia.
Qed.

Lemma Zdigits2_ge (p : positive) (a : Z) : 0 <= a -> 2 ^ a <= Zpos p -> a + 1 <= Zpos (digits2_pos p).
Proof.
  intros Ha H. pose proof (digits2_pos_bounds p) as [_ Hu].
  destruct (Z.le_gt_cases (a + 1) (Zpos (digits2_pos p))) as [|Hgt]; [assumption|].
  assert (2 ^ Zpos (digits2_pos p) <= 2 ^ a) by (apply Z.pow_le_mono_r; lia).
  lia.
Qed.

Lemma pow2_pos (k : Z) : 0 <= k -> 0 < 2 ^ k.
Proof. intros. apply Z.pow_pos_nonneg; lia. Qed.

Lemma pow2_split (a b : Z) : 0 <= a -> 0 <= b -> 2 ^ (a + b) = 2 ^ a * 2 ^ b.
Proof. intros. apply Z.pow_add_r; lia. Qed.

Lemma shr_1_m (mrs : shr_record) : 0 <= shr_m mrs -> shr_m (shr_1 mrs) = shr_m mrs / 2.
Proof.
  destruct mrs as [m r s]. cbn [shr_m]. intros H. unfold shr_1.
  destruct m as [|[p|p|]|p]; cbn [shr_m]; try lia; try reflexivity.
  - apply Z.div_unique with 1; lia.
  - apply Z.div_unique with 0; lia.
Qed.

Lemma iter_pos_shr_m (p : positive) : forall mrs : shr_record,
  0 <= shr_m mrs -> shr_m (SpecFloat.iter_pos shr_1 p mrs) = shr_m mrs / 2 ^ Zpos p.
Proof.
  induction p as [p IH|p IH|]; intros mrs H; cbn [SpecFloat.iter_pos].
  - assert (H1 : 0 <= shr_m (shr_1 mrs)) by (rewrite shr_1_m by lia; apply Z.div_pos; lia).
    assert (H2 : 0 <= shr_m (SpecFloat.iter_pos shr_1 p (shr_1 mrs)))
      by (rewrite IH by lia; apply Z.div_pos; [lia | apply pow2_pos; lia]).
    rewrite IH by lia. rewrite IH by lia. rewrite shr_1_m by lia.
    rewrite !Z.div_div by (try apply pow2_pos; lia).
    f_equal. rewrite Pos2Z.inj_xI.
    replace (2 * Zpos p + 1) with (1 + Zpos p + Zpos p) by lia.
    rewrite !pow2_split by lia. lia.
  - assert (H2 : 0 <= shr_m (SpecFloat.iter_pos shr_1 p mrs))
      by (rewrite IH by lia; apply Z.div_pos; [lia | apply pow2_pos; lia]).
    rewrite IH by lia. rewrite IH by lia.
    rewrite !Z.div_div by (try apply pow2_pos; lia).
    f_equal. rewrite <- Z.pow_add_r by lia. f_equal. lia.
  - rewrite shr_1_m by lia. reflexivity.
Qed.

Lemma shr_spec (mrs : shr_record) (e n : Z) :
  0 <= shr_m mrs ->
  shr_m (fst (shr mrs e n)) = shr_m mrs / 2 ^ Z.max 0 n
  /\ snd (shr mrs e n) = e + Z.max 0 n.
Proof.
  intros H. unfold shr. destruct n as [|p|p]; cbn [fst snd].
  - cbn. rewrite Z.div_1_r. lia.
  - rewrite iter_pos_shr_m by lia. rewrite Z.max_r by lia. split; reflexivity.
  - cbn. rewrite Z.div_1_r. lia.
Qed.

Lemma shr_record_of_loc_m (m : Z) (l : location) : shr_m (shr_record_of_loc m l) = m.
Proof. destruct l as [|[]]; reflexivity. Qed.

Lemma round_nearest_even_bounds (m : Z) (l : location) :
  m <= round_nearest_even m l <= m + 1.
Proof. unfold round_nearest_even. destruct l as [|[]]; try destruct (Z.even m); lia. Qed.

(** A float with value in [[0, 2^k]]. *)
Definition bounded_by (k : Z) (x : spec_float) : Prop :=
  match x with
  | S754_zero _ => True
  | S754_finite false m e => e <= k /\ Zpos m <= 2 ^ (k - e)
  | _ => False
  end.

Lemma div_pow2_lt (m a n : Z) : 0 <= n -> 0 <= a -> m + 1 <= 2 ^ (a + n) -> m / 2 ^ n + 1 <= 2 ^ a.
Proof.
  intros Hn Ha H. rewrite pow2_split in H by lia.
  assert (m / 2 ^ n < 2 ^ a); [|lia].
  apply Z.div_lt_upper_bound; [apply pow2_pos; lia | lia].
Qed.

Lemma div_pow2_le (m a n : Z) : 0 <= n -> 0 <= a -> m <= 2 ^ (a + n) -> m / 2 ^ n <= 2 ^ a.
Proof.
  intros Hn Ha H. rewrite pow2_split in H by lia.
  apply Z.div_le_upper_bound; [apply pow2_pos; lia | lia].
Qed.

Lemma fexp_le (E k : Z) : E <= k + 24 -> -149 <= k -> fexp prec emax E <= k.
Proof. unfold fexp, emin, prec, emax. lia. Qed.

Lemma binary_round_aux_bounded (k mx ex : Z) (lx : location) :
  0 <= mx -> ex <= k -> mx + 1 <= 2 ^ (k - ex) -> 0 <= k <= 104 ->
  bounded_by k (binary_round_aux prec emax false mx ex lx).
Proof.
  intros Hm He Hb Hk. unfold binary_round_aux, shr_fexp.
  set (n1 := fexp prec emax (Zdigits2 mx + ex) - ex).
  pose proof (shr_spec (shr_record_of_loc mx lx) ex n1) as [S1 S2];
    [rewrite shr_record_of_loc_m; lia|].
  destruct (shr (shr_record_of_loc mx lx) ex n1) as [mrs1 e1]. cbn [fst snd] in S1, S2.
  rewrite shr_record_of_loc_m in S1.
  (* the exponent after the first shift *)
  assert (Hd : Zdigits2 mx <= k - ex) by (apply Zdigits2_le; lia).
  assert (Hf : fexp prec emax (Zdigits2 mx + ex) <= k) by (apply fexp_le; lia).
  assert (He1 : e1 <= k) by lia.
  assert (Hm1 : 0 <= shr_m mrs1) by (rewrite S1; apply Z.div_pos; [lia | apply pow2_pos; lia]).
  assert (Hb1 : shr_m mrs1 + 1 <= 2 ^ (k - e1)).
  { rewrite S1. apply div_pow2_lt; try lia.
    replace (k - e1 + Z.max 0 n1) with (k - ex) by lia. exact Hb. }
  pose proof (round_nearest_even_bounds (shr_m mrs1) (loc_of_shr_record mrs1)) as Hr.
  set (m2 := round_nearest_even (shr_m mrs1) (loc_of_shr_record mrs1)) in *.
  set (n2 := fexp prec emax (Zdigits2 m2 + e1) - e1).
  pose proof (shr_spec (shr_record_of_loc m2 loc_Exact) e1 n2) as [T1 T2];
    [rewrite shr_record_of_loc_m; lia|].
  destruct (shr (shr_record_of_loc m2 loc_Exact) e1 n2) as [mrs2 e2]. cbn [fst snd] in T1, T2.
  rewrite shr_record_of_loc_m in T1.
  assert (Hd2 : Zdigits2 m2 <= k - e1 + 1).
  { apply Zdigits2_le; [|lia]. split; [lia|].
    rewrite Z.pow_add_r by lia. change (2 ^ 1) with 2.
    pose proof (pow2_pos (k - e1)). lia. }
  assert (Hf2 : fexp prec emax (Zdigits2 m2 + e1) <= k) by (apply fexp_le; lia).
  assert (He2 : e2 <= k) by lia.
  assert (Hb2 : shr_m mrs2 <= 2 ^ (k - e2)).
  { rewrite T1. apply div_pow2_le; try lia.
    replace (k - e2 + Z.max 0 n2) with (k - e1) by lia. lia. }
  assert (Hm2 : 0 <= shr_m mrs2) by (rewrite T1; apply Z.div_pos; [lia | apply pow2_pos; lia]).
  destruct (shr_m mrs2) as [|p|p]; cbn [bounded_by]; [exact I| |lia].
  destruct (Z.leb_spec e2 (emax - prec)); cbn [bounded_by]; [split; lia|].
  unfold emax, prec in *. lia.
Qed.

Lemma iter_xO (d m : positive) : Zpos (Pos.iter xO m d) = Zpos m * 2 ^ Zpos d.
Proof.
  induction d as [|d IH] using Pos.peano_ind.
  - cbn. lia.
  - rewrite Pos.iter_succ, Pos2Z.inj_xO, IH, Pos2Z.inj_succ, Z.pow_succ_r by lia. lia.
Qed.

Lemma digits2_iter_xO (d m : positive) :
  Zpos (digits2_pos (Pos.iter xO m d)) = Zpos (digits2_pos m) + Zpos d.
Proof.
  induction d as [|d IH] using Pos.peano_ind.
  - cbn. lia.
  - rewrite Pos.iter_succ. cbn [digits2_pos]. rewrite Pos2Z.inj_succ, IH. lia.
Qed.

Lemma shl_align_spec (mx : positive) (ex ex' : Z) :
  snd (shl_align mx ex ex') = Z.min ex ex'
  /\ Zpos (fst (shl_align mx ex ex')) = Zpos mx * 2 ^ (ex - Z.min ex ex')
  /\ Zpos (digits2_pos (fst (shl_align mx ex ex')))
     = Zpos (digits2_pos mx) + (ex - Z.min ex ex').
Proof.
  unfold shl_align. destruct (ex' - ex) as [|d|d] eqn:E; cbn [fst snd].
  - rewrite Z.min_l by lia. rewrite Z.sub_diag. cbn. lia.
  - rewrite Z.min_l by lia. rewrite Z.sub_diag. cbn. lia.
  - rewrite Z.min_r by lia. replace (ex - ex') with (Zpos d) by lia.
    rewrite iter_xO, digits2_iter_xO. lia.
Qed.

Lemma of_int_bounded (k z : Z) :
  0 <= z -> z + 1 <= 2 ^ k -> 0 <= k <= 104 -> bounded_by k (of_int z).
Proof.
  intros Hz Hb Hk. unfold of_int, binary_normalize.
  destruct z as [|m|m]; [exact I| |lia].
  unfold binary_round.
  pose proof (shl_align_spec m 0 (fexp prec emax (Zpos (digits2_pos m) + 0))) as (S1 & S2 & _).
  destruct (shl_align m 0 (fexp prec emax (Zpos (digits2_pos m) + 0))) as [mz ez].
  cbn [fst snd] in S1, S2. rewrite <- S1 in S2.
  assert (Hez : ez <= 0) by lia.
  apply binary_round_aux_bounded; try lia.
  rewrite S2. replace (k - ez) with (k + (0 - ez)) by lia.
  rewrite pow2_split by lia.
  pose proof (pow2_pos (0 - ez) ltac:(lia)). nia.
Qed.

Lemma one_eq : one = S754_finite false 8388608 (-23).
Proof. reflexivity. Qed.

Lemma mul_one_bounded (k : Z) (x : spec_float) :
  bounded_by k x -> 0 <= k -> k + 1 <= 104 -> bounded_by (k + 1) (mul one x).
Proof.
  intros Hx Hk Hk'. unfold mul. rewrite one_eq.
  destruct x as [s|s| |s m e]; cbn [bounded_by] in Hx; try contradiction.
  - exact I.
  - destruct s; [contradiction|]. destruct Hx as [He Hm].
    cbn [SFmul xorb].
    apply binary_round_aux_bounded; try lia.
    rewrite Pos2Z.inj_mul.
    replace (k + 1 - (-23 + e)) with ((k - e) + 24) by lia.
    rewrite pow2_split by lia. change (2 ^ 24) with 16777216.
    pose proof (pow2_pos (k - e) ltac:(lia)). lia.
Qed.

(** A positive float with value at least 1. *)
Definition at_least_one (x : spec_float) : Prop :=
  match x with
  | S754_finite false m e => 2 ^ Z.max (- e) 0 <= Zpos m * 2 ^ Z.max e 0
  | _ => False
  end.

Lemma binary_round_aux_canonical (mz : positive) (ez : Z) :
  Zpos (digits2_pos mz) = 24 -> -149 <= ez <= 104 ->
  binary_round_aux prec emax false (Zpos mz) ez loc_Exact = S754_finite false mz ez.
Proof.
  intros Hd He. unfold binary_round_aux, shr_fexp. cbn [Zdigits2]. rewrite Hd.
  assert (E : fexp prec emax (24 + ez) - ez = 0) by (unfold fexp, emin, prec, emax; lia).
  rewrite E. cbn [shr shr_record_of_loc shr_m loc_of_shr_record round_nearest_even Zdigits2].
  rewrite Hd, E. cbn [shr shr_record_of_loc shr_m].
  destruct (Z.leb_spec ez (emax - prec)); [reflexivity | unfold emax, prec in *; lia].
Qed.

Lemma of_int_small (z : Z) :
  1 <= z < 2 ^ 24 -> at_least_one (of_int z).
Proof.
  intros [Hl Hu]. unfold of_int, binary_normalize. destruct z as [|m|m]; try lia.
  unfold binary_round.
  pose proof (digits2_pos_bounds m) as [Dl Du].
  assert (Hd : 1 <= Zpos (digits2_pos m) <= 24).
  { split; [lia|]. apply (Zdigits2_le (Zpos m) 24); lia. }
  assert (Hf : fexp prec emax (Zpos (digits2_pos m) + 0) = Zpos (digits2_pos m) - 24)
    by (unfold fexp, emin, prec, emax; lia).
  rewrite Hf.
  pose proof (shl_align_spec m 0 (Zpos (digits2_pos m) - 24)) as (S1 & S2 & S3).
  destruct (shl_align m 0 (Zpos (digits2_pos m) - 24)) as [mz ez].
  cbn [fst snd] in S1, S2, S3.
  rewrite <- S1 in S2, S3. rewrite Z.min_r in S1 by lia.
  rewrite binary_round_aux_canonical by lia.
  cbn [at_least_one]. rewrite Z.max_l, Z.max_r by lia. rewrite S2.
  replace (0 - ez) with (- ez) by lia. change (2 ^ 0) with 1.
  pose proof (pow2_pos (- ez) ltac:(lia)). nia.
Qed.

Lemma at_least_one_digits (m : positive) (e : Z) :
  at_least_one (S754_finite false m e) -> 1 <= Zpos (digits2_pos m) + e.
Proof.
  cbn [at_least_one]. intros H.
  destruct (Z.le_gt_cases 0 e) as [He|He].
  - pose proof (Pos2Z.is_pos (digits2_pos m)). lia.
  - rewrite Z.max_l, Z.max_r in H by lia. change (2 ^ 0) with 1 in H.
    pose proof (Zdigits2_ge m (- e) ltac:(lia) ltac:(lia)). lia.
Qed.

Lemma div_bounded (k : Z) (x y : spec_float) :
  bounded_by k x -> at_least_one y -> 0 <= k -> k + 1 <= 104 ->
  bounded_by (k + 1) (div x y).
Proof.
  intros Hx Hy Hk Hk'. unfold div.
  destruct y as [| | |sy my ey]; cbn [at_least_one] in Hy; try contradiction.
  destruct sy; [contradiction|].
  pose proof (at_least_one_digits my ey Hy) as Hdy. cbn [at_least_one] in Hy.
  destruct x as [s|s| |s mx ex]; cbn [bounded_by] in Hx; try contradiction.
  - exact I.
  - destruct s; [contradiction|]. destruct Hx as [He Hm].
    cbn [SFdiv xorb]. unfold SFdiv_core_binary. cbn [Zdigits2].
    set (e' := Z.min (fexp prec emax (Zpos (digits2_pos mx) + ex - (Zpos (digits2_pos my) + ey)))
                     (ex - ey)).
    set (s := ex - ey - e').
    assert (Hs : 0 <= s) by (subst s e'; lia).
    assert (Hdx : Zpos (digits2_pos mx) <= k - ex + 1).
    { apply (Zdigits2_le (Zpos mx)); [|lia]. split; [lia|].
      rewrite Z.pow_add_r by lia. change (2 ^ 1) with 2.
      pose proof (pow2_pos (k - ex) ltac:(lia)). lia. }
    assert (He' : e' <= k).
    { subst e'. etransitivity; [apply Z.le_min_l|]. apply fexp_le; lia. }
    set (m' := match s with Z.pos _ => Z.shiftl (Zpos mx) s | 0 => Zpos mx | Z.neg _ => 0 end).
    assert (Hm' : m' = Zpos mx * 2 ^ s).
    { subst m'. destruct s as [|p|p] eqn:Es; [cbn; lia | apply Z.shiftl_mul_pow2; lia | lia]. }
    pose proof (Z.div_eucl_eq m' (Zpos my) ltac:(lia)) as Hdiv.
    pose proof (Z.mod_pos_bound m' (Zpos my) ltac:(lia)) as Hmod.
    unfold Z.modulo in Hmod.
    destruct (Z.div_eucl m' (Zpos my)) as [q r].
    assert (Hq0 : 0 <= q).
    { assert (0 <= m') by (rewrite Hm'; pose proof (pow2_pos s Hs); nia). nia. }
    (* q * 2^b <= 2^(k - e') * 2^b *)
    set (a := Z.max ey 0) in *. set (b := Z.max (- ey) 0) in *.
    assert (Hqb : q * 2 ^ b <= 2 ^ (k - e') * 2 ^ b).
    { rewrite <- pow2_split by lia.
      replace (k - e' + b) with ((k - ex) + (s + a)) by (subst s a b; lia).
      rewrite pow2_split by lia.
      pose proof (pow2_pos a ltac:(lia)). pose proof (pow2_pos b ltac:(lia)).
      pose proof (pow2_pos s Hs). pose proof (pow2_pos (k - ex) ltac:(lia)).
      rewrite (pow2_split s a) by lia.
      assert (q * Zpos my <= Zpos mx * 2 ^ s) by nia.
      assert (q * 2 ^ b <= q * (Zpos my * 2 ^ a)) by nia.
      assert (q * (Zpos my * 2 ^ a) <= Zpos mx * 2 ^ s * 2 ^ a) by nia.
      assert (Zpos mx * 2 ^ s * 2 ^ a <= 2 ^ (k - ex) * (2 ^ s * 2 ^ a)) by nia.
      lia. }
    assert (Hq : q <= 2 ^ (k - e')).
    { pose proof (pow2_pos b ltac:(lia)). nia. }
    apply binary_round_aux_bounded; try lia.
    replace (k + 1 - e') with ((k - e') + 1) by lia.
    rewrite pow2_split by lia. change (2 ^ 1) with 2.
    pose proof (pow2_pos (k - e') ltac:(lia)). lia.
Qed.

Lemma ceil_to_int_bounded (k : Z) (x : spec_float) :
  bounded_by k x -> 0 <= k <= 29 ->
  exists s : Z, to_int (ceil x) = Ret s /\ 0 <= s <= 2 ^ (k + 1).
Proof.
  intros Hx Hk.
  assert (Hp : 2 ^ (k + 1) <= 2 ^ 30) by (apply Z.pow_le_mono_r; lia).
  change (2 ^ 30) with 1073741824 in Hp.
  assert (Hc : bounded_by (k + 1) (ceil x)).
  { destruct x as [s|s| |s m e]; cbn [bounded_by] in Hx; try contradiction; [exact I|].
    destruct s; [contradiction|]. destruct Hx as [He Hm]. cbn [ceil].
    assert (Hcz : 0 <= ceil_Z false m e <= 2 ^ k).
    { unfold ceil_Z. destruct (Z.leb_spec 0 e).
      - assert (E : 2 ^ k = 2 ^ (k - e) * 2 ^ e)
          by (rewrite <- pow2_split by lia; f_equal; lia).
        rewrite E. pose proof (pow2_pos e ltac:(lia)). nia.
      - pose proof (pow2_pos (- e) ltac:(lia)) as Hpe.
        replace (k - e) with (k + - e) in Hm by lia. rewrite pow2_split in Hm by lia.
        assert (- 2 ^ k <= - Zpos m / 2 ^ (- e)).
        { apply Z.div_le_lower_bound; [lia | nia]. }
        assert (- Zpos m / 2 ^ (- e) <= 0).
        { apply Z.div_le_upper_bound; [lia | lia]. }
        lia. }
    apply of_int_bounded; try lia.
    rewrite pow2_split by lia. change (2 ^ 1) with 2.
    pose proof (pow2_pos k ltac:(lia)). lia. }
  destruct (ceil x) as [s|s| |s m e]; cbn [bounded_by] in Hc; try contradiction.
  - exists 0. split; [reflexivity|]. pose proof (pow2_pos (k + 1) ltac:(lia)). lia.
  - destruct s; [contradiction|]. destruct Hc as [He Hm]. cbn [to_int].
    set (t := if 0 <=? e then Zpos m * 2 ^ e else Z.quot (Zpos m) (2 ^ (- e))).
    assert (Ht : 0 <= t <= 2 ^ (k + 1)).
    { subst t. destruct (Z.leb_spec 0 e).
      - assert (E : 2 ^ (k + 1) = 2 ^ (k + 1 - e) * 2 ^ e)
          by (rewrite <- pow2_split by lia; f_equal; lia).
        rewrite E. pose proof (pow2_pos e ltac:(lia)). nia.
      - pose proof (pow2_pos (- e) ltac:(lia)) as Hpe.
        rewrite Z.quot_div_nonneg by lia.
        replace (k + 1 - e) with ((k + 1) + - e) in Hm by lia.
        rewrite pow2_split in Hm by lia.
        split; [apply Z.div_pos; lia|].
        apply Z.div_le_upper_bound; [lia | nia]. }
    exists t. split; [|exact Ht].
    destruct (Z.leb_spec (-2147483648) t); [|lia].
    destruct (Z.leb_spec t 2147483647); [reflexivity | lia].
Qed.

(** The quotient of the split count: it is computed, and it is an [int]. *)
Lemma f32_splits_defined (num den : Z) :
  0 <= num -> num + 1 <= 2 ^ 27 -> 1 <= den < 2 ^ 24 ->
  exists s : Z,
    to_int (ceil (div (mul one (of_int num)) (of_int den))) = Ret s
    /\ 0 <= s <= 2 ^ 30.
Proof.
  intros Hn Hb Hd.
  apply (ceil_to_int_bounded 29); [|lia].
  change 29 with (28 + 1). apply div_bounded; try lia; [|apply of_int_small; assumption].
  change 28 with (27 + 1). apply mul_one_bounded; try lia.
  apply of_int_bounded; lia.
Qed.

End F32Facts.

(** ** The M-block size *)

Module MBlockFacts.
Import CInt CIntFacts MBlock F32Facts.
Open Scope Z_scope.

Lemma cint_ok (z : Z) : -2147483648 <= z <= 2147483647 -> cint z = Ret z.
Proof.
  intros H. unfold cint.
  destruct (Z.leb_spec (-2147483648) z); [|lia].
  destruct (Z.leb_spec z 2147483647); [reflexivity|lia].
Qed.

Lemma ceil_div_pos (a b : Z) : 0 < b -> ceil_div a b = (a + b - 1) / b.
Proof.
  intros Hb. unfold ceil_div.
  assert (E : a + b - 1 = (- (- a / b)) * b + (b - 1 - (- a) mod b)).
  { pose proof (Z.div_mod (- a) b ltac:(lia)). lia. }
  pose proof (Z.mod_pos_bound (- a) b Hb).
  apply Z.div_unique with (b - 1 - (- a) mod b); lia.
Qed.

Lemma ceil_div_bounds (S splits : Z) :
  1 <= S -> 1 <= splits -> 1 <= ceil_div S splits <= S.
Proof.
  intros HS Hs. rewrite ceil_div_pos by lia. split.
  - apply Z.div_le_lower_bound; lia.
  - apply Z.div_le_upper_bound; [lia | nia].
Qed.

(** The split count of [getMBlockSize] before the block size is derived. *)
Definition code_splits (sizeofImT S headSize : Z) : res Z :=
  let capacity := Z.quot (2 * 1024 * 1024) sizeofImT in
  if capacity <=? 2 * (S * headSize) then Ret 1
  else
    do s0 <- f32_ceil_quot (2 * (S * headSize) + S * S) (capacity - 2 * (S * headSize));
    Ret (Z.max 1 s0).

Lemma getMBlockSize_total (sizeofImT S headSize : Z) :
  1 <= sizeofImT -> 1 <= S -> 0 <= headSize ->
  2 * S * headSize + S * S + 1 <= 2 ^ 27 ->
  exists splits : Z,
    (S = 1 \/ code_splits sizeofImT S headSize = Ret splits)
    /\ 1 <= splits <= 2 ^ 30
    /\ getMBlockSize sizeofImT S headSize 6 = Ret (ceil_div S splits)
    /\ 1 <= ceil_div S splits <= S.
Proof.
  intros Hsz HS Hh Hb. change (2 ^ 27) with 134217728 in Hb.
  unfold getMBlockSize.
  destruct (Z.eqb_spec S 1) as [->|HS1].
  { exists 1. repeat split; try lia; try reflexivity. }
  assert (Hqkv : 0 <= S * headSize) by nia.
  assert (HSS : 0 <= S * S) by nia.
  assert (HSb : S < 2 ^ 14).
  { change (2 ^ 14) with 16384. nia. }
  change (2 ^ 14) with 16384 in HSb.
  rewrite (cint_ok (S * headSize)) by nia. cbn [rbind].
  rewrite (cint_ok (S * S)) by nia. cbn [rbind].
  rewrite cdiv_pos by lia. cbn [rbind].
  rewrite (cint_ok (2 * (S * headSize))) by nia. cbn [rbind].
  set (capacity := Z.quot (2 * 1024 * 1024) sizeofImT).
  assert (Hcap : 0 <= capacity <= 2097152).
  { subst capacity. rewrite quot_div_nonneg by lia. split.
    - apply Z.div_pos; lia.
    - apply Z.div_le_upper_bound; [lia | nia]. }
  assert (Hfin : forall splits0 : Z, 0 <= splits0 <= 2 ^ 30 ->
    let splits := if splits0 <=? 0 then 1 else splits0 in
    (do t <- cint (S + splits);
     do mBlockSize <- cdiv (t - 1) splits;
     if mBlockSize <=? 0 then Ret (if S >? 6 then 6 else S)
     else if mBlockSize >? S then Ret S else Ret mBlockSize)
    = Ret (ceil_div S (Z.max 1 splits0))).
  { intros splits0 H0 splits. change (2 ^ 30) with 1073741824 in H0.
    assert (Hsp : splits = Z.max 1 splits0)
      by (subst splits; destruct (Z.leb_spec splits0 0); lia).
    rewrite Hsp. rewrite cint_ok by lia. cbn [rbind].
    rewrite cdiv_pos by lia. cbn [rbind].
    pose proof (ceil_div_bounds S (Z.max 1 splits0) ltac:(lia) ltac:(lia)) as Hcd.
    rewrite ceil_div_pos in Hcd |- * by lia.
    rewrite quot_div_nonneg by lia.
    destruct (Z.leb_spec ((S + Z.max 1 splits0 - 1) / Z.max 1 splits0) 0); [lia|].
    destruct (Z.gtb_spec ((S + Z.max 1 splits0 - 1) / Z.max 1 splits0) S); [lia|].
    reflexivity. }
  unfold code_splits. fold capacity.
  destruct (Z.leb_spec capacity (2 * (S * headSize))) as [Hle|Hgt].
  - exists 1. cbn [rbind]. split; [right; reflexivity|]. split; [lia|].
    split; [|apply ceil_div_bounds; lia].
    specialize (Hfin 1 ltac:(lia)). cbv zeta in Hfin. exact Hfin.
  - rewrite (cint_ok (2 * (S * headSize) + S * S)) by nia. cbn [rbind].
    rewrite (cint_ok (capacity - 2 * (S * headSize))) by lia. cbn [rbind].
    destruct (f32_splits_defined (2 * (S * headSize) + S * S) (capacity - 2 * (S * headSize)))
      as (s0 & Hs0 & Hr); [lia | change (2 ^ 27) with 134217728; lia
                          | change (2 ^ 24) with 16777216; lia |].
    unfold f32_ceil_quot. rewrite Hs0. cbn [rbind].
    exists (Z.max 1 s0). split; [right; reflexivity|].
    change (2 ^ 30) with 1073741824 in *.
    split; [lia|]. split; [|apply ceil_div_bounds; lia].
    specialize (Hfin s0 ltac:(change (2 ^ 30) with 1073741824; lia)). exact Hfin.
Qed.

(** A prefill of 1023 tokens with heads of size 256 and [float]
    intermediates, on the first layer. *)
Definition ctx_prefill_1023 : DecoderContext :=
  mkCtx 2048 5632 8 8 256 1 1023 2048 2048 1 0 48 1 24 0.

(** Claim C6 fails on the code: the block size of [ctx_prefill_1023] is 1,
    where the formula of the specification, with its clamp to
    [[min(6, S), S]], gives 6. *)
Lemma C6_mBlockSize_counterexample :
  select_mBlockSize 4 0 ctx_prefill_1023 0 = Ret 1
  /\ spec_mBlockSize 4 (inputSeqLen ctx_prefill_1023) (attHeadSize ctx_prefill_1023) = 6
  /\ select_mBlockSize 4 0 ctx_prefill_1023 0
     <> Ret (spec_mBlockSize 4 (inputSeqLen ctx_prefill_1023) (attHeadSize ctx_prefill_1023)).
Proof.
  assert (E1 : select_mBlockSize 4 0 ctx_prefill_1023 0 = Ret 1) by (vm_compute; reflexivity).
  assert (E2 : spec_mBlockSize 4 (inputSeqLen ctx_prefill_1023) (attHeadSize ctx_prefill_1023)
               = 6) by (vm_compute; reflexivity).
  split; [exact E1|]. split; [exact E2|]. rewrite E1, E2. discriminate.
Qed.

(** Claim C6, amended.  On a layer that begins a pipeline stage
    ([layerId % (layers / ppSize) == 0]), a prefill call with
    [S = inputSeqLen >= 1] and [2 * S * headSize + S^2 < 2^27] sets the
    block size to [ceil(S / splits)], where [splits] is 1 if
    [capacity <= 2 * S * headSize] and otherwise the single-precision
    ceiling of [(2 * S * headSize + S^2) / (capacity - 2 * S * headSize)],
    raised to 1 if it is not positive; the block size lies in [[1, S]] and
    is not raised to [min(6, S)].  A decode call on such a layer sets it to
    [S].  On every other layer [ctx->reserved1] is left as it is. *)
Theorem C6_mBlockSize_amended (sizeofImT layerId : Z) (ctx : DecoderContext)
    (pastSeqLen : Z) :
  let S := inputSeqLen ctx in
  let headSize := attHeadSize ctx in
  1 <= sizeofImT -> 1 <= S -> 0 <= headSize ->
  2 * S * headSize + S * S + 1 <= 2 ^ 27 ->
  0 < ppSize ctx <= layers ctx ->
  if Z.rem layerId (Z.quot (layers ctx) (ppSize ctx)) =? 0 then
    if pastSeqLen =? 0 then
      exists splits : Z,
        (S = 1 \/ code_splits sizeofImT S headSize = Ret splits)
        /\ 1 <= splits
        /\ select_mBlockSize sizeofImT layerId ctx pastSeqLen = Ret (ceil_div S splits)
        /\ 1 <= ceil_div S splits <= S
    else select_mBlockSize sizeofImT layerId ctx pastSeqLen = Ret S
  else select_mBlockSize sizeofImT layerId ctx pastSeqLen = Ret (reserved1 ctx).
Proof.
  intros S headSize Hsz HS Hh Hb Hpp. unfold select_mBlockSize.
  assert (Hq : 1 <= Z.quot (layers ctx) (ppSize ctx)).
  { rewrite quot_div_nonneg by lia. apply Z.div_le_lower_bound; lia. }
  rewrite cdiv_pos by lia. cbn [rbind]. rewrite cmod_pos by lia. cbn [rbind].
  destruct (Z.rem layerId (Z.quot (layers ctx) (ppSize ctx)) =? 0); [|reflexivity].
  destruct (pastSeqLen =? 0); [|reflexivity].
  destruct (getMBlockSize_total sizeofImT S headSize Hsz HS Hh Hb)
    as (splits & H1 & H2 & H3 & H4).
  exists splits. repeat split; try assumption; lia.
Qed.

(** Scenario S2 of the specification: a prefill of 64 tokens with heads of
    size 16. *)
Definition ctx_S2 : DecoderContext :=
  mkCtx 128 352 8 8 16 2 64 2048 2048 1 0 48 1 4 0.

Lemma C6_mBlockSize_amended_witness :
  exists splits : Z,
    1 <= splits /\ select_mBlockSize 4 0 ctx_S2 0 = Ret (ceil_div 64 splits).
Proof.
  pose proof (C6_mBlockSize_amended 4 0 ctx_S2 0) as H. cbv zeta in H.
  specialize (H ltac:(lia) ltac:(cbn; lia) ltac:(cbn; lia) ltac:(vm_compute; discriminate)
                ltac:(cbn; lia)).
  change (Z.rem 0 (Z.quot (layers ctx_S2) (ppSize ctx_S2)) =? 0) with true in H.
  change (0 =? 0) with true in H. cbv iota in H.
  destruct H as (splits & _ & Hs & Hr & _).
  exists splits. split; [exact Hs | exact Hr].
Defined.

End MBlockFacts.

(** ** Head sharding *)

Module FusedFacts.
Import CInt CIntFacts HeadRange MBlock Fused.
Open Scope Z_scope.

(** Where the last shard starts inside the columns, every shard has the
    columns the specification gives it. *)
Lemma shard_cols_spec (sh : Sharding) (s : Z) :
  0 <= sh_nb sh -> 0 <= s < sh_splits sh ->
  (sh_splits sh - 1) * sh_nb sh <= sh_N sh <= sh_splits sh * sh_nb sh ->
  let '(nOff, n) := shard_cols sh s in
  (nOff, nOff + n) = spec_shard_range sh s /\ 0 <= n /\ 0 <= nOff /\ nOff + n <= sh_N sh.
Proof.
  intros Hnb Hs HN. unfold shard_cols, spec_shard_range.
  destruct (Z.ltb_spec s (sh_splits sh - 1)).
  - assert ((s + 1) * sh_nb sh <= (sh_splits sh - 1) * sh_nb sh) by nia.
    rewrite Z.min_l by lia. repeat split; try nia. f_equal. lia.
  - assert (s = sh_splits sh - 1) by lia. subst s.
    rewrite Z.min_r by lia. repeat split; try nia. f_equal. lia.
Qed.

(** Scenario S4 of the specification (one sequence, eight heads, 64
    threads) at a decode step with eight cached tokens. *)
Definition ctx_S4 : DecoderContext :=
  mkCtx 1024 2816 8 8 128 1 1 2048 2048 1 0 64 1 32 1.

(** Claim C7, at a decode step of scenario S4 with [pastSeqLen = 8].  The
    head has [T = 9] columns, [splits = 8] and [nb = 2].  Shard 4 is given
    the two columns [[8, 10)] instead of [[8, 9)], shards 5 and 6 lie
    entirely behind column 9, and the last shard gets the length [-5]: a
    shard before the last one always takes [nb] columns. *)
Theorem C7_shard_columns_leave_the_range :
  exists (h : Heads) (sh : Sharding),
    Attention_ctor ctx_S4 = Ret h
    /\ shardHead ctx_S4 h = true
    /\ crossAttnShardHead_prologue ctx_S4 h 8 = Ret sh
    /\ sh = mkSharding 9 8 2
    /\ shard_cols sh 4 = (8, 2) /\ spec_shard_range sh 4 = (8, 9)
    /\ shard_cols sh 5 = (10, 2)
    /\ shard_cols sh 7 = (14, -5).
Proof.
  exists (mkHeads 0 8 0 8), (mkSharding 9 8 2). repeat split.
Qed.

(** Claim C8.  [fusedAttention] calls [crossAttnShardHead] exactly when
    [inputSeqLen == 1] and [numThreads >= 2 * batchSize * respQHeads], and
    when that holds it does reach the call.  The prologue of
    [crossAttnShardHead] then never stops at [REQUIRES(splits > 1)]: with at
    least one sequence and one head of the rank,
    [splits = numThreads / (batchSize * respQHeads)] is at least 2, and the
    prologue returns the sharding or stops at the head-size requirement
    (with no sequence or no head the division itself is undefined). *)
Theorem C8_shard_dispatch_implies_two_splits
    (sizeofImT layerId : Z) (ctx : DecoderContext) (h : Heads) (pastSeqLen : Z) :
  0 < kvHeadNum ctx -> 0 <= batchSize ctx -> 0 <= endQHead h - startQHead h ->
  let respQHeads := endQHead h - startQHead h in
  let cond := inputSeqLen ctx = 1 /\ numThreads ctx >= 2 * batchSize ctx * respQHeads in
  (forall plan, fusedAttention sizeofImT layerId ctx h pastSeqLen = Ret plan ->
     (plan_kernel plan = CrossAttnShardHead <-> cond))
  /\ (cond -> ppSize ctx <> 0 -> Z.quot (layers ctx) (ppSize ctx) <> 0 ->
      exists plan,
        fusedAttention sizeofImT layerId ctx h pastSeqLen = Ret plan
        /\ plan_kernel plan = CrossAttnShardHead /\ plan_kvCopied plan = true)
  /\ (cond ->
      crossAttnShardHead_prologue ctx h pastSeqLen <> Fatal splits_msg
      /\ (0 < batchSize ctx * respQHeads ->
          let splits := Z.quot (numThreads ctx) (batchSize ctx * respQHeads) in
          2 <= splits
          /\ crossAttnShardHead_prologue ctx h pastSeqLen
             = if Z.rem (attHeadSize ctx) 16 =? 0
               then Ret (mkSharding (pastSeqLen + inputSeqLen ctx) splits
                           (Z.quot (pastSeqLen + inputSeqLen ctx + splits - 1) splits))
               else Fatal headSize_msg)).
Proof.
  intros Hkv Hb Hr respQHeads cond.
  assert (Hshard : shardHead ctx h = true <-> cond).
  { unfold shardHead, cond. fold respQHeads.
    rewrite andb_true_iff, Z.eqb_eq, Z.geb_le. split; intros [? ?]; split; lia. }
  assert (Hpro : cond -> 0 < batchSize ctx * respQHeads ->
    let splits := Z.quot (numThreads ctx) (batchSize ctx * respQHeads) in
    2 <= splits
    /\ crossAttnShardHead_prologue ctx h pastSeqLen
       = if Z.rem (attHeadSize ctx) 16 =? 0
         then Ret (mkSharding (pastSeqLen + inputSeqLen ctx) splits
                     (Z.quot (pastSeqLen + inputSeqLen ctx + splits - 1) splits))
         else Fatal headSize_msg).
  { intros [HS HT] HP. cbv zeta.
    set (P := batchSize ctx * respQHeads) in *.
    set (splits := Z.quot (numThreads ctx) P).
    assert (Hsp : 2 <= splits).
    { subst splits. rewrite quot_div_nonneg by lia.
      apply Z.div_le_lower_bound; lia. }
    split; [exact Hsp|].
    unfold crossAttnShardHead_prologue. fold respQHeads. fold P.
    rewrite (cdiv_pos (attHeadNum ctx)) by lia. cbn [rbind].
    rewrite (cdiv_pos (numThreads ctx)) by lia. cbn [rbind]. fold splits.
    rewrite cdiv_pos by lia. cbn [rbind].
    destruct (Z.gtb_spec splits 1); [|lia]. cbn [negb].
    rewrite cmod_pos by lia. cbn [rbind].
    destruct (Z.rem (attHeadSize ctx) 16 =? 0); reflexivity. }
  split; [|split].
  - intros plan Hp. unfold fusedAttention in Hp.
    destruct (cdiv (attHeadNum ctx) (kvHeadNum ctx)); cbn [rbind] in Hp; try discriminate.
    destruct (select_mBlockSize sizeofImT layerId ctx pastSeqLen);
      cbn [rbind] in Hp; try discriminate.
    injection Hp as <-. cbn [plan_kernel]. rewrite <- Hshard.
    destruct (shardHead ctx h); cbn [negb]; split; congruence.
  - intros Hc Hpp Hq. pose proof (proj2 Hshard Hc) as Hsh. destruct Hc as [HS HT].
    unfold fusedAttention, select_mBlockSize.
    rewrite (cdiv_pos (attHeadNum ctx)) by lia. cbn [rbind].
    rewrite cdiv_nonzero by assumption. cbn [rbind].
    rewrite cmod_nonzero by assumption. cbn [rbind].
    assert (Hm : exists mb,
      (if Z.rem layerId (Z.quot (layers ctx) (ppSize ctx)) =? 0
       then if pastSeqLen =? 0
            then getMBlockSize sizeofImT (inputSeqLen ctx) (attHeadSize ctx) 6
            else Ret (inputSeqLen ctx)
       else Ret (reserved1 ctx)) = Ret mb).
    { destruct (Z.rem layerId (Z.quot (layers ctx) (ppSize ctx)) =? 0); [|eauto].
      destruct (pastSeqLen =? 0); [|eauto].
      unfold getMBlockSize. rewrite HS. cbn. eauto. }
    destruct Hm as [mb ->]. cbn [rbind]. rewrite Hsh.
    eexists. split; [reflexivity|]. cbn [plan_kernel plan_kvCopied negb].
    split; [reflexivity | apply orb_true_r].
  - intros Hc. split; [|intros HP; apply Hpro; assumption].
    destruct (Z.eq_dec (batchSize ctx * respQHeads) 0) as [E0|Hne].
    + unfold crossAttnShardHead_prologue. fold respQHeads.
      rewrite (cdiv_pos (attHeadNum ctx)) by lia. cbn [rbind].
      unfold cdiv at 1. rewrite E0. cbn. discriminate.
    + destruct (Hpro Hc ltac:(nia)) as [_ ->].
      destruct (Z.rem (attHeadSize ctx) 16 =? 0); discriminate.
Qed.

Lemma C8_shard_dispatch_implies_two_splits_witness :
  crossAttnShardHead_prologue ctx_S4 (mkHeads 0 8 0 8) 100
  = Ret (mkSharding 101 8 13).
Proof.
  destruct (C8_shard_dispatch_implies_two_splits 4 0 ctx_S4 (mkHeads 0 8 0 8) 100)
    as (_ & _ & H); [reflexivity | cbn; lia | cbn; lia |].
  destruct H as [_ H]; [split; [reflexivity | cbn; lia]|].
  destruct H as [_ H]; [reflexivity|].
  exact H.
Defined.

End FusedFacts.

(** ** The online-softmax merge *)

Module ShardHeadFacts.
Import ShardHead.
Open Scope R_scope.

Lemma fold_left_Rplus_acc (l : list R) (a : R) :
  fold_left Rplus l a = a + Rsum l.
Proof.
  unfold Rsum. revert a. induction l as [|x l IH]; intros a; cbn.
  - lra.
  - rewrite (IH (a + x)), (IH (0 + x)). lra.
Qed.

Lemma Rsum_nil : Rsum [] = 0.
Proof. reflexivity. Qed.

Lemma Rsum_cons x l : Rsum (x :: l) = x + Rsum l.
Proof. unfold Rsum at 1. cbn. rewrite fold_left_Rplus_acc. lra. Qed.

Lemma Rsum_app l1 l2 : Rsum (l1 ++ l2) = Rsum l1 + Rsum l2.
Proof.
  induction l1 as [|x l1 IH]; cbn [app].
  - rewrite Rsum_nil. lra.
  - rewrite !Rsum_cons, IH. lra.
Qed.

Lemma Rsum_map_scale {A} (f : A -> R) (k : R) (l : list A) :
  Rsum (map (fun x => k * f x) l) = k * Rsum (map f l).
Proof.
  induction l as [|x l IH]; cbn [map].
  - rewrite Rsum_nil. lra.
  - rewrite !Rsum_cons, IH. lra.
Qed.

(** Total weight and weighted V of a block of columns, without any shift. *)
Definition W (cols : list Col) : R := Rsum (map (fun c => exp (col_logit c)) cols).
Definition WV (cols : list Col) (off : nat) : R :=
  Rsum (map (fun c => exp (col_logit c) * col_v c off) cols).

Lemma W_app a b : W (a ++ b) = W a + W b.
Proof. unfold W. rewrite map_app. apply Rsum_app. Qed.

Lemma WV_app a b off : WV (a ++ b) off = WV a off + WV b off.
Proof. unfold WV. rewrite map_app. apply Rsum_app. Qed.

Lemma W_nonneg cols : 0 <= W cols.
Proof.
  unfold W. induction cols as [|c cols IH]; cbn [map].
  - rewrite Rsum_nil. lra.
  - rewrite Rsum_cons. pose proof (exp_pos (col_logit c)). lra.
Qed.

Lemma W_zero_nil cols : W cols = 0 -> cols = [].
Proof.
  destruct cols as [|c cols]; [reflexivity|].
  unfold W. cbn [map]. rewrite Rsum_cons. intros H.
  pose proof (exp_pos (col_logit c)). pose proof (W_nonneg cols) as H1. unfold W in H1. lra.
Qed.

Section Facts.
Variable lowest : R.
Variable headSize : nat.

Lemma stats_sum (cols : list Col) m :
  Rsum (map (fun x => exp (x - m)) (map col_logit cols)) = exp (- m) * W cols.
Proof.
  unfold W. rewrite map_map, <- Rsum_map_scale. f_equal.
  apply map_ext. intros c. unfold Rminus. rewrite exp_plus. lra.
Qed.

Lemma small_gemm_probs (cols : list Col) (m s : R) :
  small_gemm headSize (map (fun e => e / s) (map (fun x => exp (x - m)) (map col_logit cols)))
             (map col_v cols)
  = map (fun off => exp (- m) / s * WV cols off) (seq 0 headSize).
Proof.
  unfold small_gemm. apply map_ext. intros off. unfold WV.
  rewrite <- Rsum_map_scale. f_equal.
  induction cols as [|c cols IH]; [reflexivity|].
  cbn. rewrite IH. f_equal. unfold Rminus. rewrite exp_plus. unfold Rdiv. lra.
Qed.

Lemma shard_task_eq (cols : list Col) :
  let m := fold_left Rmax (map col_logit cols) lowest in
  shard_task lowest headSize cols
  = (mkInfo m (exp (- m) * W cols) 1,
     map (fun off => exp (- m) / (exp (- m) * W cols) * WV cols off) (seq 0 headSize)).
Proof.
  intros m. unfold shard_task, softmaxWithStats. fold m.
  rewrite small_gemm_probs, stats_sum. reflexivity.
Qed.

Lemma unsharded_row_eq (cols : list Col) :
  let m := fold_left Rmax (map col_logit cols) lowest in
  unsharded_row lowest headSize cols
  = map (fun off => exp (- m) / (exp (- m) * W cols) * WV cols off) (seq 0 headSize).
Proof.
  intros m. unfold unsharded_row, softmaxWithStats. fold m. cbn [snd].
  rewrite small_gemm_probs, stats_sum. reflexivity.
Qed.

Lemma zip_with_map_same {A B C D} (f : B -> C -> D) (g : A -> B) (k : A -> C) (l : list A) :
  zip_with f (map g l) (map k l) = map (fun x => f (g x) (k x)) l.
Proof. induction l as [|x l IH]; cbn; [reflexivity | now rewrite IH]. Qed.

Lemma combine_map_same {A B C} (g : A -> B) (k : A -> C) (l : list A) :
  combine (map g l) (map k l) = map (fun x => (g x, k x)) l.
Proof. induction l as [|x l IH]; cbn; [reflexivity | now rewrite IH]. Qed.

Lemma repeat_as_map {A} (x : A) (n : nat) : repeat x n = map (fun _ => x) (seq 0 n).
Proof.
  generalize 0%nat. induction n as [|n IH]; intros k; cbn; [reflexivity | now rewrite (IH (S k))].
Qed.

Lemma accumulate_eq {X} (I : X -> SplitInfo) (P : X -> nat -> R) (realSum : R) (xs : list X) :
  accumulate headSize realSum (map (fun x => (I x, map (P x) (seq 0 headSize))) xs)
  = map (fun off =>
           Rsum (map (fun x => P x off * (s_flag (I x) * (s_sum (I x) / realSum))) xs))
        (seq 0 headSize).
Proof.
  unfold accumulate. rewrite repeat_as_map.
  assert (G : forall a : nat -> R,
    fold_left
      (fun acc t => zip_with (fun a0 p => a0 + p * (s_flag (fst t) * (s_sum (fst t) / realSum)))
                             acc (snd t))
      (map (fun x => (I x, map (P x) (seq 0 headSize))) xs) (map a (seq 0 headSize))
    = map (fun off =>
             a off + Rsum (map (fun x => P x off * (s_flag (I x) * (s_sum (I x) / realSum))) xs))
          (seq 0 headSize)).
  { induction xs as [|x xs IH]; intros a; cbn [map fold_left].
    - apply map_ext. intros off. rewrite Rsum_nil. lra.
    - cbn [fst snd]. rewrite zip_with_map_same, IH.
      apply map_ext. intros off. rewrite Rsum_cons. lra. }
  rewrite G. apply map_ext. intros off. lra.
Qed.

Lemma realSum_eq (M : R) (shards : list (list Col)) (mx : list Col -> R) :
  fold_left (fun realSum inf => realSum + s_sum inf * exp (s_max inf - M))
            (map (fun s => mkInfo (mx s) (exp (- mx s) * W s) 1) shards) 0
  = exp (- M) * W (concat shards).
Proof.
  assert (G : forall a,
    fold_left (fun realSum inf => realSum + s_sum inf * exp (s_max inf - M))
              (map (fun s => mkInfo (mx s) (exp (- mx s) * W s) 1) shards) a
    = a + exp (- M) * W (concat shards)).
  { induction shards as [|s shards IH]; intros a; cbn [map fold_left concat].
    - unfold W. cbn [map]. rewrite Rsum_nil. lra.
    - rewrite IH, W_app. cbn [s_sum s_max].
      replace (exp (mx s - M)) with (exp (mx s) * exp (- M))
        by (unfold Rminus; now rewrite exp_plus).
      replace (exp (- mx s) * W s * (exp (mx s) * exp (- M)))
        with ((exp (- mx s) * exp (mx s)) * (exp (- M) * W s)) by lra.
      rewrite <- exp_plus. replace (- mx s + mx s) with 0 by lra. rewrite exp_0. lra. }
  rewrite G. lra.
Qed.

Lemma WV_concat (shards : list (list Col)) off :
  Rsum (map (fun s => WV s off) shards) = WV (concat shards) off.
Proof.
  induction shards as [|s shards IH]; cbn [map concat].
  - reflexivity.
  - rewrite Rsum_cons, IH, WV_app. reflexivity.
Qed.

Lemma WV_nil off : WV [] off = 0.
Proof. reflexivity. Qed.

(** The contribution of one shard after revision. *)
Lemma shard_term (s : list Col) (m M realSum : R) off :
  exp (- m) / (exp (- m) * W s) * WV s off
  * (exp (m - M) * (exp (- m) * W s / realSum))
  = exp (- M) / realSum * WV s off.
Proof.
  destruct (Req_dec (W s) 0) as [E|E].
  - apply W_zero_nil in E. subst s. rewrite WV_nil. lra.
  - replace (exp (m - M)) with (exp m * exp (- M))
      by (unfold Rminus; now rewrite exp_plus).
    pose proof (exp_pos (- m)) as Hm.
    assert (Hmm : exp (- m) * exp m = 1).
    { rewrite <- exp_plus. replace (- m + m) with 0 by lra. apply exp_0. }
    unfold Rdiv. rewrite Rinv_mult.
    transitivity ((exp (- m) * / exp (- m)) * (W s * / W s) * (exp (- m) * exp m)
                  * (exp (- M) * / realSum * WV s off)); [lra|].
    rewrite !Rinv_r by lra. rewrite Hmm. lra.
Qed.

Lemma reduce_eq (mx : list Col -> R) (s0 : list Col) (rest : list (list Col)) :
  let task := fun s : list Col =>
    (mkInfo (mx s) (exp (- mx s) * W s) 1,
     map (fun off => exp (- mx s) / (exp (- mx s) * W s) * WV s off) (seq 0 headSize)) in
  exists M : R,
    reduce headSize (map task (s0 :: rest))
    = map (fun off =>
             Rsum (map (fun s => exp (- mx s) / (exp (- mx s) * W s) * WV s off
                                 * (exp (mx s - M)
                                    * (exp (- mx s) * W s
                                       / (exp (- M) * W (concat (s0 :: rest))))))
                       (s0 :: rest)))
          (seq 0 headSize).
Proof.
  intros task.
  exists (realMax_of (fst (task s0)) (map fst (map task rest))).
  set (M := realMax_of _ _).
  cbn [map reduce]. fold M. unfold revise.
  change (fst (task s0) :: map fst (map task rest)) with (map fst (map task (s0 :: rest))).
  change (snd (task s0) :: map snd (map task rest)) with (map snd (map task (s0 :: rest))).
  set (shards := s0 :: rest).
  rewrite !map_map. cbn [fst snd task s_max s_sum].
  rewrite (realSum_eq M shards mx).
  rewrite combine_map_same.
  rewrite (accumulate_eq
             (fun s => mkInfo (mx s) (exp (- mx s) * W s) (exp (mx s - M)))
             (fun s off => exp (- mx s) / (exp (- mx s) * W s) * WV s off)).
  reflexivity.
Qed.

(** Claim C3.  For every way of cutting the key/value columns of a head into
    shards (at least one shard; shards may be empty), the row that shard 0
    of [crossAttnShardHead] stores after merging the per-shard maxima, sums
    and partial outputs equals the row of one softmax over all the columns
    followed by the product with V, exactly over the reals. *)
Theorem C3_online_softmax_merge (s0 : list Col) (rest : list (list Col)) :
  crossAttnShardHead_row lowest headSize (s0 :: rest)
  = unsharded_row lowest headSize (concat (s0 :: rest)).
Proof.
  unfold crossAttnShardHead_row.
  set (mx := fun s : list Col => fold_left Rmax (map col_logit s) lowest).
  destruct (reduce_eq mx s0 rest) as [M HM]. cbv zeta in HM.
  rewrite (map_ext (shard_task lowest headSize)
             (fun s => (mkInfo (mx s) (exp (- mx s) * W s) 1,
                        map (fun off => exp (- mx s) / (exp (- mx s) * W s) * WV s off)
                            (seq 0 headSize))))
    by (intros s; apply shard_task_eq).
  rewrite HM.
  rewrite unsharded_row_eq. apply map_ext. intros off.
  set (shards := s0 :: rest).
  rewrite (map_ext _ (fun s => exp (- M) / (exp (- M) * W (concat shards)) * WV s off))
    by (intros s; apply shard_term).
  rewrite Rsum_map_scale, WV_concat.
  set (all := concat shards). set (m := fold_left Rmax (map col_logit all) lowest).
  destruct (Req_dec (W all) 0) as [E|E].
  - apply W_zero_nil in E. rewrite E, WV_nil. lra.
  - pose proof (exp_pos (- M)). pose proof (exp_pos (- m)).
    unfold Rdiv. rewrite !Rinv_mult.
    transitivity ((exp (- M) * / exp (- M)) * (/ W all * WV all off)); [lra|].
    transitivity ((exp (- m) * / exp (- m)) * (/ W all * WV all off)); [|lra].
    rewrite !Rinv_r by lra. reflexivity.
Qed.

End Facts.
End ShardHeadFacts.

(** ** The matmul helper and the two MLP paths *)

Module MMFacts.
Import MM Mem.
Open Scope R_scope.

Lemma sigma_ext (K : nat) (f g : nat -> R) :
  (forall k, (k < K)%nat -> f k = g k) -> sigma K f = sigma K g.
Proof.
  induction K as [|K IH]; intros H; cbn; [reflexivity|].
  rewrite IH by (intros; apply H; lia). rewrite H by lia. reflexivity.
Qed.

Lemma store_tile_at (M N ldc : nat) v C i j :
  (i < M)%nat -> (j < N)%nat -> (N <= ldc)%nat ->
  store_tile M N ldc v C (i * ldc + j)%nat = v i j.
Proof.
  intros Hi Hj Hl. unfold store_tile.
  assert (Hd : ((i * ldc + j) / ldc = i)%nat).
  { rewrite Nat.div_add_l by lia. rewrite Nat.div_small by lia. lia. }
  assert (Hm : ((i * ldc + j) mod ldc = j)%nat).
  { rewrite Nat.add_comm, Nat.Div0.mod_add. apply Nat.mod_small. lia. }
  cbv zeta. rewrite Hd, Hm.
  destruct (Nat.ltb_spec i M); [|lia]. destruct (Nat.ltb_spec j N); [|lia]. reflexivity.
Qed.


Lemma rd_wr_eq a d (m : store) : rd (wr a d m) a = d.
Proof. unfold rd, wr. now rewrite lookup_insert_eq. Qed.

Lemma rd_wr_ne a b d (m : store) : a <> b -> rd (wr a d m) b = rd m b.
Proof. intros H. unfold rd, wr. now rewrite lookup_insert_ne. Qed.

Lemma lookup_wr_ne a b d (m : store) : a <> b -> wr a d m !! b = m !! b.
Proof. intros H. unfold wr. now rewrite lookup_insert_ne. Qed.

Lemma memcpy_in dst doff src soff n idx :
  (doff <= idx < doff + n)%nat -> memcpy dst doff src soff n idx = src (soff + (idx - doff))%nat.
Proof.
  intros H. unfold memcpy.
  destruct (Nat.leb_spec doff idx); [|lia]. destruct (Nat.ltb_spec idx (doff + n)); [|lia].
  reflexivity.
Qed.

Lemma memcpy_out dst doff src soff n idx :
  (idx < doff \/ doff + n <= idx)%nat -> memcpy dst doff src soff n idx = dst idx.
Proof.
  intros H. unfold memcpy.
  destruct (Nat.leb_spec doff idx); [|reflexivity].
  destruct (Nat.ltb_spec idx (doff + n)); [lia|reflexivity].
Qed.

End MMFacts.

Module LlamaMLPFacts.
Import MM Mem LlamaMLP MMFacts.
Open Scope R_scope.


Lemma pathA_intermediate (mlp : MLP) (X im : View) (m1 : store) (i j : nat) :
  v_ptr X <> v_ptr im ->
  (i < v_Rows X)%nat -> (j < v_Cols im)%nat -> (v_Cols im <= v_Stride im)%nat ->
  rd (upProj mlp X im (gateProj mlp X im m1)) (v_ptr im) (i * v_Stride im + j)%nat
  = gemm_at (v_Cols X) (rd m1 (v_ptr X)) (v_Stride X) (W_at (upWeight mlp)) i j
    * silu (gemm_at (v_Cols X) (rd m1 (v_ptr X)) (v_Stride X) (W_at (gateWeight mlp)) i j).
Proof.
  intros Hne Hi Hj Hs. unfold upProj, gateProj. cbv zeta.
  rewrite rd_wr_eq. rewrite rd_wr_eq.
  rewrite (rd_wr_ne (v_ptr im) (v_ptr X)) by congruence.
  unfold compute_resmul. rewrite store_tile_at by assumption.
  unfold compute_silu. rewrite store_tile_at by assumption. reflexivity.
Qed.



(** On the concatenated path [downProj] is called with the [siluBuf] of
    [cols] columns, where its [assert] asks for [2 * downWeight.Rows()]
    columns: with the shapes under which the product is the down projection
    ([downWeight.Rows() = cols]) the [assert] does not hold. *)
Lemma downProj_asserts_cat (mlp : MLP) (siluBuf output : View) :
  v_Cols siluBuf = W_Rows (downWeight mlp) -> (0 < v_Cols siluBuf)%nat ->
  downProj_asserts true mlp siluBuf output = false.
Proof.
  intros Hc Hp. unfold downProj_asserts. cbn [negb].
  destruct (Nat.eqb_spec (v_Cols siluBuf) (2 * W_Rows (downWeight mlp))) as [E|E]; [lia|].
  now rewrite andb_false_r.
Qed.


End LlamaMLPFacts.

(** ** The residual across tensor-parallel ranks *)

Module ResidualFacts.
Import SetWeights MM Mem LlamaMLP Attention MMFacts SetWeightsFacts.
Open Scope R_scope.






Lemma sigma_ext_lt (K : nat) (f g : nat -> R) :
  (forall k, (k < K)%nat -> f k = g k) -> sigma K f = sigma K g.
Proof. apply sigma_ext. Qed.


End ResidualFacts.

(** ** Frame properties of the two [forward] functions *)

Module FrameFacts.
Import Fused MM Mem LlamaMLP Attention MMFacts.

(** The buffers [Attention::forward] may write when the input is the residual. *)
Definition attention_writes (pool : string -> addr) (cb : CtxBufs)
    (imBuf output presentKey presentValue : addr) : list addr :=
  [imBuf; output; qkvMatMul cb; qkScores cb; presentKey; presentValue;
   pool "flashKVBuf"; pool "threadBuffers"; pool "threadPtrBuffers";
   pool "scoreBuf"; pool "shardedOutput"].

(** The buffers [LlamaMLP::forward] may write. *)
Definition mlp_writes (sc : Scratch) (output : addr) : list addr :=
  [v_ptr (normBuf sc); v_ptr (imOut sc); mlp_silu sc; output].

Section Frame.

Variables InT ImT OutT AttnT : dtype.
Variable flashThresh : Z.
Variables residentialScale scalingCoeff : R.
Variable pool : string -> addr.
Variable norm_forward : Data -> Data -> nat -> nat -> nat -> Data.
Variable qkpo_forward : Data -> list Z -> list Z -> Data.
Variable kernel_out : string -> list Data -> Data.

Lemma write_from_other (x : addr) step dst srcs (m : store) :
  x <> dst -> write_from kernel_out step dst srcs m !! x = m !! x.
Proof. intros H. unfold write_from. apply lookup_wr_ne. congruence. Qed.

Ltac frame_step :=
  first [ rewrite write_from_other by congruence
        | rewrite lookup_wr_ne by congruence ].

Lemma rbind_Ret {A B} (m : res A) (k : A -> res B) (b : B) :
  rbind m k = Ret b -> exists a, m = Ret a /\ k a = Ret b.
Proof. destruct m; cbn; intros H; try discriminate. eauto. Qed.

Lemma flashAttention_frame ctx att (a : KernelArgs) st st' (x : addr) :
  flashAttention ImT AttnT pool kernel_out ctx att a st = Ret st' ->
  x <> a_result a -> x <> a_presentKey a -> x <> a_presentValue a ->
  x <> pool "flashKVBuf" -> x <> pool "threadBuffers" -> x <> pool "threadPtrBuffers" ->
  st_mem st' !! x = st_mem st !! x.
Proof.
  unfold flashAttention. intros H Hr Hk Hv H1 H2 H3. cbv zeta in H.
  apply rbind_Ret in H. destruct H as (m1 & Hm1 & H).
  injection H as <-. cbn [st_mem]. repeat frame_step.
  destruct (dtype_eqb AttnT ImT) in Hm1 |- *.
  - injection Hm1 as <-. reflexivity.
  - destruct (_ || _) in Hm1; [|discriminate].
    injection Hm1 as <-. repeat frame_step. reflexivity.
Qed.

Lemma selfAttentionBF16_frame ctx att (a : KernelArgs) st st' (x : addr) :
  selfAttentionBF16 kernel_out ctx att a st = Ret st' ->
  x <> a_result a -> x <> a_presentKey a -> x <> a_presentValue a ->
  st_mem st' !! x = st_mem st !! x.
Proof.
  unfold selfAttentionBF16. intros H Hr Hk Hv.
  destruct (negb _); [discriminate|].
  injection H as <-. cbn [st_mem]. repeat frame_step. reflexivity.
Qed.

Lemma fusedAttention_frame ctx att cb (a : KernelArgs) st st' (x : addr) :
  fusedAttention ImT pool kernel_out ctx att cb a st = Ret st' ->
  x <> a_result a -> x <> a_presentKey a -> x <> a_presentValue a ->
  x <> qkScores cb -> x <> pool "scoreBuf" -> x <> pool "shardedOutput" ->
  st_mem st' !! x = st_mem st !! x.
Proof.
  unfold fusedAttention. intros H Hr Hk Hv H1 H2 H3.
  apply rbind_Ret in H. destruct H as (plan & _ & H).
  apply rbind_Ret in H. destruct H as (m2 & Hm2 & H).
  injection H as <-. cbn [st_mem].
  assert (Hc : (if plan_kvCopied plan then copyKVCache kernel_out a (st_mem st)
                else st_mem st) !! x = st_mem st !! x).
  { destruct (plan_kvCopied plan); [|reflexivity].
    unfold copyKVCache. repeat frame_step. reflexivity. }
  rewrite <- Hc. clear Hc.
  set (m1 := if plan_kvCopied plan then _ else _) in *. clearbody m1.
  destruct (plan_kernel plan).
  - unfold slimAttention in Hm2.
    apply rbind_Ret in Hm2. destruct Hm2 as (g & _ & Hm2).
    apply rbind_Ret in Hm2. destruct Hm2 as (nblk & _ & Hm2).
    injection Hm2 as <-.
    set (scoreBuf := if (_ >? _)%Z then pool "scoreBuf" else qkScores cb).
    assert (x <> scoreBuf) by (subst scoreBuf; destruct (_ >? _)%Z; assumption).
    destruct (plan_kvCopied plan); repeat frame_step; reflexivity.
  - unfold crossAttnShardHead in Hm2.
    apply rbind_Ret in Hm2. destruct Hm2 as (sh & _ & Hm2).
    injection Hm2 as <-. repeat frame_step. reflexivity.
Qed.

Lemma forward_frame att cb (input imBuf output attnMask presentKey presentValue : addr)
    (inputSeqLen_arg pastSeqLen : Z) (useSelfAttn doLnBefore : bool)
    (positionIds : option (list Z)) (st st' : State) (x : addr) :
  x ∉ attention_writes pool cb imBuf output presentKey presentValue ->
  forward InT ImT OutT AttnT true flashThresh residentialScale scalingCoeff pool
          norm_forward qkpo_forward kernel_out att cb input imBuf output attnMask
          presentKey presentValue inputSeqLen_arg pastSeqLen useSelfAttn doLnBefore
          positionIds st = Ret st' ->
  st_mem st' !! x = st_mem st !! x.
Proof.
  unfold attention_writes. intros Hx H.
  rewrite !not_elem_of_cons in Hx.
  destruct Hx as (X1 & X2 & X3 & X4 & X5 & X6 & X7 & X8 & X9 & X10 & X11 & _).
  unfold forward in H. cbv zeta in H.
  apply rbind_Ret in H. destruct H as (st4 & Hk & H).
  injection H as <-. cbn [st_mem].
  assert (Hout : forall (m5 : store) d, wr output d m5 !! x = m5 !! x)
    by (intros; apply lookup_wr_ne; congruence).
  assert (Hpost : forall m5 : store,
    (if negb doLnBefore
     then wr output (norm_forward (rd m5 output) (rd m5 output)
            (Z.to_nat (batchSize (st_ctx st) * inputSeqLen_arg))
            (Z.to_nat (hiddenSize (st_ctx st))) (Z.to_nat (hiddenSize (st_ctx st)))) m5
     else m5) !! x = m5 !! x).
  { intros m5. destruct (negb doLnBefore); [apply Hout | reflexivity]. }
  cbn [v_Rows v_Stride v_ptr] in *.
  rewrite Hpost. unfold outputProjection. cbn [v_ptr]. rewrite Hout.
  (* the kernel *)
  set (a := mkArgs _ _ _ _ _ _) in Hk.
  set (st3 := mkState _ _ _) in Hk.
  assert (Hker : st_mem st4 !! x = st_mem st3 !! x).
  { unfold dispatchAttention in Hk.
    destruct (pastSeqLen =? 0)%Z;
      [destruct (inputSeqLen (st_ctx st) >? flashThresh)%Z;
         [|destruct (is_bfloat16 InT && is_bfloat16 OutT)]|].
    - eapply flashAttention_frame; [exact Hk | subst a; cbn; congruence ..].
    - eapply selfAttentionBF16_frame; [exact Hk | subst a; cbn; congruence ..].
    - eapply fusedAttention_frame; [exact Hk | subst a; cbn; congruence ..].
    - eapply fusedAttention_frame; [exact Hk | subst a; cbn; congruence ..]. }
  rewrite Hker. subst st3. cbn [st_mem].
  destruct positionIds as [ids|]; [|destruct (maxPosEmbed (st_ctx st) >? 0)%Z];
    repeat frame_step; destruct doLnBefore; repeat frame_step; reflexivity.
Qed.

Lemma mlp_forward_frame rmsNorm enableCATMLP (mlp : MLP) ctx (sc : Scratch)
    (input output : addr) (iStride oStride : nat) (doLnBefore : bool) (m : store)
    (x : addr) :
  x ∉ mlp_writes sc output ->
  LlamaMLP.forward rmsNorm enableCATMLP mlp ctx sc input output iStride oStride doLnBefore m
    !! x = m !! x.
Proof.
  unfold mlp_writes. intros Hx. rewrite !not_elem_of_cons in Hx.
  destruct Hx as (X1 & X2 & X3 & X4 & _).
  unfold LlamaMLP.forward. cbv zeta.
  destruct enableCATMLP; cbn [negb];
    unfold downProj, upProj, gateProj, catGateUpProj, siluSum; cbv zeta; cbn [v_ptr];
    repeat frame_step; destruct doLnBefore; repeat frame_step; reflexivity.
Qed.

End Frame.
End FrameFacts.

Module ForwardFrame.
Import Fused MM Mem LlamaMLP Attention MMFacts FrameFacts.

(** Claim C10.  [Attention::forward] with [INPUT_AS_RESID = true] and
    [LlamaMLP::forward] write only the intermediate, scratch, KV-cache and
    output buffers: every buffer at another address, and so the input tile
    when it is not one of them, has the same content when [forward]
    returns. *)
Theorem C10_forward_leaves_the_input :
  (forall (InT ImT OutT AttnT : dtype) (flashThresh : Z) (residentialScale scalingCoeff : R)
          (pool : string -> addr) (norm_forward : Data -> Data -> nat -> nat -> nat -> Data)
          (qkpo_forward : Data -> list Z -> list Z -> Data)
          (kernel_out : string -> list Data -> Data)
          (att : Layer) (cb : CtxBufs)
          (input imBuf output attnMask presentKey presentValue : addr)
          (inputSeqLen_arg pastSeqLen : Z) (useSelfAttn doLnBefore : bool)
          (positionIds : option (list Z)) (st st' : State) (x : addr),
      x ∉ attention_writes pool cb imBuf output presentKey presentValue ->
      Attention.forward InT ImT OutT AttnT true flashThresh residentialScale scalingCoeff
        pool norm_forward qkpo_forward kernel_out att cb input imBuf output attnMask
        presentKey presentValue inputSeqLen_arg pastSeqLen useSelfAttn doLnBefore
        positionIds st = Ret st' ->
      st_mem st' !! x = st_mem st !! x)
  /\ (forall (rmsNorm : Data -> Data -> Data -> nat -> nat -> nat -> nat -> Data)
             (enableCATMLP : bool) (mlp : MLP) (ctx : DecoderContext) (sc : Scratch)
             (input output : addr) (iStride oStride : nat) (doLnBefore : bool)
             (m : store) (x : addr),
      x ∉ mlp_writes sc output ->
      LlamaMLP.forward rmsNorm enableCATMLP mlp ctx sc input output iStride oStride
                       doLnBefore m !! x
      = m !! x).
Proof.
  split.
  - intros. eapply forward_frame; eassumption.
  - intros. apply mlp_forward_frame. assumption.
Qed.

(** A decode step of scenario S4 through the attention layer, and an MLP
    call, with the input tile at address 1. *)
Definition demo_layer : Layer :=
  mkLayer 0%Z (HeadRange.mkHeads 0 8 0 8) (mkWeight (fun _ _ => 0%R) 0 0) []
          (mkWeight (fun _ _ => 0%R) 0 0) [].

Definition demo_state : State :=
  mkState FusedFacts.ctx_S4 (<[1%positive := fun _ => 1%R]> ∅) 1%R.

Definition demo_forward : res State :=
  Attention.forward Float32 Float32 Float32 Float32 true 1024%Z 1%R 0%R
    (fun _ => 20%positive) (fun _ out _ _ _ => out) (fun d _ _ => d)
    (fun _ l => hd (fun _ => 0%R) l)
    demo_layer (mkCtxBufs 10%positive 11%positive 0%Z) 1%positive 2%positive 3%positive
    4%positive 5%positive 6%positive 1%Z 8%Z false true None demo_state.

Lemma demo_forward_returns : exists st', demo_forward = Ret st'.
Proof. eexists. reflexivity. Qed.

Ltac not_in_list :=
  let H := fresh in
  intros H; repeat (apply elem_of_cons in H as [H|H]; [discriminate H|]);
  apply elem_of_nil in H; exact H.

Definition demo_scratch : Scratch :=
  mkScratch (mkView 7%positive 1 1 1) (mkView 8%positive 1 1 1) 9%positive.

Lemma C10_forward_leaves_the_input_witness :
  exists st' : State,
    demo_forward = Ret st'
    /\ st_mem st' !! 1%positive = st_mem demo_state !! 1%positive
    /\ LlamaMLP.forward (fun out _ _ _ _ _ _ => out) true
          (mkMLP noWeight noWeight noWeight noWeight (fun _ => 1%R))
          FusedFacts.ctx_S4 demo_scratch 1%positive 3%positive 1 1 true (st_mem demo_state)
        !! 1%positive
       = st_mem demo_state !! 1%positive.
Proof.
  destruct demo_forward_returns as [st' E]. exists st'.
  destruct C10_forward_leaves_the_input as [Hatt Hmlp].
  split; [exact E|]. split.
  - unfold demo_forward in E. eapply Hatt; [|exact E].
    unfold attention_writes. cbn. not_in_list.
  - apply Hmlp. unfold mlp_writes. cbn. not_in_list.
Defined.

End ForwardFrame.

(** ** The choice of the attention kernel *)

Module DispatchFacts.
Import Attention.
Open Scope Z_scope.



End DispatchFacts.

(** ** Instances of the MLP and residual properties *)

Module Examples.
Import MM Mem LlamaMLP Attention MMFacts LlamaMLPFacts ResidualFacts.
Open Scope R_scope.


Definition ctx_one : DecoderContext :=
  mkCtx 1 1 1 1 16 1 1 2048 2048 1 0 4 1 1 0.



End Examples.

(** * Further properties *)

(** ** Outcomes of the constructor *)

Module CtorOutcome.
Import CInt HeadRange CIntFacts.
Open Scope Z_scope.

Lemma getTaskRange_defined (N splits idx : Z) :
  splits <> 0 -> exists r, getTaskRange N splits idx = Ret r.
Proof.
  intros Hs. unfold getTaskRange.
  rewrite !cmod_nonzero, !cdiv_nonzero by assumption. cbn [rbind].
  destruct (_ =? 0); [eauto|]. destruct (_ <? _); eauto.
Qed.

Ltac outcome_cases :=
  split; [|split]; split; intros H;
  first [ discriminate H
        | match type of H with ex _ => destruct H as [? H]; discriminate H end
        | tauto
        | solve [eauto] ].

(** X1.  The constructor of [Attention] has exactly three outcomes, decided
    by the head counts.  It prints "Not supported yet" and exits exactly
    when [kvHeadNum] is not zero and does not divide [attHeadNum]; it divides
    by zero exactly when [kvHeadNum] is zero, or [kvHeadNum] divides
    [attHeadNum] and [numSplit] or [attHeadNum] is zero; and it returns the
    head ranges in all other cases. *)
Theorem X1_Attention_ctor_outcome (ctx : DecoderContext) :
  let unsupported := "Not supported yet: QHeads, KVHeads" in
  (Attention_ctor ctx = Fatal unsupported
   <-> kvHeadNum ctx <> 0 /\ Z.rem (attHeadNum ctx) (kvHeadNum ctx) <> 0)
  /\ (Attention_ctor ctx = UB
      <-> kvHeadNum ctx = 0
          \/ (Z.rem (attHeadNum ctx) (kvHeadNum ctx) = 0
              /\ (numSplit ctx = 0 \/ attHeadNum ctx = 0)))
  /\ ((exists h, Attention_ctor ctx = Ret h)
      <-> kvHeadNum ctx <> 0 /\ Z.rem (attHeadNum ctx) (kvHeadNum ctx) = 0
          /\ numSplit ctx <> 0 /\ attHeadNum ctx <> 0).
Proof.
  cbv zeta. unfold Attention_ctor.
  destruct (Z.eq_dec (kvHeadNum ctx) 0) as [Hkv|Hkv].
  { unfold cmod at 1. rewrite Hkv. cbn [Z.eqb rbind]. outcome_cases. }
  rewrite cmod_nonzero by assumption. cbn [rbind].
  destruct (Z.eqb_spec (Z.rem (attHeadNum ctx) (kvHeadNum ctx)) 0) as [Hr|Hr];
    [|outcome_cases].
  destruct (Z.eq_dec (numSplit ctx) 0) as [Hs|Hs].
  { unfold getTaskRange. unfold cmod at 1. rewrite Hs. cbn [Z.eqb rbind]. outcome_cases. }
  destruct (getTaskRange_defined (attHeadNum ctx) (numSplit ctx) (splitIdx ctx) Hs)
    as [r ->].
  cbn [rbind].
  destruct (Z.eq_dec (attHeadNum ctx) 0) as [Ha|Ha].
  { rewrite cdiv_nonzero by assumption. cbn [rbind].
    rewrite Ha. rewrite Z.quot_0_l by assumption.
    unfold cdiv at 1. cbn [Z.eqb rbind]. outcome_cases. }
  assert (He : Z.quot (attHeadNum ctx) (kvHeadNum ctx) <> 0).
  { intros E. pose proof (Z.quot_rem' (attHeadNum ctx) (kvHeadNum ctx)) as H.
    rewrite E, Hr in H. lia. }
  repeat (rewrite cdiv_nonzero by assumption; cbn [rbind]).
  outcome_cases.
Qed.

End CtorOutcome.

(** ** KV heads of a rank and the head the kernels read *)

Module KVHeadFacts.
Import CInt HeadRange CIntFacts HeadRangeFacts KVHead.
Open Scope Z_scope.

Lemma empty_range_at_end N splits idx :
  1 <= N -> 1 <= splits -> 0 <= idx < splits ->
  rangeLen N splits idx = 0 -> rangeStart N splits idx = N.
Proof.
  intros HN Hs Hi. unfold rangeLen, rangeStart.
  pose proof (Z.mod_pos_bound N splits ltac:(lia)) as Hm.
  pose proof (Z.div_mod N splits ltac:(lia)) as Hd.
  assert (0 <= N / splits) by (apply Z.div_pos; lia).
  destruct (Z.ltb_spec idx (N mod splits)); intros E; [lia|].
  assert (E0 : N / splits = 0) by lia. rewrite E0 in *. lia.
Qed.

Lemma rangeLen_nonneg N splits idx :
  0 <= N -> 1 <= splits -> 0 <= rangeLen N splits idx.
Proof.
  intros HN Hs. unfold rangeLen.
  assert (0 <= N / splits) by (apply Z.div_pos; lia).
  destruct (idx <? N mod splits); lia.
Qed.

(** X2.  With positive head counts, [kvHeadNum] dividing [attHeadNum] and a
    rank index below [numSplit], the KV heads [[startKVHead, endKVHead)] of
    the constructor are exactly the KV heads [q / expandFactor] of the query
    heads [q] of the rank: none is missing and none is superfluous, also on
    a rank that has no query head. *)
Theorem X2_kv_range_is_image_of_q_range (ctx : DecoderContext) :
  0 < kvHeadNum ctx -> 0 < attHeadNum ctx ->
  Z.rem (attHeadNum ctx) (kvHeadNum ctx) = 0 ->
  1 <= numSplit ctx -> 0 <= splitIdx ctx < numSplit ctx ->
  exists h : Heads,
    Attention_ctor ctx = Ret h
    /\ forall kv : Z,
         startKVHead h <= kv < endKVHead h
         <-> exists q : Z,
               startQHead h <= q < endQHead h
               /\ kv = Z.quot q (Z.quot (attHeadNum ctx) (kvHeadNum ctx)).
Proof.
  intros Hkv Hatt Hrem Hs Hi.
  eexists. split; [apply Attention_ctor_closed; assumption|].
  cbn [startQHead endQHead startKVHead endKVHead].
  set (N := attHeadNum ctx) in *. set (n := numSplit ctx) in *. set (i := splitIdx ctx) in *.
  set (sq := rangeStart N n i). set (len := rangeLen N n i).
  rewrite (quot_div_nonneg N) by lia.
  set (e := N / kvHeadNum ctx).
  assert (Hm : N mod kvHeadNum ctx = 0) by (rewrite <- rem_mod_nonneg by lia; exact Hrem).
  assert (HN : N = e * kvHeadNum ctx).
  { subst e. pose proof (Z.div_mod N (kvHeadNum ctx) ltac:(lia)). lia. }
  assert (He : 1 <= e) by nia.
  pose proof (rangeStart_bounds N n i ltac:(lia) ltac:(lia) ltac:(lia)) as Hb. fold sq in Hb.
  pose proof (rangeLen_nonneg N n i ltac:(lia) ltac:(lia)) as Hl. fold len in Hl.
  intros kv. split.
  - intros [H1 H2].
    destruct (Z.eq_dec len 0) as [E0|Hne].
    + (* an empty query range lies at the end, and its KV range is empty *)
      pose proof (empty_range_at_end N n i ltac:(lia) ltac:(lia) ltac:(lia) E0) as Hend.
      fold sq in Hend. exfalso.
      rewrite E0, Z.add_0_r, Hend in H2. rewrite Hend in H1.
      assert (E1 : N / e = kvHeadNum ctx) by (symmetry; apply Z.div_unique with 0; lia).
      assert (E2 : (N - 1) / e = kvHeadNum ctx - 1).
      { symmetry. apply Z.div_unique with (e - 1); lia. }
      lia.
    + exists (Z.max sq (kv * e)).
      assert (Hq1 : sq / e * e <= sq < sq / e * e + e).
      { pose proof (Z.div_mod sq e ltac:(lia)). pose proof (Z.mod_pos_bound sq e ltac:(lia)). lia. }
      assert (Hq2 : (sq + len - 1) / e * e <= sq + len - 1).
      { pose proof (Z.div_mod (sq + len - 1) e ltac:(lia)).
        pose proof (Z.mod_pos_bound (sq + len - 1) e ltac:(lia)). lia. }
      split; [nia|].
      rewrite quot_div_nonneg by lia.
      apply Z.div_unique with (Z.max sq (kv * e) - kv * e); nia.
  - intros (q & [H1 H2] & ->). rewrite quot_div_nonneg by lia. split.
    + apply Z.div_le_mono; lia.
    + assert (q / e <= (sq + len - 1) / e) by (apply Z.div_le_mono; lia). lia.
Qed.

Lemma kernel_kvHead_eq (ctx : DecoderContext) (i : Z) :
  0 < kvHeadNum ctx <= attHeadNum ctx -> 0 <= i ->
  kernel_kvHead ctx i = Ret (i / (attHeadNum ctx / kvHeadNum ctx)).
Proof.
  intros Hkv Hi. unfold kernel_kvHead.
  rewrite cdiv_pos by lia. cbn [rbind]. rewrite quot_div_nonneg by lia.
  assert (1 <= attHeadNum ctx / kvHeadNum ctx) by (apply Z.div_le_lower_bound; lia).
  rewrite cdiv_pos by lia. rewrite quot_div_nonneg by lia. reflexivity.
Qed.

Lemma local_kv_index_iff (sq len g : Z) :
  0 <= sq -> 1 <= g ->
  (forall i, 0 <= i < len -> i / g = (sq + i) / g - sq / g)
  <-> (sq mod g = 0 \/ len <= g - sq mod g).
Proof.
  intros Hsq Hg.
  pose proof (Z.div_mod sq g ltac:(lia)) as Hd.
  pose proof (Z.mod_pos_bound sq g ltac:(lia)) as Hm.
  split.
  - intros H.
    destruct (Z.eq_dec (sq mod g) 0) as [E|E]; [left; exact E|right].
    destruct (Z.le_gt_cases len (g - sq mod g)) as [Hle|Hgt]; [exact Hle|exfalso].
    specialize (H (g - sq mod g) ltac:(lia)).
    rewrite (Z.div_small (g - sq mod g)) in H by lia.
    assert (E1 : (sq + (g - sq mod g)) / g = sq / g + 1).
    { symmetry. apply Z.div_unique with 0; lia. }
    lia.
  - intros [E|Hle] i Hi.
    + assert (E1 : (sq + i) / g = sq / g + i / g).
      { pose proof (Z.div_mod i g ltac:(lia)). pose proof (Z.mod_pos_bound i g ltac:(lia)).
        symmetry. apply Z.div_unique with (i mod g); lia. }
      lia.
    + rewrite (Z.div_small i) by lia.
      assert (E1 : (sq + i) / g = sq / g).
      { symmetry. apply Z.div_unique with (sq mod g + i); lia. }
      lia.
Qed.

(** X3.  The kernels read the KV head [i / groupNum] for the local query
    head [i], while the constructor lays the rank's cache out from
    [startKVHead = startQHead / groupNum].  The index of the kernels is the
    local index [(startQHead + i) / groupNum - startKVHead] of the right KV
    head for every query head of the rank if and only if [startQHead] is a
    multiple of [groupNum] or the rank has at most
    [groupNum - startQHead % groupNum] query heads. *)
Theorem X3_kernel_kvHead_matches_ctor_iff (ctx : DecoderContext) :
  0 < kvHeadNum ctx -> 0 < attHeadNum ctx ->
  Z.rem (attHeadNum ctx) (kvHeadNum ctx) = 0 ->
  1 <= numSplit ctx -> 0 <= splitIdx ctx < numSplit ctx ->
  let groupNum := Z.quot (attHeadNum ctx) (kvHeadNum ctx) in
  exists h : Heads,
    Attention_ctor ctx = Ret h
    /\ ((forall i : Z, 0 <= i < endQHead h - startQHead h ->
           kernel_kvHead ctx i
           = Ret (Z.quot (startQHead h + i) groupNum - startKVHead h))
        <-> (Z.rem (startQHead h) groupNum = 0
             \/ endQHead h - startQHead h <= groupNum - Z.rem (startQHead h) groupNum)).
Proof.
  intros Hkv Hatt Hrem Hs Hi groupNum.
  eexists. split; [apply Attention_ctor_closed; assumption|].
  cbn [startQHead endQHead startKVHead endKVHead].
  set (N := attHeadNum ctx) in *. set (n := numSplit ctx) in *. set (i := splitIdx ctx) in *.
  set (sq := rangeStart N n i). set (len := rangeLen N n i).
  assert (Hm : N mod kvHeadNum ctx = 0) by (rewrite <- rem_mod_nonneg by lia; exact Hrem).
  assert (Hle : kvHeadNum ctx <= N).
  { pose proof (Z.div_mod N (kvHeadNum ctx) ltac:(lia)) as Hd.
    assert (0 <= N / kvHeadNum ctx) by (apply Z.div_pos; lia).
    rewrite Hm in Hd.
    destruct (Z.eq_dec (N / kvHeadNum ctx) 0) as [E|E]; [rewrite E in Hd; lia | nia]. }
  assert (Hg : groupNum = N / kvHeadNum ctx) by (apply quot_div_nonneg; lia).
  assert (Hg1 : 1 <= groupNum) by (rewrite Hg; apply Z.div_le_lower_bound; lia).
  pose proof (rangeStart_bounds N n i ltac:(lia) ltac:(lia) ltac:(lia)) as Hb. fold sq in Hb.
  rewrite <- Hg. rewrite (rem_mod_nonneg sq) by lia.
  replace (sq + len - sq) with len by lia.
  rewrite <- (local_kv_index_iff sq len groupNum) by lia.
  split; intros H j Hj.
  - specialize (H j Hj). rewrite kernel_kvHead_eq in H by (fold N; lia).
    fold N in H. rewrite <- Hg in H. rewrite quot_div_nonneg in H by lia.
    congruence.
  - rewrite kernel_kvHead_eq by (fold N; lia). fold N. rewrite <- Hg.
    rewrite quot_div_nonneg by lia. f_equal. apply H. exact Hj.
Qed.

(** Six query heads over three KV heads, on rank 1 of two. *)
Definition ctx_gqa_6_3 : DecoderContext :=
  mkCtx 96 256 6 3 16 1 1 2048 2048 2 1 4 1 1 0.

Lemma X3_kernel_kvHead_matches_ctor_iff_witness :
  exists h : Heads,
    Attention_ctor ctx_gqa_6_3 = Ret h
    /\ ~ (forall i : Z, 0 <= i < endQHead h - startQHead h ->
            kernel_kvHead ctx_gqa_6_3 i = Ret (Z.quot (startQHead h + i) 2 - startKVHead h)).
Proof.
  destruct (X3_kernel_kvHead_matches_ctor_iff ctx_gqa_6_3) as (h & Hc & Hiff);
    [reflexivity | reflexivity | reflexivity | cbn; lia | cbn; lia |].
  exists h. split; [exact Hc|].
  intros H. apply Hiff in H.
  vm_compute in Hc. injection Hc as <-. vm_compute in H. destruct H as [H|H]; [discriminate H | apply H; reflexivity].
Defined.

Lemma X2_kv_range_is_image_of_q_range_witness :
  exists h : Heads,
    Attention_ctor ctx_gqa_6_3 = Ret h
    /\ (startKVHead h <= 2 < endKVHead h
        <-> exists q : Z, startQHead h <= q < endQHead h /\ 2 = Z.quot q (Z.quot 6 3)).
Proof.
  destruct (X2_kv_range_is_image_of_q_range ctx_gqa_6_3) as (h & Hc & H);
    [reflexivity | reflexivity | reflexivity | cbn; lia | cbn; lia |].
  exists h. split; [exact Hc | exact (H 2)].
Defined.
End KVHeadFacts.

(** ** The merged QKV weight *)

Module SetWeightsConcatFacts.
Import HeadRange MM Loops SetWeightsConcat MMFacts.
Open Scope Z_scope.

Lemma upto_S (n : nat) : upto (Z.of_nat (S n)) = upto (Z.of_nat n) ++ [Z.of_nat n].
Proof.
  unfold upto. rewrite !Nat2Z.id, seq_S, map_app. reflexivity.
Qed.

Lemma memcpy_at_in dst doff src soff n idx :
  0 <= doff -> 0 <= soff -> doff <= idx < doff + n ->
  memcpy_at dst doff src soff n (Z.to_nat idx) = src (Z.to_nat (soff + (idx - doff))).
Proof.
  intros Hd Hs Hi. unfold memcpy_at. rewrite memcpy_in by lia. f_equal. lia.
Qed.

Lemma memcpy_at_out dst doff src soff n idx :
  0 <= doff -> 0 <= idx -> idx < doff \/ doff + Z.max 0 n <= idx ->
  memcpy_at dst doff src soff n (Z.to_nat idx) = dst (Z.to_nat idx).
Proof.
  intros Hd Hi H. unfold memcpy_at. apply memcpy_out. lia.
Qed.

(** The merged matrix of the rank: the columns of its query heads, then of
    its key heads, then of its value heads. *)
Definition merged (ctx : DecoderContext) (h : Heads) (Q K V : Z -> Z -> R) (i c : Z) : R :=
  let hs := attHeadSize ctx in
  let q := (endQHead h - startQHead h) * hs in
  let kv := (endKVHead h - startKVHead h) * hs in
  if c <? q then Q i (startQHead h * hs + c)
  else if c <? q + kv then K i (startKVHead h * hs + (c - q))
  else V i (startKVHead h * hs + (c - q - kv)).

Lemma rows_fold (qN kN vN fresh : Data) (rc q kv st qo ko : Z) (n : nat) (i c : Z) :
  0 <= q -> 0 <= kv -> rc = q + 2 * kv -> 0 <= st -> 0 <= qo -> 0 <= ko ->
  0 <= i < Z.of_nat n -> 0 <= c < rc ->
  fold_left
    (fun d i =>
       memcpy_at
         (memcpy_at (memcpy_at d (i * rc) qN (i * st + qo) q)
                    (i * rc + q) kN (i * st + ko) kv)
         (i * rc + q + kv) vN (i * st + ko) kv)
    (upto (Z.of_nat n)) fresh (Z.to_nat (i * rc + c))
  = if c <? q then qN (Z.to_nat (i * st + qo + c))
    else if c <? q + kv then kN (Z.to_nat (i * st + ko + (c - q)))
    else vN (Z.to_nat (i * st + ko + (c - q - kv))).
Proof.
  intros Hq Hkv Hrc Hst Hqo Hko Hi Hc.
  induction n as [|n IH]; [lia|].
  rewrite upto_S, fold_left_app. cbn [fold_left].
  set (d := fold_left _ (upto (Z.of_nat n)) fresh) in *.
  destruct (Z.eq_dec i (Z.of_nat n)) as [E|E].
  - rewrite <- E. cbv zeta.
    destruct (Z.ltb_spec c q) as [C1|C1]; [|destruct (Z.ltb_spec c (q + kv)) as [C2|C2]].
    + rewrite !memcpy_at_out by nia. rewrite memcpy_at_in by nia. f_equal. lia.
    + rewrite memcpy_at_out by nia. rewrite memcpy_at_in by nia. f_equal. lia.
    + rewrite memcpy_at_in by nia. f_equal. lia.
  - cbv zeta. rewrite !memcpy_at_out by nia. apply IH. lia.
Qed.

(** X4.  [concatBuf] holds the merged weight of the rank in both layouts.
    When the sources hold the logical matrices [Q], [K] and [V] (transposed,
    [cols x hiddenSize], or row-major with row stride [qkvStride]), entry
    [(i, c)] of the buffer (at [c * hiddenSize + i], or at
    [i * responsibleCols + c]) is column [c] of the rank's query columns,
    then of its key columns, then of its value columns. *)
Theorem X4_concatBuf_is_merged_matrix (ctx : DecoderContext) (h : Heads)
    (Q K V : Z -> Z -> R) (qT kT vT qN kN vN fresh : Data) (i c : Z) :
  let hidden := hiddenSize ctx in
  let hs := attHeadSize ctx in
  let responsibleCols :=
    (endQHead h - startQHead h) * hs + 2 * ((endKVHead h - startKVHead h) * hs) in
  let qkvStride := (attHeadNum ctx + kvHeadNum ctx + kvHeadNum ctx) * hs in
  0 <= hs -> 0 <= qkvStride ->
  0 <= startQHead h <= endQHead h -> 0 <= startKVHead h <= endKVHead h ->
  (forall i c, 0 <= i < hidden -> 0 <= c < endQHead h * hs ->
     qT (Z.to_nat (c * hidden + i)) = Q i c /\ qN (Z.to_nat (i * qkvStride + c)) = Q i c) ->
  (forall i c, 0 <= i < hidden -> 0 <= c < endKVHead h * hs ->
     kT (Z.to_nat (c * hidden + i)) = K i c /\ kN (Z.to_nat (i * qkvStride + c)) = K i c) ->
  (forall i c, 0 <= i < hidden -> 0 <= c < endKVHead h * hs ->
     vT (Z.to_nat (c * hidden + i)) = V i c /\ vN (Z.to_nat (i * qkvStride + c)) = V i c) ->
  0 <= i < hidden -> 0 <= c < responsibleCols ->
  concatBuf true ctx h qT kT vT fresh (Z.to_nat (c * hidden + i)) = merged ctx h Q K V i c
  /\ concatBuf false ctx h qN kN vN fresh (Z.to_nat (i * responsibleCols + c))
     = merged ctx h Q K V i c.
Proof.
  intros hidden hs rc qkvStride Hhs Hst Hq Hkv HQ HK HV Hi Hc.
  unfold concatBuf, merged. cbv zeta. fold hidden hs qkvStride.
  set (q := (endQHead h - startQHead h) * hs) in *.
  set (kv := (endKVHead h - startKVHead h) * hs) in *.
  assert (Hq0 : 0 <= q) by (subst q; nia).
  assert (Hkv0 : 0 <= kv) by (subst kv; nia).
  split.
  - destruct (Z.ltb_spec c q) as [C1|C1]; [|destruct (Z.ltb_spec c (q + kv)) as [C2|C2]].
    + rewrite !memcpy_at_out by nia. rewrite memcpy_at_in by nia.
      destruct (HQ i (startQHead h * hs + c)) as [<- _]; [lia | subst q; nia |].
      f_equal. lia.
    + rewrite memcpy_at_out by nia. rewrite memcpy_at_in by nia.
      destruct (HK i (startKVHead h * hs + (c - q))) as [<- _]; [lia | subst q kv; nia |].
      f_equal. lia.
    + rewrite memcpy_at_in by nia.
      destruct (HV i (startKVHead h * hs + (c - q - kv))) as [<- _];
        [lia | subst rc q kv; nia |].
      f_equal. lia.
  - fold rc.
    replace (upto hidden) with (upto (Z.of_nat (Z.to_nat hidden)))
      by (rewrite Z2Nat.id by lia; reflexivity).
    rewrite (rows_fold qN kN vN fresh rc q kv qkvStride (startQHead h * hs)
               (startKVHead h * hs) (Z.to_nat hidden) i c) by (subst rc; nia).
    destruct (Z.ltb_spec c q) as [C1|C1]; [|destruct (Z.ltb_spec c (q + kv)) as [C2|C2]].
    + destruct (HQ i (startQHead h * hs + c)) as [_ <-]; [lia | subst q; nia |].
      f_equal. lia.
    + destruct (HK i (startKVHead h * hs + (c - q))) as [_ <-]; [lia | subst q kv; nia |].
      f_equal. lia.
    + destruct (HV i (startKVHead h * hs + (c - q - kv))) as [_ <-];
        [lia | subst rc q kv; nia |].
      f_equal. lia.
Qed.

(** Two ranks share three heads of size 1 with a hidden size of 2; rank 1
    owns head 2.  The three weights are constant matrices, and the entry
    looked at is the key column of row 1. *)
Definition ctx_concat : DecoderContext := mkCtx 2 4 3 3 1 1 1 2048 2048 2 1 4 1 1 0.

Lemma X4_concatBuf_is_merged_matrix_witness :
  concatBuf true ctx_concat (mkHeads 2 3 2 3)
            (fun _ => 1%R) (fun _ => 2%R) (fun _ => 3%R) (fun _ => 0%R) 3%nat = 2%R
  /\ concatBuf false ctx_concat (mkHeads 2 3 2 3)
               (fun _ => 1%R) (fun _ => 2%R) (fun _ => 3%R) (fun _ => 0%R) 4%nat = 2%R.
Proof.
  pose proof (X4_concatBuf_is_merged_matrix ctx_concat (mkHeads 2 3 2 3)
                (fun _ _ => 1%R) (fun _ _ => 2%R) (fun _ _ => 3%R)
                (fun _ => 1%R) (fun _ => 2%R) (fun _ => 3%R)
                (fun _ => 1%R) (fun _ => 2%R) (fun _ => 3%R) (fun _ => 0%R) 1 1) as H.
  cbv zeta in H. apply H; cbn; try lia; intros; split; reflexivity.
Defined.

End SetWeightsConcatFacts.

(** ** The merged scales and zero points *)

Module SetWeightsQuantFacts.
Import CInt HeadRange SetWeights SetWeightsQuant SetWeightsFacts.
Open Scope Z_scope.

Section Facts.
Context {A : Type}.

(** Three copies into a fresh array of [q + 2 * kv] elements. *)
Lemma three_copies (old : A) (qs ks vs : list A) (qo ko vo q kv : Z) :
  0 <= q -> 0 <= kv -> 0 <= qo -> 0 <= ko -> 0 <= vo ->
  qo + q <= Z.of_nat (length qs) ->
  ko + kv <= Z.of_nat (length ks) ->
  vo + kv <= Z.of_nat (length vs) ->
  (do s1 <- memcpy (Resize old (q + 2 * kv)) 0 qs qo q;
   do s2 <- memcpy s1 q ks ko kv;
   memcpy s2 (q + kv) vs vo kv)
  = Ret (slice qs qo (qo + q) ++ slice ks ko (ko + kv) ++ slice vs vo (vo + kv)).
Proof.
  intros Hq Hkv Hqo Hko Hvo Hlq Hlk Hlv. unfold slice.
  replace (qo + q - qo) with q by lia.
  replace (ko + kv - ko) with kv by lia.
  replace (vo + kv - vo) with kv by lia.
  set (Q := firstn (Z.to_nat q) (skipn (Z.to_nat qo) qs)).
  set (K := firstn (Z.to_nat kv) (skipn (Z.to_nat ko) ks)).
  set (V := firstn (Z.to_nat kv) (skipn (Z.to_nat vo) vs)).
  assert (HQ : length Q = Z.to_nat q) by (apply slice_length; lia).
  assert (HK : length K = Z.to_nat kv) by (apply slice_length; lia).
  assert (HV : length V = Z.to_nat kv) by (apply slice_length; lia).
  unfold Resize.
  rewrite memcpy_ok by (rewrite ?repeat_length; lia).
  cbn [rbind]. fold Q. change (Z.to_nat 0) with O. rewrite firstn_O, Z.add_0_l. cbn [app].
  set (b1 := Q ++ skipn (Z.to_nat q) (repeat old (Z.to_nat (q + 2 * kv)))).
  assert (Hb1 : length b1 = Z.to_nat (q + 2 * kv)).
  { subst b1. rewrite length_app, length_skipn, repeat_length. lia. }
  rewrite memcpy_ok by (rewrite ?Hb1; lia).
  cbn [rbind]. fold K.
  assert (E1 : firstn (Z.to_nat q) b1 = Q).
  { subst b1. apply take_app_length'. lia. }
  rewrite E1.
  set (b2 := Q ++ K ++ skipn (Z.to_nat (q + kv)) b1).
  assert (Hb2 : length b2 = Z.to_nat (q + 2 * kv)).
  { subst b2. rewrite !length_app, length_skipn. lia. }
  rewrite memcpy_ok by (rewrite ?Hb2; lia).
  fold V. f_equal.
  assert (E2 : firstn (Z.to_nat (q + kv)) b2 = Q ++ K).
  { subst b2. rewrite app_assoc. apply take_app_length'. rewrite length_app. lia. }
  rewrite E2.
  rewrite skipn_all2 by lia. rewrite app_nil_r, <- app_assoc. reflexivity.
Qed.

(** X5.  For [int8_t] weights, [concatScale] (and [concatZero], by the same
    copies) is the slice of the query scales of the rank's query heads, then
    the slice of the key scales and the slice of the value scales of its KV
    heads, whenever the three source arrays cover these heads; the query
    part starts at [startQHead * headSize]. *)
Theorem X5_concatScale_is_rank_slice (ctx : DecoderContext) (h : Heads) (old : A)
    (qs ks vs : list A) :
  0 <= attHeadSize ctx ->
  0 <= startQHead h <= endQHead h -> 0 <= startKVHead h <= endKVHead h ->
  endQHead h * attHeadSize ctx <= Z.of_nat (length qs) ->
  endKVHead h * attHeadSize ctx <= Z.of_nat (length ks) ->
  endKVHead h * attHeadSize ctx <= Z.of_nat (length vs) ->
  setWeights_concatScale ctx h old qs ks vs
  = Ret (slice qs (startQHead h * attHeadSize ctx) (endQHead h * attHeadSize ctx)
         ++ slice ks (startKVHead h * attHeadSize ctx) (endKVHead h * attHeadSize ctx)
         ++ slice vs (startKVHead h * attHeadSize ctx) (endKVHead h * attHeadSize ctx)).
Proof.
  intros Hhs Hq Hkv Hlq Hlk Hlv. unfold setWeights_concatScale. cbv zeta.
  set (hs := attHeadSize ctx) in *.
  rewrite three_copies by nia.
  repeat f_equal; lia.
Qed.

End Facts.

Lemma X5_concatScale_is_rank_slice_witness :
  setWeights_concatScale ctx_uneven (mkHeads 2 3 2 3) (-1)
    [10; 11; 12; 13; 14; 15] [20; 21; 22; 23; 24; 25] [30; 31; 32; 33; 34; 35]
  = Ret [14; 15; 24; 25; 34; 35].
Proof.
  apply (X5_concatScale_is_rank_slice ctx_uneven (mkHeads 2 3 2 3) (-1)
           [10; 11; 12; 13; 14; 15] [20; 21; 22; 23; 24; 25] [30; 31; 32; 33; 34; 35]);
    cbn; lia.
Defined.

End SetWeightsQuantFacts.

(** ** Outcomes of [Attention::forward] *)

Module ForwardOutcome.
Import CInt HeadRange MBlock Fused MM Mem Attention.
Open Scope Z_scope.

(** The messages with which [Attention::forward] can terminate the process. *)
Definition flash_msg : string := "Not supported Type in Flash Attention yet".
Definition self_msg : string :=
  "Error: encounter the case not supported in selfAttentionBF16.".

(** Every [Fatal] outcome of [m] carries one of the messages [msgs]. *)
Definition fatal_in {A : Type} (msgs : list string) (m : res A) : Prop :=
  forall msg : string, m = Fatal msg -> In msg msgs.

Lemma fatal_in_Ret {A} msgs (a : A) : fatal_in msgs (Ret a).
Proof. intros msg H. discriminate. Qed.

Lemma fatal_in_UB {A} msgs : fatal_in msgs (@UB A).
Proof. intros msg H. discriminate. Qed.

Lemma fatal_in_bind {A B} msgs (m : res A) (k : A -> res B) :
  fatal_in msgs m -> (forall a, fatal_in msgs (k a)) -> fatal_in msgs (rbind m k).
Proof.
  intros Hm Hk msg H. destruct m as [a|msg'|]; cbn in H.
  - exact (Hk a msg H).
  - injection H as <-. apply Hm. reflexivity.
  - discriminate.
Qed.

Lemma fatal_in_weaken {A} (msgs msgs' : list string) (m : res A) :
  fatal_in msgs m -> (forall x, In x msgs -> In x msgs') -> fatal_in msgs' m.
Proof. intros H Hi msg E. apply Hi, H, E. Qed.

Lemma fatal_in_cdiv msgs a b : fatal_in msgs (cdiv a b).
Proof. unfold cdiv. destruct (b =? 0); [apply fatal_in_UB | apply fatal_in_Ret]. Qed.

Lemma fatal_in_cmod msgs a b : fatal_in msgs (cmod a b).
Proof. unfold cmod. destruct (b =? 0); [apply fatal_in_UB | apply fatal_in_Ret]. Qed.

Lemma fatal_in_cint msgs z : fatal_in msgs (cint z).
Proof. unfold cint. destruct (_ && _); [apply fatal_in_Ret | apply fatal_in_UB]. Qed.

Lemma fatal_in_to_int msgs x : fatal_in msgs (F32.to_int x).
Proof.
  unfold F32.to_int. destruct x; try apply fatal_in_UB; try apply fatal_in_Ret.
  destruct (_ && _); [apply fatal_in_Ret | apply fatal_in_UB].
Qed.

Ltac fatal_step :=
  first [ apply fatal_in_Ret | apply fatal_in_UB | apply fatal_in_cdiv | apply fatal_in_cmod
        | apply fatal_in_cint | apply fatal_in_to_int
        | apply fatal_in_bind; [|intros ?] ].

Lemma fatal_in_getMBlockSize msgs sz S hs mn : fatal_in msgs (getMBlockSize sz S hs mn).
Proof.
  unfold getMBlockSize, f32_ceil_quot. cbv zeta.
  destruct (S =? 1); [apply fatal_in_Ret|].
  repeat fatal_step.
  - destruct (_ <=? _); repeat fatal_step.
  - destruct (_ <=? 0); [apply fatal_in_Ret|]. destruct (_ >? _); apply fatal_in_Ret.
Qed.

Lemma fatal_in_plan msgs sz lid ctx h past :
  fatal_in msgs (Fused.fusedAttention sz lid ctx h past).
Proof.
  unfold Fused.fusedAttention, select_mBlockSize. cbv zeta.
  repeat fatal_step.
  destruct (_ =? 0); [|apply fatal_in_Ret].
  destruct (_ =? 0); [apply fatal_in_getMBlockSize | apply fatal_in_Ret].
Qed.

Lemma fatal_in_prologue ctx h past :
  fatal_in [splits_msg; headSize_msg] (crossAttnShardHead_prologue ctx h past).
Proof.
  unfold crossAttnShardHead_prologue. cbv zeta.
  repeat fatal_step.
  destruct (negb _).
  - intros msg [= <-]. left. reflexivity.
  - repeat fatal_step. destruct (negb _); [|apply fatal_in_Ret].
    intros msg [= <-]. right. left. reflexivity.
Qed.

Section Outcome.

Variables InT ImT OutT AttnT : dtype.
Variable INPUT_AS_RESID : bool.
Variable flashThresh : Z.
Variables residentialScale scalingCoeff : R.
Variable pool : string -> addr.
Variable norm_forward : Data -> Data -> nat -> nat -> nat -> Data.
Variable qkpo_forward : Data -> list Z -> list Z -> Data.
Variable kernel_out : string -> list Data -> Data.

Lemma fatal_in_fused ctx att cb a st :
  fatal_in [splits_msg; headSize_msg]
           (Attention.fusedAttention ImT pool kernel_out ctx att cb a st).
Proof.
  unfold Attention.fusedAttention.
  apply fatal_in_bind; [apply fatal_in_plan | intros plan]. cbv zeta.
  apply fatal_in_bind; [|intros; apply fatal_in_Ret].
  destruct (plan_kernel plan).
  - unfold slimAttention. repeat fatal_step.
  - unfold crossAttnShardHead.
    apply fatal_in_bind; [apply fatal_in_prologue | intros; apply fatal_in_Ret].
Qed.

Lemma fatal_in_flash ctx att a st :
  fatal_in [flash_msg] (flashAttention ImT AttnT pool kernel_out ctx att a st).
Proof.
  unfold flashAttention. cbv zeta.
  apply fatal_in_bind; [|intros; apply fatal_in_Ret].
  destruct (dtype_eqb AttnT ImT); [apply fatal_in_Ret|].
  destruct (_ || _); [apply fatal_in_Ret|].
  intros msg [= <-]. left. reflexivity.
Qed.

(** X6.  [Attention::forward] can terminate the process with four messages
    only: the one of [flashAttention], the one of [selfAttentionBF16] and
    the two requirements of [crossAttnShardHead].  It stops in
    [selfAttentionBF16] exactly at a prefill ([pastSeqLen == 0]) of at most
    [flashThresh] tokens with [InT] and [OutT] both [bfloat16_t] on a rank
    whose numbers of query and KV heads differ. *)
Theorem X6_forward_fatal_outcomes (att : Layer) (cb : CtxBufs)
    (input imBuf output attnMask presentKey presentValue : addr)
    (inputSeqLen_arg pastSeqLen : Z) (useSelfAttn doLnBefore : bool)
    (positionIds : option (list Z)) (st : State) :
  let run :=
    forward InT ImT OutT AttnT INPUT_AS_RESID flashThresh residentialScale scalingCoeff
            pool norm_forward qkpo_forward kernel_out att cb input imBuf output attnMask
            presentKey presentValue inputSeqLen_arg pastSeqLen useSelfAttn doLnBefore
            positionIds st in
  let h := heads att in
  (forall msg : string, run = Fatal msg ->
     In msg [flash_msg; self_msg; splits_msg; headSize_msg])
  /\ (run = Fatal self_msg
      <-> pastSeqLen = 0 /\ inputSeqLen (st_ctx st) <= flashThresh
          /\ InT = BFloat16 /\ OutT = BFloat16
          /\ endKVHead h - startKVHead h <> endQHead h - startQHead h).
Proof.
  cbv zeta. unfold forward. cbv zeta.
  set (a := mkArgs _ _ _ _ _ _).
  set (st3 := mkState _ _ _).
  set (ctx := st_ctx st).
  set (post := fun st4 : State => Ret _).
  assert (Hbind : forall (k : res State) (msg : string),
            rbind k post = Fatal msg <-> k = Fatal msg).
  { intros k msg. destruct k; cbn; subst post; cbn; split; congruence. }
  assert (Hself :
    selfAttentionBF16 kernel_out ctx att a st3 = Fatal self_msg
    <-> endKVHead (heads att) - startKVHead (heads att)
        <> endQHead (heads att) - startQHead (heads att)).
  { unfold selfAttentionBF16. cbv zeta.
    destruct (Z.eqb_spec (endKVHead (heads att) - startKVHead (heads att))
                         (endQHead (heads att) - startQHead (heads att))) as [E|E];
      cbn [negb]; split; try congruence; try reflexivity. }
  split.
  - intros msg H. apply (proj1 (Hbind _ _)) in H. unfold dispatchAttention in H.
    destruct (pastSeqLen =? 0);
      [destruct (inputSeqLen ctx >? flashThresh);
         [|destruct (is_bfloat16 InT && is_bfloat16 OutT)]|].
    + apply fatal_in_flash in H. destruct H as [<-|[]]. left. reflexivity.
    + unfold selfAttentionBF16 in H. destruct (negb _) in H; [|discriminate].
      injection H as <-. right. left. reflexivity.
    + apply fatal_in_fused in H. right. right. exact H.
    + apply fatal_in_fused in H. right. right. exact H.
  - rewrite Hbind. unfold dispatchAttention.
    destruct (Z.eqb_spec pastSeqLen 0) as [Hp|Hp].
    + destruct (Z.gtb_spec (inputSeqLen ctx) flashThresh) as [Hf|Hf].
      * split.
        -- intros H. apply fatal_in_flash in H. destruct H as [H|[]]. discriminate H.
        -- intros (_ & H & _). lia.
      * destruct InT, OutT; cbn [is_bfloat16 andb];
          try (split; [intros H; apply fatal_in_fused in H;
                       destruct H as [H|[H|[]]]; discriminate H
                      | intros (_ & _ & H1 & H2 & _); congruence]).
        rewrite Hself. split; [intros H; repeat split; auto | intros (_ & _ & _ & _ & H); exact H].
    + split.
      * intros H. apply fatal_in_fused in H. destruct H as [H|[H|[]]]; discriminate H.
      * intros (H & _). contradiction.
Qed.

(** X7.  When [Attention::forward] returns, the only field of the context
    it may have changed is [reserved1] (the block size), and it has changed
    nothing when the kernel was [flashAttention] or [selfAttentionBF16];
    [ctx->attFactor] is [getScalingCoeff()] when that is not zero, and is
    unchanged otherwise. *)
Theorem X7_forward_changes_only_the_block_size (att : Layer) (cb : CtxBufs)
    (input imBuf output attnMask presentKey presentValue : addr)
    (inputSeqLen_arg pastSeqLen : Z) (useSelfAttn doLnBefore : bool)
    (positionIds : option (list Z)) (st st' : State) :
  forward InT ImT OutT AttnT INPUT_AS_RESID flashThresh residentialScale scalingCoeff
          pool norm_forward qkpo_forward kernel_out att cb input imBuf output attnMask
          presentKey presentValue inputSeqLen_arg pastSeqLen useSelfAttn doLnBefore
          positionIds st = Ret st' ->
  st_ctx st' = set_reserved1 (st_ctx st) (reserved1 (st_ctx st'))
  /\ (dispatchAttention InT OutT flashThresh (st_ctx st) pastSeqLen false false true = false ->
      st_ctx st' = st_ctx st)
  /\ st_attFactor st'
     = (if Req_dec_T scalingCoeff 0%R then st_attFactor st else scalingCoeff).
Proof.
  unfold forward. cbv zeta.
  set (a := mkArgs _ _ _ _ _ _).
  set (st3 := mkState _ _ _).
  set (ctx := st_ctx st).
  intros H.
  destruct (dispatchAttention InT OutT flashThresh ctx pastSeqLen _ _ _) as [st4| |] eqn:Ek;
    cbn [rbind] in H; try discriminate.
  injection H as <-. cbn [st_ctx st_attFactor].
  assert (Hsame : forall c : DecoderContext, c = set_reserved1 c (reserved1 c))
    by (intros []; reflexivity).
  unfold dispatchAttention in Ek |- *.
  assert (Hfused : forall st4,
    Attention.fusedAttention ImT pool kernel_out ctx att cb a st3 = Ret st4 ->
    st_ctx st4 = set_reserved1 ctx (reserved1 (st_ctx st4))
    /\ st_attFactor st4 = st_attFactor st3).
  { intros s4 E. unfold Attention.fusedAttention in E.
    destruct (Fused.fusedAttention _ _ _ _ _) as [plan| |]; cbn [rbind] in E; try discriminate.
    cbv zeta in E.
    match type of E with rbind ?m _ = _ => destruct m; cbn [rbind] in E; try discriminate end.
    injection E as <-. cbn [st_ctx st_attFactor]. split; reflexivity. }
  assert (Hflash : forall st4,
    flashAttention ImT AttnT pool kernel_out ctx att a st3 = Ret st4 ->
    st_ctx st4 = ctx /\ st_attFactor st4 = st_attFactor st3).
  { intros s4 E. unfold flashAttention in E. cbv zeta in E.
    match type of E with rbind ?m _ = _ => destruct m; cbn [rbind] in E; try discriminate end.
    injection E as <-. split; reflexivity. }
  assert (Hself : forall st4,
    selfAttentionBF16 kernel_out ctx att a st3 = Ret st4 ->
    st_ctx st4 = ctx /\ st_attFactor st4 = st_attFactor st3).
  { intros s4 E. unfold selfAttentionBF16 in E. cbv zeta in E.
    destruct (negb _) in E; [discriminate|]. injection E as <-. split; reflexivity. }
  destruct (pastSeqLen =? 0);
    [destruct (inputSeqLen ctx >? flashThresh);
       [|destruct (is_bfloat16 InT && is_bfloat16 OutT)]|].
  - destruct (Hflash _ Ek) as [-> ->]. repeat split; auto.
  - destruct (Hself _ Ek) as [-> ->]. repeat split; auto.
  - destruct (Hfused _ Ek) as [E ->]. split; [exact E|]. split; [discriminate | reflexivity].
  - destruct (Hfused _ Ek) as [E ->]. split; [exact E|]. split; [discriminate | reflexivity].
Qed.


End Outcome.

(** A decode step of eight heads on four threads, which does not shard the
    heads, on the first layer of its stage. *)
Definition ctx_decode : DecoderContext :=
  mkCtx 128 352 8 8 16 1 1 2048 2048 1 0 4 1 4 0.

Definition decode_layer : Layer :=
  mkLayer 0 (mkHeads 0 8 0 8) (mkWeight (fun _ _ => 0%R) 0 0) []
          (mkWeight (fun _ _ => 0%R) 0 0) [].

Definition decode_run : res State :=
  forward Float32 Float32 Float32 Float32 true 1024 1%R 0%R
    (fun _ => 20%positive) (fun _ out _ _ _ => out) (fun d _ _ => d)
    (fun _ l => hd (fun _ => 0%R) l)
    decode_layer (mkCtxBufs 10%positive 11%positive 0) 1%positive 2%positive 3%positive
    4%positive 5%positive 6%positive 1 8 false true None (mkState ctx_decode ∅ 1%R).


Lemma decode_run_returns : exists st' : State, decode_run = Ret st'.
Proof. eexists. reflexivity. Qed.

Lemma X7_forward_changes_only_the_block_size_witness :
  exists st' : State,
    decode_run = Ret st'
    /\ st_ctx st' = set_reserved1 ctx_decode (reserved1 (st_ctx st'))
    /\ st_attFactor st' = 1%R.
Proof.
  destruct decode_run_returns as [st' E]. exists st'. split; [exact E|].
  destruct (X7_forward_changes_only_the_block_size Float32 Float32 Float32 Float32 true
              1024 1%R 0%R (fun _ => 20%positive) (fun _ out _ _ _ => out) (fun d _ _ => d)
              (fun _ l => hd (fun _ => 0%R) l)
              decode_layer (mkCtxBufs 10%positive 11%positive 0) 1%positive 2%positive
              3%positive 4%positive 5%positive 6%positive 1 8 false true None
              (mkState ctx_decode ∅ 1%R) st' E) as (H1 & _ & H3).
  split; [exact H1|]. rewrite H3. cbn [st_attFactor].
  destruct (Req_dec_T 0 0) as [_|Hne]; [reflexivity | contradiction Hne; reflexivity].
Defined.

End ForwardOutcome.

(** ** Sequences that [getMBlockSize] does not split *)

Module NoSplitFacts.
Import CInt CIntFacts F32 MBlock F32Facts MBlockFacts.
Open Scope Z_scope.

(** The float of an integer below [2^24], which is exact: a mantissa of 24
    digits and the exponent that goes with it. *)
Definition exact_int (z : Z) (x : spec_float) : Prop :=
  exists (m : positive) (e : Z),
    x = S754_finite false m e /\ digits2_pos m = 24%positive
    /\ -23 <= e <= 0 /\ Zpos m = z * 2 ^ (- e).

Lemma of_int_exact (z : Z) : 1 <= z < 2 ^ 24 -> exact_int z (of_int z).
Proof.
  intros [Hl Hu]. unfold of_int, binary_normalize. destruct z as [|m|m]; try lia.
  unfold binary_round.
  pose proof (digits2_pos_bounds m) as [Dl Du].
  assert (Hd : 1 <= Zpos (digits2_pos m) <= 24).
  { split; [lia|]. apply (Zdigits2_le (Zpos m) 24); lia. }
  assert (Hf : fexp prec emax (Zpos (digits2_pos m) + 0) = Zpos (digits2_pos m) - 24)
    by (unfold fexp, emin, prec, emax; lia).
  rewrite Hf.
  pose proof (shl_align_spec m 0 (Zpos (digits2_pos m) - 24)) as (S1 & S2 & S3).
  destruct (shl_align m 0 (Zpos (digits2_pos m) - 24)) as [mz ez].
  cbn [fst snd] in S1, S2, S3.
  rewrite <- S1 in S2, S3. rewrite Z.min_r in S1 by lia.
  rewrite binary_round_aux_canonical by lia.
  exists mz, ez. split; [reflexivity|]. split; [lia|]. split; [lia|].
  rewrite S2. replace (0 - ez) with (- ez) by lia. reflexivity.
Qed.

Lemma mul_one_exact (m : positive) (e : Z) :
  digits2_pos m = 24%positive -> -23 <= e <= 0 ->
  mul one (S754_finite false m e) = S754_finite false m e.
Proof.
  intros Hd He. unfold mul. rewrite one_eq. cbn [SFmul xorb].
  change (8388608 * m)%positive
    with (m~0~0~0~0~0~0~0~0~0~0~0~0~0~0~0~0~0~0~0~0~0~0~0)%positive.
  assert (D47 : digits2_pos (m~0~0~0~0~0~0~0~0~0~0~0~0~0~0~0~0~0~0~0~0~0~0~0) = 47%positive)
    by (cbn [digits2_pos]; rewrite Hd; reflexivity).
  unfold binary_round_aux, shr_fexp. cbn [Zdigits2]. rewrite D47.
  assert (E : fexp prec emax (47 + (-23 + e)) - (-23 + e) = 23)
    by (unfold fexp, emin, prec, emax; lia).
  rewrite E.
  cbn [shr shr_record_of_loc SpecFloat.iter_pos shr_1 orb shr_m loc_of_shr_record
       round_nearest_even Zdigits2].
  rewrite Hd.
  assert (E2 : fexp prec emax (24 + (-23 + e + 23)) - (-23 + e + 23) = 0)
    by (unfold fexp, emin, prec, emax; lia).
  rewrite E2. cbn [shr shr_record_of_loc shr_m].
  destruct (Z.leb_spec (-23 + e + 23) (emax - prec)); [|unfold emax, prec in *; lia].
  f_equal. lia.
Qed.

Lemma div_below_one (num den : Z) (x y : spec_float) :
  exact_int num x -> exact_int den y -> 1 <= num < den ->
  bounded_by 0 (div x y).
Proof.
  intros (mx & ex & -> & Hdx & Hex & Hmx) (my & ey & -> & Hdy & Hey & Hmy) Hlt.
  unfold div. cbn [SFdiv xorb]. unfold SFdiv_core_binary. cbn [Zdigits2].
  rewrite Hdx, Hdy.
  assert (E : Z.min (fexp prec emax (24 + ex - (24 + ey))) (ex - ey) = ex - ey - 24)
    by (unfold fexp, emin, prec, emax; lia).
  rewrite E. replace (ex - ey - (ex - ey - 24)) with 24 by lia.
  rewrite Z.shiftl_mul_pow2 by lia.
  pose proof (Z.div_eucl_eq (Zpos mx * 2 ^ 24) (Zpos my) ltac:(lia)) as Hdiv.
  pose proof (Z.mod_pos_bound (Zpos mx * 2 ^ 24) (Zpos my) ltac:(lia)) as Hmod.
  unfold Z.modulo in Hmod.
  destruct (Z.div_eucl (Zpos mx * 2 ^ 24) (Zpos my)) as [q r].
  assert (Hq0 : 0 <= q) by nia.
  (* the values: mx * 2^ex < my * 2^ey, with exponents moved to the left *)
  pose proof (pow2_pos (- ex) ltac:(lia)) as Pex.
  pose proof (pow2_pos (- ey) ltac:(lia)) as Pey.
  assert (Hval : Zpos mx * 2 ^ (- ey) < Zpos my * 2 ^ (- ex)).
  { rewrite Hmx, Hmy. nia. }
  assert (Hq : q * 2 ^ (- ey) < 2 ^ 24 * 2 ^ (- ex)).
  { assert (q * Zpos my <= Zpos mx * 2 ^ 24) by lia.
    assert (q * Zpos my * 2 ^ (- ey) < Zpos my * (2 ^ 24 * 2 ^ (- ex))) by nia.
    nia. }
  apply binary_round_aux_bounded; try lia.
  replace (0 - (ex - ey - 24)) with ((24 + - ex) - - ey) by lia.
  assert (Hsplit : 2 ^ (24 + - ex) = 2 ^ (24 + - ex - - ey) * 2 ^ (- ey)).
  { rewrite <- pow2_split by lia. f_equal. lia. }
  rewrite pow2_split in Hsplit by lia.
  pose proof (pow2_pos (24 + - ex - - ey) ltac:(lia)).
  nia.
Qed.

Lemma ceil_to_int_below_one (x : spec_float) :
  bounded_by 0 x -> to_int (ceil x) = Ret 0 \/ to_int (ceil x) = Ret 1.
Proof.
  intros Hx. destruct x as [s|s| |s m e]; cbn [bounded_by] in Hx; try contradiction.
  - left. reflexivity.
  - destruct s; [contradiction|]. destruct Hx as [He Hm]. right. cbn [ceil].
    assert (Hc : ceil_Z false m e = 1).
    { unfold ceil_Z. destruct (Z.leb_spec 0 e).
      - assert (e = 0) by lia. subst e. cbn in Hm. change (2 ^ 0) with 1. lia.
      - pose proof (pow2_pos (- e) ltac:(lia)) as Hp.
        replace (0 - e) with (- e) in Hm by lia.
        assert (- Zpos m / 2 ^ (- e) = -1); [|lia].
        symmetry. apply Z.div_unique with (2 ^ (- e) - Zpos m); lia. }
    rewrite Hc. reflexivity.
Qed.

(** X9.  [getMBlockSize] does not split a sequence whose data fits the
    cache: when [2 * qkvSize + scoreSize < capacity - 2 * qkvSize], with
    [capacity = 2 MiB / sizeof(ImT)], the quotient computed in [float] is
    below one, [splits] is 1 and the block size is [inputSeqLen]. *)
Theorem X9_getMBlockSize_keeps_a_sequence_that_fits (sizeofImT S headSize minVal : Z) :
  let capacity := Z.quot (2 * 1024 * 1024) sizeofImT in
  1 <= sizeofImT -> 1 <= S -> 0 <= headSize ->
  2 * (2 * (S * headSize)) + S * S < capacity ->
  getMBlockSize sizeofImT S headSize minVal = Ret S.
Proof.
  intros capacity Hsz HS Hh Hfit. unfold getMBlockSize. fold capacity.
  destruct (Z.eqb_spec S 1) as [->|HS1]; [reflexivity|].
  assert (Hcap : 0 <= capacity <= 2097152).
  { subst capacity. rewrite quot_div_nonneg by lia. split.
    - apply Z.div_pos; lia.
    - apply Z.div_le_upper_bound; [lia | nia]. }
  assert (Hqkv : 0 <= S * headSize) by nia.
  assert (HSS : 1 <= S * S) by nia.
  rewrite (cint_ok (S * headSize)) by lia. cbn [rbind].
  rewrite (cint_ok (S * S)) by lia. cbn [rbind].
  rewrite cdiv_pos by lia. cbn [rbind]. fold capacity.
  rewrite (cint_ok (2 * (S * headSize))) by lia. cbn [rbind].
  destruct (Z.leb_spec capacity (2 * (S * headSize))); [lia|].
  rewrite (cint_ok (2 * (S * headSize) + S * S)) by lia. cbn [rbind].
  rewrite (cint_ok (capacity - 2 * (S * headSize))) by lia. cbn [rbind].
  set (num := 2 * (S * headSize) + S * S). set (den := capacity - 2 * (S * headSize)).
  assert (Hnum : 1 <= num < 2 ^ 24) by (change (2 ^ 24) with 16777216; subst num; lia).
  assert (Hden : 1 <= den < 2 ^ 24) by (change (2 ^ 24) with 16777216; subst den; lia).
  pose proof (of_int_exact num Hnum) as Hx.
  pose proof (of_int_exact den Hden) as Hy.
  assert (Hm1 : mul one (of_int num) = of_int num).
  { destruct Hx as (m & e & -> & Hd & He & _). apply mul_one_exact; assumption. }
  unfold f32_ceil_quot. rewrite Hm1.
  pose proof (div_below_one num den _ _ Hx Hy ltac:(subst num den; lia)) as Hb.
  assert (Hfin : forall s0, s0 = 0 \/ s0 = 1 ->
    (let splits := if s0 <=? 0 then 1 else s0 in
     do t <- cint (S + splits);
     do mBlockSize <- cdiv (t - 1) splits;
     if mBlockSize <=? 0 then Ret (if S >? minVal then minVal else S)
     else if mBlockSize >? S then Ret S else Ret mBlockSize) = Ret S).
  { intros s0 Hs0. cbv zeta.
    assert (Hsp : (if s0 <=? 0 then 1 else s0) = 1) by (destruct Hs0; subst s0; reflexivity).
    rewrite Hsp. rewrite cint_ok by lia. cbn [rbind].
    rewrite cdiv_pos by lia. cbn [rbind]. rewrite Z.quot_1_r.
    replace (S + 1 - 1) with S by lia.
    destruct (Z.leb_spec S 0); [lia|]. rewrite Z.gtb_ltb, Z.ltb_irrefl. reflexivity. }
  destruct (ceil_to_int_below_one _ Hb) as [-> | ->]; cbn [rbind].
  - apply (Hfin 0). left. reflexivity.
  - apply (Hfin 1). right. reflexivity.
Qed.

Lemma X9_getMBlockSize_keeps_a_sequence_that_fits_witness :
  getMBlockSize 4 64 16 6 = Ret 64.
Proof.
  apply X9_getMBlockSize_keeps_a_sequence_that_fits; [lia | lia | lia | vm_compute; reflexivity].
Defined.

End NoSplitFacts.

(** ** The block size of an empty prompt *)

Module EmptyPrefill.
Import CInt CIntFacts HeadRange MBlock Fused Mem Attention.
Open Scope Z_scope.

Lemma getMBlockSize_empty (ImT : dtype) (headSize : Z) :
  getMBlockSize (sizeof ImT) 0 headSize 6 = Ret 0.
Proof.
  unfold getMBlockSize. change (0 =? 1) with false. cbv iota. cbv zeta.
  rewrite Z.mul_0_l. destruct ImT; vm_compute; reflexivity.
Qed.

(** X10.  A prefill with [ctx->inputSeqLen == 0] on the first layer of a
    pipeline stage chooses the block size 0 ([getMBlockSize] returns
    [inputSeqLen] when the block size it computed is not positive), and
    [slimAttention] then divides by it. *)
Theorem X10_prefill_of_an_empty_sequence_is_undefined
    (ImT : dtype) (pool : string -> addr) (kernel_out : string -> list MM.Data -> MM.Data)
    (ctx : DecoderContext) (att : Layer) (cb : CtxBufs) (a : KernelArgs) (st : State) :
  inputSeqLen ctx = 0 -> a_pastSeqLen a = 0 ->
  kvHeadNum ctx <> 0 -> ppSize ctx <> 0 -> Z.quot (layers ctx) (ppSize ctx) <> 0 ->
  Z.rem (layerId att) (Z.quot (layers ctx) (ppSize ctx)) = 0 ->
  select_mBlockSize (sizeof ImT) (layerId att) ctx 0 = Ret 0
  /\ Attention.fusedAttention ImT pool kernel_out ctx att cb a st = UB.
Proof.
  intros HS Hp Hkv Hpp Hq Hl.
  assert (Hsel : select_mBlockSize (sizeof ImT) (layerId att) ctx 0 = Ret 0).
  { unfold select_mBlockSize.
    rewrite cdiv_nonzero by assumption. cbn [rbind].
    rewrite cmod_nonzero by assumption. cbn [rbind].
    rewrite Hl, HS. cbn [Z.eqb]. apply getMBlockSize_empty. }
  split; [exact Hsel|].
  unfold Attention.fusedAttention, Fused.fusedAttention. rewrite Hp, Hsel.
  rewrite (cdiv_nonzero (attHeadNum ctx)) by assumption. cbn [rbind].
  assert (Hsh : shardHead ctx (heads att) = false) by (unfold shardHead; rewrite HS; reflexivity).
  rewrite Hsh. cbn [negb plan_kernel plan_mBlockSize plan_kvCopied].
  unfold slimAttention. cbn [attHeadNum kvHeadNum set_reserved1].
  rewrite (cdiv_nonzero (attHeadNum ctx)) by assumption. cbn [rbind].
  reflexivity.
Qed.

(** Scenario S2 with an empty prompt. *)
Definition ctx_empty : DecoderContext :=
  mkCtx 128 352 8 8 16 2 0 2048 2048 1 0 48 1 4 0.

Lemma X10_prefill_of_an_empty_sequence_is_undefined_witness :
  select_mBlockSize 4 0 ctx_empty 0 = Ret 0
  /\ Attention.fusedAttention Float32 (fun _ => 20%positive) (fun _ l => hd (fun _ => 0%R) l)
       ctx_empty
       (mkLayer 0 (mkHeads 0 8 0 8) (MM.mkWeight (fun _ _ => 0%R) 0 0) []
                (MM.mkWeight (fun _ _ => 0%R) 0 0) [])
       (mkCtxBufs 10%positive 11%positive 0)
       (mkArgs 10%positive 2%positive 5%positive 6%positive 4%positive 0)
       (mkState ctx_empty ∅ 1%R)
     = UB.
Proof.
  refine (X10_prefill_of_an_empty_sequence_is_undefined Float32 (fun _ => 20%positive)
            (fun _ l => hd (fun _ => 0%R) l) ctx_empty
            (mkLayer 0 (mkHeads 0 8 0 8) (MM.mkWeight (fun _ _ => 0%R) 0 0) []
                     (MM.mkWeight (fun _ _ => 0%R) 0 0) [])
            (mkCtxBufs 10%positive 11%positive 0)
            (mkArgs 10%positive 2%positive 5%positive 6%positive 4%positive 0)
            (mkState ctx_empty ∅ 1%R) _ _ _ _ _ _);
    (discriminate || reflexivity).
Defined.

End EmptyPrefill.

(** ** A block size that was never chosen *)

Module StaleBlockSize.
Import CInt CIntFacts HeadRange MBlock Fused Mem Attention.
Open Scope Z_scope.

(** X11.  [fusedAttention] only sets the block size on the first layer of
    a pipeline stage.  On another layer, with [ctx->reserved1] still 0 and
    no sharding of the heads, [slimAttention] divides by zero. *)
Theorem X11_fusedAttention_undefined_without_block_size
    (ImT : dtype) (pool : string -> addr) (kernel_out : string -> list MM.Data -> MM.Data)
    (ctx : DecoderContext) (att : Layer) (cb : CtxBufs) (a : KernelArgs) (st : State) :
  kvHeadNum ctx <> 0 -> ppSize ctx <> 0 -> Z.quot (layers ctx) (ppSize ctx) <> 0 ->
  Z.rem (layerId att) (Z.quot (layers ctx) (ppSize ctx)) <> 0 ->
  reserved1 ctx = 0 ->
  shardHead ctx (heads att) = false ->
  Attention.fusedAttention ImT pool kernel_out ctx att cb a st = UB.
Proof.
  intros Hkv Hpp Hq Hl Hr Hsh.
  unfold Attention.fusedAttention, Fused.fusedAttention, select_mBlockSize.
  rewrite (cdiv_nonzero (attHeadNum ctx)) by assumption. cbn [rbind].
  rewrite cdiv_nonzero by assumption. cbn [rbind].
  rewrite cmod_nonzero by assumption. cbn [rbind].
  destruct (Z.eqb_spec (Z.rem (layerId att) (Z.quot (layers ctx) (ppSize ctx))) 0);
    [contradiction|].
  cbn [rbind]. rewrite Hsh, Hr. cbn [negb plan_kernel plan_mBlockSize plan_kvCopied].
  unfold slimAttention. cbn [attHeadNum kvHeadNum set_reserved1].
  rewrite (cdiv_nonzero (attHeadNum ctx)) by assumption. cbn [rbind].
  reflexivity.
Qed.

(** Layer 1 of a four-layer stage, called before layer 0 has chosen the
    block size. *)
Lemma X11_fusedAttention_undefined_without_block_size_witness :
  Attention.fusedAttention Float32 (fun _ => 20%positive) (fun _ l => hd (fun _ => 0%R) l)
    MBlockFacts.ctx_S2
    (mkLayer 1 (mkHeads 0 8 0 8) (MM.mkWeight (fun _ _ => 0%R) 0 0) []
             (MM.mkWeight (fun _ _ => 0%R) 0 0) [])
    (mkCtxBufs 10%positive 11%positive 0)
    (mkArgs 10%positive 2%positive 5%positive 6%positive 4%positive 0)
    (mkState MBlockFacts.ctx_S2 ∅ 1%R)
  = UB.
Proof.
  apply X11_fusedAttention_undefined_without_block_size;
    [discriminate | discriminate | discriminate | discriminate | reflexivity | reflexivity].
Defined.

End StaleBlockSize.

(** ** Blocks and score rows of [slimAttention] *)

Module SlimFacts.
Import CInt CIntFacts HeadRange MBlock Fused Slim.
Open Scope Z_scope.

Lemma mBlockNum_eq (ctx : DecoderContext) (mBlockSize : Z) :
  1 <= inputSeqLen ctx -> 1 <= mBlockSize ->
  mBlockNum ctx mBlockSize = Ret ((inputSeqLen ctx + mBlockSize - 1) / mBlockSize).
Proof.
  intros HS Hm. unfold mBlockNum. rewrite cdiv_pos by lia.
  rewrite quot_div_nonneg by lia. reflexivity.
Qed.

Lemma ceil_quot_bounds (S m : Z) :
  1 <= S -> 1 <= m ->
  let n := (S + m - 1) / m in
  1 <= n /\ (n - 1) * m < S <= n * m.
Proof.
  intros HS Hm n.
  pose proof (Z.div_mod (S + m - 1) m ltac:(lia)) as Hd.
  pose proof (Z.mod_pos_bound (S + m - 1) m ltac:(lia)) as Hb.
  fold n in Hd.
  assert (1 <= n) by (apply Z.div_le_lower_bound; lia).
  split; [assumption|]. nia.
Qed.

(** X16.  For [inputSeqLen >= 1] and [mBlockSize >= 1], [slimAttention] has
    [mBlockNum >= 1] blocks; each is a non-empty range of at most
    [mBlockSize] rows that ends where the next one starts, the last one ends
    at [inputSeqLen], and the query row [seq] is in block [seq / mBlockSize]
    and in no other. *)
Theorem X16_mBlocks_tile_the_query_rows (ctx : DecoderContext) (mBlockSize : Z) :
  1 <= inputSeqLen ctx -> 1 <= mBlockSize ->
  exists n : Z,
    mBlockNum ctx mBlockSize = Ret n
    /\ 1 <= n
    /\ (forall mb : Z, 0 <= mb < n ->
          let '(startSeq, endSeq) := mBlock ctx mBlockSize mb in
          0 <= startSeq < endSeq
          /\ endSeq - startSeq <= mBlockSize
          /\ endSeq = (if mb =? n - 1 then inputSeqLen ctx
                       else fst (mBlock ctx mBlockSize (mb + 1))))
    /\ (forall seq : Z, 0 <= seq < inputSeqLen ctx ->
          forall mb : Z, 0 <= mb < n ->
            (fst (mBlock ctx mBlockSize mb) <= seq < snd (mBlock ctx mBlockSize mb)
             <-> mb = seq / mBlockSize)).
Proof.
  intros HS Hm. set (S := inputSeqLen ctx) in *.
  exists ((S + mBlockSize - 1) / mBlockSize).
  split; [apply mBlockNum_eq; assumption|].
  destruct (ceil_quot_bounds S mBlockSize HS Hm) as [Hn Hb].
  set (n := (S + mBlockSize - 1) / mBlockSize) in *.
  split; [exact Hn|].
  assert (Hblk : forall mb, 0 <= mb < n ->
            mBlock ctx mBlockSize mb
            = (mb * mBlockSize, if mb =? n - 1 then S else (mb + 1) * mBlockSize)).
  { intros mb Hmb. unfold mBlock. fold S. f_equal.
    destruct (Z.eqb_spec mb (n - 1)) as [->|Hne].
    - destruct (Z.ltb_spec ((n - 1) * mBlockSize + mBlockSize) S); [nia | reflexivity].
    - destruct (Z.ltb_spec (mb * mBlockSize + mBlockSize) S); [lia | nia]. }
  split.
  - intros mb Hmb. rewrite (Hblk mb Hmb).
    destruct (Z.eqb_spec mb (n - 1)) as [->|Hne].
    + repeat split; nia.
    + unfold mBlock. cbn [fst]. repeat split; nia.
  - intros seq Hseq mb Hmb. rewrite (Hblk mb Hmb). cbn [fst snd].
    pose proof (Z.div_mod seq mBlockSize ltac:(lia)) as Hd.
    pose proof (Z.mod_pos_bound seq mBlockSize ltac:(lia)) as Hr.
    destruct (Z.eqb_spec mb (n - 1)) as [->|Hne]; split.
    + intros [H1 H2]. apply Z.div_unique with (seq - (n - 1) * mBlockSize); nia.
    + intros E. nia.
    + intros [H1 H2]. apply Z.div_unique with (seq - mb * mBlockSize); nia.
    + intros E. nia.
Qed.

Lemma X16_mBlocks_tile_the_query_rows_witness :
  exists n : Z,
    mBlockNum MBlockFacts.ctx_S2 24 = Ret n
    /\ mBlock MBlockFacts.ctx_S2 24 (n - 1) = (48, 64).
Proof.
  destruct (X16_mBlocks_tile_the_query_rows MBlockFacts.ctx_S2 24) as (n & Hn & _);
    [cbn; lia | lia |].
  exists n. split; [exact Hn|].
  vm_compute in Hn. injection Hn as <-. reflexivity.
Defined.




(** X12.  When [fusedAttention] leaves the copy to the kernel
    ([kvCopied == false]), the kernel is [slimAttention], there are at least
    as many KV heads as query heads, and there is one block per head, which
    covers all the query rows: every task copies its head once. *)
Theorem X12_in_kernel_copy_means_one_block (sizeofImT layerId : Z) (ctx : DecoderContext)
    (h : Heads) (pastSeqLen : Z) (plan : FusedPlan) :
  1 <= inputSeqLen ctx ->
  fusedAttention sizeofImT layerId ctx h pastSeqLen = Ret plan ->
  plan_kvCopied plan = false ->
  plan_kernel plan = SlimAttention
  /\ attHeadNum ctx <= kvHeadNum ctx
  /\ mBlockNum ctx (plan_mBlockSize plan) = Ret 1
  /\ mBlock ctx (plan_mBlockSize plan) 0 = (0, inputSeqLen ctx).
Proof.
  intros HS Hp Hc. unfold fusedAttention in Hp.
  destruct (cdiv (attHeadNum ctx) (kvHeadNum ctx)); cbn [rbind] in Hp; try discriminate.
  destruct (select_mBlockSize sizeofImT layerId ctx pastSeqLen) as [mb| |];
    cbn [rbind] in Hp; try discriminate.
  injection Hp as <-. cbn [plan_kvCopied plan_kernel plan_mBlockSize] in *.
  apply orb_false_iff in Hc as [Hc Hsh]. apply orb_false_iff in Hc as [Hkv Hmb].
  rewrite Hsh. cbn [negb].
  apply Z.ltb_ge in Hkv. apply negb_false_iff, Z.eqb_eq in Hmb. subst mb.
  split; [reflexivity|]. split; [exact Hkv|]. split.
  - rewrite mBlockNum_eq by lia. f_equal.
    symmetry. apply Z.div_unique with (inputSeqLen ctx - 1); lia.
  - unfold mBlock. cbv zeta. rewrite Z.mul_0_l, Z.add_0_l, Z.ltb_irrefl. reflexivity.
Qed.

Lemma X12_in_kernel_copy_means_one_block_witness :
  mBlockNum MBlockFacts.ctx_S2 64 = Ret 1.
Proof.
  apply (X12_in_kernel_copy_means_one_block 4 0 MBlockFacts.ctx_S2 (mkHeads 0 8 0 8) 0
           (mkPlan 64 false SlimAttention));
    [cbn; lia | vm_compute; reflexivity | reflexivity].
Defined.

End SlimFacts.

(** ** What the copies leave in the KV cache *)

Module KVCopyFacts.
Import HeadRange MM Loops KVCopy.
Open Scope Z_scope.

Lemma in_upto (n i : Z) : In i (upto n) <-> 0 <= i < n.
Proof.
  unfold upto. rewrite in_map_iff. split.
  - intros (k & <- & Hk). apply in_seq in Hk. lia.
  - intros Hi. exists (Z.to_nat i). split; [lia|]. apply in_seq. lia.
Qed.

Lemma u64_small (n : Z) : 0 <= n < 2 ^ 64 -> u64 n = n.
Proof. intros H. unfold u64. now rewrite Z.mod_small. Qed.

Lemma upto_u64_small (n : Z) : 0 <= n < 2 ^ 64 -> upto_u64 n = upto n.
Proof. intros H. unfold upto_u64. now rewrite u64_small. Qed.

Lemma existsb_upto (P : Z -> bool) (n : Z) :
  existsb P (upto n) = true <-> exists i, 0 <= i < n /\ P i = true.
Proof.
  rewrite existsb_exists. split; intros (i & Hi & HP); exists i; split; try assumption;
    apply in_upto; assumption.
Qed.

Lemma fold_left_ext {S X} (f g : S -> X -> S) (l : list X) (s : S) :
  (forall s x, In x l -> f s x = g s x) -> fold_left f l s = fold_left g l s.
Proof.
  revert s. induction l as [|x l IH]; intros s H; cbn; [reflexivity|].
  rewrite H by (left; reflexivity). apply IH. intros s' y Hy. apply H. right. exact Hy.
Qed.

Lemma fold_left_pair {S1 S2 X} (F : X -> S1 -> S1) (G : X -> S2 -> S2) (l : list X) a b :
  fold_left (fun kv x => (F x (fst kv), G x (snd kv))) l (a, b)
  = (fold_left (fun c x => F x c) l a, fold_left (fun c x => G x c) l b).
Proof.
  revert a b. induction l as [|x l IH]; intros a b; cbn; [reflexivity | apply IH].
Qed.

(** A step that stores [val k] in the rows [k] with [P k], and leaves the
    other rows as they are. *)
Definition writes (val : Z * Z * Z -> list R) (P : Z * Z * Z -> bool)
    (T : cache -> cache) : Prop :=
  forall (c : cache) (k : Z * Z * Z), T c !! k = if P k then Some (val k) else c !! k.

Lemma writes_fold {X} (val : Z * Z * Z -> list R) (P : X -> Z * Z * Z -> bool)
    (T : X -> cache -> cache) (l : list X) :
  (forall x, In x l -> writes val (P x) (T x)) ->
  writes val (fun k => existsb (fun x => P x k) l) (fun c => fold_left (fun c x => T x c) l c).
Proof.
  induction l as [|x l IH]; intros H c k; cbn [fold_left existsb]; [reflexivity|].
  rewrite IH by (intros y Hy; apply H; right; exact Hy).
  rewrite (H x (or_introl eq_refl)).
  destruct (existsb (fun x0 => P x0 k) l); [now rewrite orb_true_r|].
  rewrite orb_false_r. reflexivity.
Qed.

Lemma writes_ext (val : Z * Z * Z -> list R) (P P' : Z * Z * Z -> bool)
    (T T' : cache -> cache) :
  writes val P T -> writes val P' T' -> (forall k, P k = P' k) -> forall c, T c = T' c.
Proof.
  intros H H' E c. apply map_eq. intros k. rewrite H, H', E. reflexivity.
Qed.

(** The row of [kv] that is copied to position [(s, b, hh)] of the cache. *)
Definition row_of (ctx : DecoderContext) (kv : MatView) (pastSeqLen : Z)
    (k : Z * Z * Z) : list R :=
  let '(s, b, hh) := k in
  elems (m_buf kv)
        (m_off kv + (b * inputSeqLen ctx + (s - pastSeqLen)) * m_stride kv
         + hh * attHeadSize ctx)
        (attHeadSize ctx).

Lemma writes_copy_row (ctx : DecoderContext) (kv : MatView) (pastSeqLen b hh seq : Z) :
  writes (row_of ctx kv pastSeqLen)
         (fun k => bool_decide (k = (pastSeqLen + seq, b, hh)))
         (fun c => copy_row c (pastSeqLen + seq) b hh
                     (elems (m_buf kv)
                            (m_off kv + (b * inputSeqLen ctx + seq) * m_stride kv
                             + hh * attHeadSize ctx)
                            (attHeadSize ctx))).
Proof.
  intros c k. unfold copy_row. case_bool_decide as E.
  - subst k. rewrite lookup_insert_eq. unfold row_of. do 3 f_equal. lia.
  - rewrite lookup_insert_ne by congruence. reflexivity.
Qed.

Definition in_head (ctx : DecoderContext) (pastSeqLen b hh : Z) (k : Z * Z * Z) : bool :=
  existsb (fun seq => bool_decide (k = (pastSeqLen + seq, b, hh))) (upto (inputSeqLen ctx)).

Lemma writes_head (ctx : DecoderContext) (kv : MatView) (pastSeqLen b hh : Z) :
  writes (row_of ctx kv pastSeqLen) (in_head ctx pastSeqLen b hh)
         (fun c => copyKVCache_head ctx kv c pastSeqLen b hh).
Proof.
  unfold copyKVCache_head, in_head.
  apply (writes_fold (row_of ctx kv pastSeqLen)
           (fun seq k => bool_decide (k = (pastSeqLen + seq, b, hh)))
           (fun seq c => copy_row c (pastSeqLen + seq) b hh _)).
  intros seq _. apply writes_copy_row.
Qed.

Definition in_range (ctx : DecoderContext) (nheads pastSeqLen : Z) (k : Z * Z * Z) : bool :=
  existsb (fun b => existsb (fun hh => in_head ctx pastSeqLen b hh k) (upto nheads))
          (upto (batchSize ctx)).

Lemma in_range_spec (ctx : DecoderContext) (nheads pastSeqLen s b hh : Z) :
  in_range ctx nheads pastSeqLen (s, b, hh) = true
  <-> 0 <= b < batchSize ctx /\ 0 <= hh < nheads
      /\ pastSeqLen <= s < pastSeqLen + inputSeqLen ctx.
Proof.
  unfold in_range, in_head. rewrite existsb_upto. split.
  - intros (b' & Hb & H). apply existsb_upto in H as (h' & Hh & H).
    apply existsb_upto in H as (q & Hq & H). apply bool_decide_eq_true in H.
    injection H as -> -> ->. lia.
  - intros (Hb & Hh & Hs). exists b. split; [exact Hb|].
    apply existsb_upto. exists hh. split; [exact Hh|].
    apply existsb_upto. exists (s - pastSeqLen). split; [lia|].
    apply bool_decide_eq_true. f_equal. f_equal. lia.
Qed.

(** The two caches after [copyKVCache], one at a time. *)
Definition copy_all (ctx : DecoderContext) (nheads : Z) (kv : MatView) (pastSeqLen : Z)
    (c : cache) : cache :=
  fold_left
    (fun c b =>
       fold_left (fun c hh => copyKVCache_head ctx kv c pastSeqLen b hh) (upto nheads) c)
    (upto (batchSize ctx)) c.

Lemma writes_copy_all (ctx : DecoderContext) (nheads : Z) (kv : MatView) (pastSeqLen : Z) :
  writes (row_of ctx kv pastSeqLen) (in_range ctx nheads pastSeqLen)
         (copy_all ctx nheads kv pastSeqLen).
Proof.
  unfold copy_all, in_range.
  apply (writes_fold (row_of ctx kv pastSeqLen)
           (fun b k => existsb (fun hh => in_head ctx pastSeqLen b hh k) (upto nheads))
           (fun b c => fold_left (fun c hh => copyKVCache_head ctx kv c pastSeqLen b hh)
                                 (upto nheads) c)).
  intros b _.
  apply (writes_fold (row_of ctx kv pastSeqLen)
           (fun hh k => in_head ctx pastSeqLen b hh k)
           (fun hh c => copyKVCache_head ctx kv c pastSeqLen b hh)).
  intros hh _. apply writes_head.
Qed.

Lemma rows_pair (ctx : DecoderContext) (key value : MatView) (pastSeqLen b hh : Z)
    (kv : cache * cache) :
  fold_left
    (fun kv seq =>
       (copy_row (fst kv) (pastSeqLen + seq) b hh
          (elems (m_buf key)
                 (m_off key + (b * inputSeqLen ctx + seq) * m_stride key + hh * attHeadSize ctx)
                 (attHeadSize ctx)),
        copy_row (snd kv) (pastSeqLen + seq) b hh
          (elems (m_buf value)
                 (m_off value + (b * inputSeqLen ctx + seq) * m_stride value
                  + hh * attHeadSize ctx)
                 (attHeadSize ctx))))
    (upto (inputSeqLen ctx)) kv
  = (copyKVCache_head ctx key (fst kv) pastSeqLen b hh,
     copyKVCache_head ctx value (snd kv) pastSeqLen b hh).
Proof.
  destruct kv as [kc vc]. unfold copyKVCache_head. cbn [fst snd].
  apply (fold_left_pair
           (fun seq c => copy_row c (pastSeqLen + seq) b hh
              (elems (m_buf key)
                 (m_off key + (b * inputSeqLen ctx + seq) * m_stride key + hh * attHeadSize ctx)
                 (attHeadSize ctx)))
           (fun seq c => copy_row c (pastSeqLen + seq) b hh
              (elems (m_buf value)
                 (m_off value + (b * inputSeqLen ctx + seq) * m_stride value
                  + hh * attHeadSize ctx)
                 (attHeadSize ctx)))).
Qed.

Lemma heads_pair (ctx : DecoderContext) (key value : MatView) (pastSeqLen nheads : Z)
    (kv : cache * cache) :
  fold_left
    (fun kv b =>
       fold_left
         (fun kv hh => (copyKVCache_head ctx key (fst kv) pastSeqLen b hh,
                        copyKVCache_head ctx value (snd kv) pastSeqLen b hh))
         (upto nheads) kv)
    (upto (batchSize ctx)) kv
  = (copy_all ctx nheads key pastSeqLen (fst kv), copy_all ctx nheads value pastSeqLen (snd kv)).
Proof.
  destruct kv as [kc vc]. unfold copy_all. cbn [fst snd].
  rewrite (fold_left_ext _
             (fun kv b =>
                (fold_left (fun c hh => copyKVCache_head ctx key c pastSeqLen b hh)
                           (upto nheads) (fst kv),
                 fold_left (fun c hh => copyKVCache_head ctx value c pastSeqLen b hh)
                           (upto nheads) (snd kv)))).
  - apply (fold_left_pair
             (fun b c => fold_left (fun c hh => copyKVCache_head ctx key c pastSeqLen b hh)
                                   (upto nheads) c)
             (fun b c => fold_left (fun c hh => copyKVCache_head ctx value c pastSeqLen b hh)
                                   (upto nheads) c)).
  - intros [kc' vc'] b _. cbn [fst snd].
    apply (fold_left_pair (fun hh c => copyKVCache_head ctx key c pastSeqLen b hh)
                          (fun hh c => copyKVCache_head ctx value c pastSeqLen b hh)).
Qed.

Lemma copyKVCache_split (ctx : DecoderContext) (h : Heads) (key value : MatView)
    (pk pv : cache) (pastSeqLen : Z) :
  copyKVCache ctx h key value pk pv pastSeqLen
  = (copy_all ctx (endKVHead h - startKVHead h) key pastSeqLen pk,
     copy_all ctx (endKVHead h - startKVHead h) value pastSeqLen pv).
Proof.
  unfold copyKVCache. cbv zeta.
  rewrite <- (heads_pair ctx key value pastSeqLen _ (pk, pv)).
  apply fold_left_ext. intros kv b _.
  apply fold_left_ext. intros kv' hh _. apply rows_pair.
Qed.

(** X13.  After [copyKVCache], the row of the key (value) cache at position
    [(s, b, h)] with [0 <= b < batchSize], [0 <= h < endKVHead - startKVHead]
    and [pastSeqLen <= s < pastSeqLen + inputSeqLen] holds the [headSize]
    elements of row [b * inputSeqLen + (s - pastSeqLen)] of [key] ([value])
    that start at column [h * headSize]; every other row of the two caches
    is unchanged. *)
Theorem X13_copyKVCache_stores_the_new_rows (ctx : DecoderContext) (h : Heads)
    (key value : MatView) (presentKey presentValue : cache) (pastSeqLen : Z)
    (s b hh : Z) :
  let '(presentKey', presentValue') :=
    copyKVCache ctx h key value presentKey presentValue pastSeqLen in
  let row (kv : MatView) :=
    elems (m_buf kv)
          (m_off kv + (b * inputSeqLen ctx + (s - pastSeqLen)) * m_stride kv
           + hh * attHeadSize ctx)
          (attHeadSize ctx) in
  if (0 <=? b) && (b <? batchSize ctx)
     && (0 <=? hh) && (hh <? endKVHead h - startKVHead h)
     && (pastSeqLen <=? s) && (s <? pastSeqLen + inputSeqLen ctx)
  then presentKey' !! (s, b, hh) = Some (row key)
       /\ presentValue' !! (s, b, hh) = Some (row value)
  else presentKey' !! (s, b, hh) = presentKey !! (s, b, hh)
       /\ presentValue' !! (s, b, hh) = presentValue !! (s, b, hh).
Proof.
  rewrite copyKVCache_split. cbv zeta.
  rewrite !(writes_copy_all ctx _ _ pastSeqLen).
  pose proof (in_range_spec ctx (endKVHead h - startKVHead h) pastSeqLen s b hh) as Hr.
  destruct (in_range ctx (endKVHead h - startKVHead h) pastSeqLen (s, b, hh)).
  - destruct (proj1 Hr eq_refl) as (Hb & Hh & Hs).
    destruct (Z.leb_spec 0 b); [|lia]. destruct (Z.ltb_spec b (batchSize ctx)); [|lia].
    destruct (Z.leb_spec 0 hh); [|lia].
    destruct (Z.ltb_spec hh (endKVHead h - startKVHead h)); [|lia].
    destruct (Z.leb_spec pastSeqLen s); [|lia].
    destruct (Z.ltb_spec s (pastSeqLen + inputSeqLen ctx)); [|lia].
    cbn [andb]. split; reflexivity.
  - match goal with |- if ?c then _ else _ => destruct c eqn:E end; [|split; reflexivity].
    rewrite !andb_true_iff, !Z.leb_le, !Z.ltb_lt in E.
    assert (false = true) by (apply Hr; lia). discriminate.
Qed.

(** X14.  On a rank with as many query heads as KV heads, the copies that
    [slimAttention] makes inside its tasks when [kvCopied == false] leave
    the two caches as one call of [copyKVCache] does, for any number
    [mBlockNum >= 1] of blocks. *)
Theorem X14_slimAttention_copies_like_copyKVCache (ctx : DecoderContext) (h : Heads)
    (key value : MatView) (presentKey presentValue : cache) (pastSeqLen mBlockNum : Z) :
  endQHead h - startQHead h = endKVHead h - startKVHead h ->
  1 <= mBlockNum ->
  slimAttention_copies ctx h key value presentKey presentValue pastSeqLen mBlockNum
  = copyKVCache ctx h key value presentKey presentValue pastSeqLen.
Proof.
  intros Hh Hm. rewrite copyKVCache_split.
  unfold slimAttention_copies. cbv zeta. rewrite Hh.
  rewrite <- (heads_pair ctx key value pastSeqLen _ (presentKey, presentValue)).
  apply fold_left_ext. intros kv b _.
  apply fold_left_ext. intros [kc vc] i _. cbn [fst snd].
  rewrite (fold_left_pair (fun _ c => copyKVCache_head ctx key c pastSeqLen b i)
                          (fun _ c => copyKVCache_head ctx value c pastSeqLen b i)).
  assert (G : forall (kvm : MatView) (c : cache),
    fold_left (fun c _ => copyKVCache_head ctx kvm c pastSeqLen b i) (upto mBlockNum) c
    = copyKVCache_head ctx kvm c pastSeqLen b i).
  { intros kvm c.
    apply (writes_ext (row_of ctx kvm pastSeqLen)
             (fun k => existsb (fun _ : Z => in_head ctx pastSeqLen b i k) (upto mBlockNum))
             (in_head ctx pastSeqLen b i)
             (fun c => fold_left (fun c _ => copyKVCache_head ctx kvm c pastSeqLen b i)
                                 (upto mBlockNum) c)
             (fun c => copyKVCache_head ctx kvm c pastSeqLen b i)).
    - apply (writes_fold (row_of ctx kvm pastSeqLen)
               (fun (_ : Z) k => in_head ctx pastSeqLen b i k)
               (fun (_ : Z) c => copyKVCache_head ctx kvm c pastSeqLen b i)).
      intros _ _. apply writes_head.
    - apply writes_head.
    - intros k. destruct (in_head ctx pastSeqLen b i k) eqn:E.
      + apply existsb_upto. exists 0. split; [lia | reflexivity].
      + apply not_true_is_false. intros H. apply existsb_upto in H as (_ & _ & H).
        discriminate. }
  rewrite !G. reflexivity.
Qed.

(** X15.  At a prefill ([pastSeqLen == 0], the only case in which [forward]
    calls [flashAttention]), with [key] and [value] of stride [qkvCols] and
    offsets that fit [uint64_t], the copy loop at the end of
    [flashAttention] leaves the two caches as [copyKVCache] does. *)
Theorem X15_flashAttention_copies_like_copyKVCache (ctx : DecoderContext) (h : Heads)
    (key value : MatView) (presentKey presentValue : cache) :
  let qkvCols := (endQHead h - startQHead h) * attHeadSize ctx
                 + (endKVHead h - startKVHead h) * attHeadSize ctx * 2 in
  m_stride key = qkvCols -> m_stride value = qkvCols ->
  0 <= attHeadSize ctx -> 0 <= endQHead h - startQHead h ->
  0 <= endKVHead h - startKVHead h < 2 ^ 64 ->
  0 <= batchSize ctx < 2 ^ 64 -> 0 <= inputSeqLen ctx < 2 ^ 64 ->
  batchSize ctx * inputSeqLen ctx * qkvCols < 2 ^ 64 ->
  flashAttention_copies ctx h key value presentKey presentValue 0
  = copyKVCache ctx h key value presentKey presentValue 0.
Proof.
  intros qkvCols Hk Hv Hhs Hq HH HB HS Hfit.
  unfold flashAttention_copies, copyKVCache. cbv zeta. fold qkvCols.
  rewrite Z.add_0_l. rewrite !upto_u64_small by assumption.
  set (S := inputSeqLen ctx) in *. set (hs := attHeadSize ctx) in *.
  set (nkv := endKVHead h - startKVHead h) in *.
  assert (Hkv : 0 <= nkv * hs) by nia.
  assert (Hcols : nkv * hs <= qkvCols) by (subst qkvCols; nia).
  apply fold_left_ext. intros kv b Hb. apply in_upto in Hb.
  apply fold_left_ext. intros kv' i Hi. apply in_upto in Hi.
  apply fold_left_ext. intros kv'' seq Hseq. apply in_upto in Hseq.
  assert (Hrow : 0 <= b * S + seq <= batchSize ctx * S - 1) by nia.
  assert (Hbs : 0 <= b * S) by nia.
  assert (H1 : 0 <= b * S * qkvCols <= (b * S + seq) * qkvCols) by nia.
  assert (H2 : 0 <= seq * qkvCols <= (b * S + seq) * qkvCols) by nia.
  assert (H3 : (b * S + seq) * qkvCols + qkvCols <= batchSize ctx * S * qkvCols) by nia.
  assert (H4 : 0 <= i * hs < qkvCols \/ qkvCols = 0 /\ i * hs = 0) by nia.
  rewrite (u64_small (b * S * qkvCols)) by lia.
  rewrite (u64_small (seq * qkvCols)) by lia.
  rewrite (u64_small (i * hs)) by lia.
  rewrite Hk, Hv. do 2 f_equal; f_equal; ring.
Qed.

(** One sequence of two tokens on a rank with one query and one KV head of
    size 1: [qkvCols = 3], and key and value start at columns 1 and 2. *)
Definition ctx_copy : DecoderContext := mkCtx 1 1 1 1 1 1 2 2048 2048 1 0 4 1 1 0.

Definition qkv_rows : Data := fun n => INR n.

Lemma X14_slimAttention_copies_like_copyKVCache_witness :
  slimAttention_copies ctx_copy (mkHeads 0 1 0 1) (mkMatView qkv_rows 1 3)
                       (mkMatView qkv_rows 2 3) ∅ ∅ 8 2
  = copyKVCache ctx_copy (mkHeads 0 1 0 1) (mkMatView qkv_rows 1 3)
                (mkMatView qkv_rows 2 3) ∅ ∅ 8.
Proof.
  apply X14_slimAttention_copies_like_copyKVCache; [reflexivity | lia].
Defined.

Lemma X15_flashAttention_copies_like_copyKVCache_witness :
  flashAttention_copies ctx_copy (mkHeads 0 1 0 1) (mkMatView qkv_rows 1 3)
                        (mkMatView qkv_rows 2 3) ∅ ∅ 0
  = copyKVCache ctx_copy (mkHeads 0 1 0 1) (mkMatView qkv_rows 1 3)
                (mkMatView qkv_rows 2 3) ∅ ∅ 0.
Proof.
  apply X15_flashAttention_copies_like_copyKVCache;
    try reflexivity; cbn; try lia; split; (lia || reflexivity).
Defined.

End KVCopyFacts.

(** ** Slots and columns of the shards *)

Module ShardIndexFacts.
Import CInt CIntFacts HeadRange Fused ShardIndex.
Open Scope Z_scope.

(** X18.  In [crossAttnShardHead] the slot [threadIdx] of shard [s] of head
    [i] of sequence [b] lies in [[0, totalTasks)], different triples
    [(b, i, s)] have different slots, and the slots
    [[headStartIdx, headStartIdx + splits)] that the reducer of a head reads
    are exactly the slots of the shards of that head. *)
Theorem X18_shard_slots_are_private (batchSize responsibleHeads splits b i s : Z) :
  0 <= b < batchSize -> 0 <= i < responsibleHeads -> 0 <= s < splits ->
  0 <= threadIdx responsibleHeads splits b i s < totalTasks batchSize responsibleHeads splits
  /\ (forall b' i' s' : Z,
        0 <= b' -> 0 <= i' < responsibleHeads -> 0 <= s' < splits ->
        threadIdx responsibleHeads splits b' i' s' = threadIdx responsibleHeads splits b i s ->
        b' = b /\ i' = i /\ s' = s)
  /\ (forall idx : Z,
        headStartIdx responsibleHeads splits b i <= idx
          < headStartIdx responsibleHeads splits b i + splits
        <-> exists s' : Z, 0 <= s' < splits /\ idx = threadIdx responsibleHeads splits b i s').
Proof.
  intros Hb Hi Hs. unfold threadIdx, totalTasks, headStartIdx.
  assert (Hlin : forall x y z, x * responsibleHeads * splits + y * splits + z
                               = (x * responsibleHeads + y) * splits + z) by (intros; ring).
  rewrite !Hlin.
  assert (Hrow : 0 <= b * responsibleHeads + i <= batchSize * responsibleHeads - 1) by nia.
  split; [split; nia|]. split.
  - intros b' i' s' Hb' Hi' Hs' E. rewrite !Hlin in E.
    assert (0 <= b' * responsibleHeads + i') by nia.
    assert (Erow : b' * responsibleHeads + i' = b * responsibleHeads + i) by nia.
    assert (b' = b) by nia. subst b'. split; [reflexivity|]. split; nia.
  - intros idx. split.
    + intros H. exists (idx - (b * responsibleHeads * splits + i * splits)).
      split; [lia | ring].
    + intros (s' & Hs' & ->). lia.
Qed.

Lemma X18_shard_slots_are_private_witness :
  0 <= threadIdx 8 8 0 7 7 < totalTasks 1 8 8.
Proof.
  apply (X18_shard_slots_are_private 1 8 8 0 7 7); lia.
Defined.

Lemma prologue_inv (ctx : DecoderContext) (h : Heads) (pastSeqLen : Z) (sh : Sharding) :
  crossAttnShardHead_prologue ctx h pastSeqLen = Ret sh ->
  sh_N sh = pastSeqLen + inputSeqLen ctx
  /\ 2 <= sh_splits sh
  /\ sh_nb sh = Z.quot (sh_N sh + sh_splits sh - 1) (sh_splits sh).
Proof.
  unfold crossAttnShardHead_prologue. cbv zeta. intros H.
  destruct (cdiv (attHeadNum ctx) (kvHeadNum ctx)); cbn [rbind] in H; try discriminate.
  destruct (cdiv (numThreads ctx) _) as [splits| |]; cbn [rbind] in H; try discriminate.
  unfold cdiv in H.
  destruct (Z.eqb_spec splits 0); cbn [rbind] in H; try discriminate.
  destruct (Z.gtb_spec splits 1); cbn [negb] in H; try discriminate.
  destruct (cmod (attHeadSize ctx) 16) as [r| |]; cbn [rbind] in H; try discriminate.
  destruct (negb (r =? 0)) in H; try discriminate.
  injection H as <-. cbn [sh_N sh_splits sh_nb]. repeat split; lia.
Qed.

(** X19.  When the prologue of [crossAttnShardHead] returns, on a head with
    [T >= 1] key columns: all shards have a non-negative length and end
    within [T] if and only if [(splits - 1) * nb <= T]; this holds whenever
    [(splits - 1)^2 <= T]; and then the column [c] belongs to the shard
    [min(c / nb, splits - 1)] and to no other. *)
Theorem X19_shards_tile_the_columns_iff (ctx : DecoderContext) (h : Heads) (pastSeqLen : Z)
    (sh : Sharding) :
  crossAttnShardHead_prologue ctx h pastSeqLen = Ret sh ->
  1 <= pastSeqLen + inputSeqLen ctx ->
  let T := pastSeqLen + inputSeqLen ctx in
  ((forall s : Z, 0 <= s < sh_splits sh ->
      0 <= snd (shard_cols sh s)
      /\ fst (shard_cols sh s) + snd (shard_cols sh s) <= T)
   <-> (sh_splits sh - 1) * sh_nb sh <= T)
  /\ ((sh_splits sh - 1) * (sh_splits sh - 1) <= T -> (sh_splits sh - 1) * sh_nb sh <= T)
  /\ ((sh_splits sh - 1) * sh_nb sh <= T ->
      forall c : Z, 0 <= c < T ->
        forall s : Z, 0 <= s < sh_splits sh ->
          (fst (shard_cols sh s) <= c < fst (shard_cols sh s) + snd (shard_cols sh s)
           <-> s = Z.min (c / sh_nb sh) (sh_splits sh - 1))).
Proof.
  intros Hp HT T.
  destruct (prologue_inv ctx h pastSeqLen sh Hp) as (HN & Hsp & Hnb).
  fold T in HN. rewrite HN in Hnb. rewrite quot_div_nonneg in Hnb by lia.
  set (splits := sh_splits sh) in *. set (nb := sh_nb sh) in *.
  pose proof (Z.div_mod (T + splits - 1) splits ltac:(lia)) as Hd.
  pose proof (Z.mod_pos_bound (T + splits - 1) splits ltac:(lia)) as Hm.
  rewrite <- Hnb in Hd.
  assert (Hnb1 : 1 <= nb) by (rewrite Hnb; apply Z.div_le_lower_bound; lia).
  assert (Hcov : T <= splits * nb) by lia.
  assert (Hcols : forall s, shard_cols sh s
            = (s * nb, if s <? splits - 1 then nb else T - s * nb)).
  { intros s. unfold shard_cols. fold splits nb. rewrite HN. reflexivity. }
  split; [|split].
  - split.
    + intros H. specialize (H (splits - 1) ltac:(lia)).
      rewrite Hcols in H. cbn [fst snd] in H. rewrite Z.ltb_irrefl in H. lia.
    + intros H s Hs. rewrite Hcols. cbn [fst snd].
      destruct (Z.ltb_spec s (splits - 1)).
      * assert ((s + 1) * nb <= (splits - 1) * nb) by nia. lia.
      * replace s with (splits - 1) by lia. lia.
  - intros H. nia.
  - intros H c Hc s Hs. rewrite Hcols. cbn [fst snd].
    pose proof (Z.div_mod c nb ltac:(lia)) as Hcd.
    pose proof (Z.mod_pos_bound c nb ltac:(lia)) as Hcm.
    destruct (Z.ltb_spec s (splits - 1)) as [Hlt|Hge]; split.
    + intros [H1 H2].
      assert (E : c / nb = s) by (symmetry; apply Z.div_unique with (c - s * nb); lia).
      lia.
    + intros E.
      assert (E' : c / nb = s) by lia. rewrite <- E'. lia.
    + intros [H1 H2]. assert (s = splits - 1) by lia. subst s.
      assert (splits - 1 <= c / nb) by (apply Z.div_le_lower_bound; lia). lia.
    + intros E. assert (s = splits - 1) by lia. subst s.
      assert (Hq : splits - 1 <= c / nb) by lia. split; [nia | lia].
Qed.

Lemma X19_shards_tile_the_columns_iff_witness :
  (8 - 1) * 13 <= 101.
Proof.
  pose proof (X19_shards_tile_the_columns_iff FusedFacts.ctx_S4 (mkHeads 0 8 0 8) 100
                (mkSharding 101 8 13) ltac:(reflexivity) ltac:(cbn; lia)) as (_ & H & _).
  apply H. cbn. lia.
Defined.

End ShardIndexFacts.

(** ** The factors of the reducer *)

Module ReduceFacts.
Import ShardHead ShardHeadFacts.
Open Scope R_scope.

Lemma realMax_of_spec (first : SplitInfo) (rest : list SplitInfo) :
  let M := realMax_of first rest in
  (forall inf, In inf (first :: rest) -> s_max inf <= M)
  /\ (exists inf, In inf (first :: rest) /\ s_max inf = M).
Proof.
  unfold realMax_of.
  assert (G : forall (l : list SplitInfo) (a : R),
    let M := fold_left (fun realMax inf =>
                          if Rgt_dec (s_max inf) realMax then s_max inf else realMax) l a in
    a <= M /\ (forall inf, In inf l -> s_max inf <= M)
    /\ (M = a \/ exists inf, In inf l /\ s_max inf = M)).
  { induction l as [|x l IH]; intros a; cbn [fold_left].
    - split; [lra|]. split; [intros inf []|left; reflexivity].
    - destruct (IH (if Rgt_dec (s_max x) a then s_max x else a)) as (H1 & H2 & H3).
      set (M := fold_left _ l _) in *.
      destruct (Rgt_dec (s_max x) a) as [Hgt|Hle].
      + split; [lra|]. split.
        * intros inf [<-|Hin]; [lra | apply H2; exact Hin].
        * right. destruct H3 as [E|(inf & Hin & E)].
          -- exists x. split; [left; reflexivity | symmetry; exact E].
          -- exists inf. split; [right; exact Hin | exact E].
      + split; [lra|]. split.
        * intros inf [<-|Hin]; [lra | apply H2; exact Hin].
        * destruct H3 as [E|(inf & Hin & E)]; [left; exact E|].
          right. exists inf. split; [right; exact Hin | exact E]. }
  cbv zeta. destruct (G rest (s_max first)) as (H1 & H2 & H3).
  set (M := fold_left _ rest _) in *. split.
  - intros inf [<-|Hin]; [exact H1 | apply H2; exact Hin].
  - destruct H3 as [E|(inf & Hin & E)].
    + exists first. split; [left; reflexivity | symmetry; exact E].
    + exists inf. split; [right; exact Hin | exact E].
Qed.

Lemma exp_le_1 (x : R) : x <= 0 -> exp x <= 1.
Proof.
  intros [Hlt | ->].
  - left. rewrite <- exp_0. apply exp_increasing. exact Hlt.
  - rewrite exp_0. lra.
Qed.

(** X20.  In the reducer of [crossAttnShardHead], [realMax] is the maximum
    of one of the shards, every revise factor [exp(splitMax - realMax)] is
    in [(0, 1]], and the factor of at least one shard is 1. *)
Theorem X20_revise_factors_at_most_one (first : SplitInfo) (rest : list SplitInfo) :
  let realMax := realMax_of first rest in
  let infos := snd (revise realMax (first :: rest)) in
  In realMax (map s_max (first :: rest))
  /\ Forall (fun inf => 0 < s_flag inf <= 1) infos
  /\ Exists (fun inf => s_flag inf = 1) infos.
Proof.
  cbv zeta. destruct (realMax_of_spec first rest) as [Hle (w & Hw & Ew)].
  set (M := realMax_of first rest) in *. unfold revise. cbn [snd].
  split; [|split].
  - rewrite <- Ew. apply in_map. exact Hw.
  - apply List.Forall_forall. intros inf Hin. apply in_map_iff in Hin as (x & <- & Hx).
    cbn [s_flag]. split; [apply exp_pos|]. apply exp_le_1. specialize (Hle x Hx). lra.
  - apply List.Exists_exists. exists (mkInfo (s_max w) (s_sum w) (exp (s_max w - M))). split.
    + apply in_map_iff. exists w. split; [reflexivity | exact Hw].
    + cbn [s_flag]. rewrite Ew. replace (M - M) with 0 by lra. apply exp_0.
Qed.

Lemma realSum_pos (M : R) (infos : list SplitInfo) :
  Forall (fun inf => 0 <= s_sum inf) infos ->
  Exists (fun inf => 0 < s_sum inf) infos ->
  0 < fst (revise M infos)
  /\ fst (revise M infos) = Rsum (map (fun inf => s_sum inf * exp (s_max inf - M)) infos).
Proof.
  intros Hall Hex. unfold revise. cbn [fst].
  assert (E : forall a,
    fold_left (fun realSum inf => realSum + s_sum inf * exp (s_max inf - M)) infos a
    = a + Rsum (map (fun inf => s_sum inf * exp (s_max inf - M)) infos)).
  { clear. induction infos as [|x l IH]; intros a; cbn [fold_left map].
    - rewrite Rsum_nil. lra.
    - rewrite IH, Rsum_cons. lra. }
  rewrite E, Rplus_0_l. split; [|reflexivity].
  clear E. induction infos as [|x l IH]; [inversion Hex|].
  cbn [map]. rewrite Rsum_cons.
  inversion Hall as [|? ? Hx Hl]; subst.
  assert (Hnn : 0 <= Rsum (map (fun inf => s_sum inf * exp (s_max inf - M)) l)).
  { clear - Hl. induction l as [|y l IH]; cbn [map]; [rewrite Rsum_nil; lra|].
    rewrite Rsum_cons. inversion Hl; subst.
    pose proof (exp_pos (s_max y - M)). specialize (IH ltac:(assumption)). nra. }
  pose proof (exp_pos (s_max x - M)) as Hp.
  inversion Hex as [? ? Hpos|? ? Hex']; subst.
  - nra.
  - specialize (IH Hl Hex'). nra.
Qed.

Lemma list_as_map_nth (p : list R) :
  p = map (fun off => nth off p 0) (seq 0 (length p)).
Proof.
  induction p as [|x p IH]; [reflexivity|].
  cbn [length seq map nth]. f_equal.
  rewrite <- seq_shift, map_map. cbn [nth]. exact IH.
Qed.

(** X21.  The factors [revFactor * (splitSum / realSum)] of the reducer add
    up to one: when all shards of a head hold the same partial output row,
    the sums are non-negative and one of them is positive, the reduced row
    is that row. *)
Theorem X21_reduce_of_equal_rows (headSize : nat) (first : SplitInfo) (rest : list SplitInfo)
    (p : list R) :
  length p = headSize ->
  Forall (fun inf => 0 <= s_sum inf) (first :: rest) ->
  Exists (fun inf => 0 < s_sum inf) (first :: rest) ->
  reduce headSize (map (fun inf => (inf, p)) (first :: rest)) = p.
Proof.
  intros Hlen Hall Hex.
  assert (Ep : p = map (fun off => nth off p 0) (seq 0 headSize))
    by (rewrite <- Hlen; apply list_as_map_nth).
  set (task := fun inf : SplitInfo => (inf, p)).
  cbn [map reduce].
  set (M := realMax_of (fst (task first)) (map fst (map task rest))).
  change (fst (task first) :: map fst (map task rest))
    with (map fst (map task (first :: rest))).
  change (snd (task first) :: map snd (map task rest))
    with (map snd (map task (first :: rest))).
  set (infos := first :: rest) in *.
  rewrite !map_map. cbn [fst snd task].
  rewrite List.map_id.
  destruct (realSum_pos M infos Hall Hex) as [Hpos Hsum].
  unfold revise in *. cbn [fst] in Hpos, Hsum.
  set (realSum := fold_left _ infos 0) in *.
  rewrite combine_map_same.
  etransitivity; [|symmetry; exact Ep].
  transitivity
    (accumulate headSize realSum
       (map (fun x => (mkInfo (s_max x) (s_sum x) (exp (s_max x - M)),
                       map (fun off => nth off p 0) (seq 0 headSize))) infos));
    [rewrite <- Ep; reflexivity|].
  rewrite (accumulate_eq headSize
             (fun inf => mkInfo (s_max inf) (s_sum inf) (exp (s_max inf - M)))
             (fun _ off => nth off p 0)).
  cbn [s_flag s_sum].
  apply map_ext. intros off.
  rewrite (map_ext _ (fun inf => (nth off p 0 / realSum)
                                 * (s_sum inf * exp (s_max inf - M))))
    by (intros inf; unfold Rdiv; lra).
  rewrite Rsum_map_scale, <- Hsum. field. lra.
Qed.

Lemma X21_reduce_of_equal_rows_witness :
  reduce 2 [(mkInfo 0 1 1, [3; 4]); (mkInfo 1 2 1, [3; 4])] = [3; 4].
Proof.
  apply (X21_reduce_of_equal_rows 2 (mkInfo 0 1 1) [mkInfo 1 2 1] [3; 4]).
  - reflexivity.
  - repeat constructor; cbn; lra.
  - constructor. cbn. lra.
Defined.

End ReduceFacts.

(** ** Blocks and thread arrays of [scaledDpAttention] *)

Module FlashFacts.
Import CInt CIntFacts Flash.
Open Scope Z_scope.

(** X22.  The seven per-thread arrays that [scaledDpAttention] places in
    [thrBuf] lie inside the [nth * arrStride] floats it requests, and the
    array of one thread never overlaps another array, or the same array of
    another thread. *)
Theorem X22_thread_arrays_tile_thrBuf (nth srcBlk tgtBlk headSize : Z) (a a' : thrArr)
    (i i' : Z) :
  0 <= srcBlk -> 0 <= tgtBlk -> 0 <= headSize ->
  0 <= i < nth -> 0 <= i' < nth ->
  let s := arr_start nth srcBlk tgtBlk headSize in
  let len := arr_len srcBlk tgtBlk headSize in
  (0 <= s a i /\ s a i + len a <= nth * arrStride srcBlk tgtBlk headSize)
  /\ ((a, i) <> (a', i') -> s a i + len a <= s a' i' \/ s a' i' + len a' <= s a i).
Proof.
  intros Hs Ht Hh Hi Hi'. cbv zeta.
  assert (Hsn : 0 <= srcBlk * nth) by nia.
  assert (Hsi : 0 <= srcBlk * i /\ srcBlk * (i + 1) <= srcBlk * nth) by nia.
  assert (Hsi' : 0 <= srcBlk * i' /\ srcBlk * (i' + 1) <= srcBlk * nth) by nia.
  assert (Hst : 0 <= srcBlk * tgtBlk) by nia.
  assert (Hsh : 0 <= srcBlk * headSize) by nia.
  assert (Hsti : 0 <= srcBlk * tgtBlk * i
                 /\ srcBlk * tgtBlk * (i + 1) <= srcBlk * tgtBlk * nth) by nia.
  assert (Hsti' : 0 <= srcBlk * tgtBlk * i'
                  /\ srcBlk * tgtBlk * (i' + 1) <= srcBlk * tgtBlk * nth) by nia.
  assert (Hshi : 0 <= srcBlk * headSize * i
                 /\ srcBlk * headSize * (i + 1) <= srcBlk * headSize * nth) by nia.
  assert (Hshi' : 0 <= srcBlk * headSize * i'
                  /\ srcBlk * headSize * (i' + 1) <= srcBlk * headSize * nth) by nia.
  assert (Hord : i + 1 <= i' ->
            srcBlk * (i + 1) <= srcBlk * i'
            /\ srcBlk * tgtBlk * (i + 1) <= srcBlk * tgtBlk * i'
            /\ srcBlk * headSize * (i + 1) <= srcBlk * headSize * i') by (intros; nia).
  assert (Hord' : i' + 1 <= i ->
            srcBlk * (i' + 1) <= srcBlk * i
            /\ srcBlk * tgtBlk * (i' + 1) <= srcBlk * tgtBlk * i
            /\ srcBlk * headSize * (i' + 1) <= srcBlk * headSize * i) by (intros; nia).
  unfold arrStride. split.
  - destruct a; cbn [arr_start arr_len]; lia.
  - intros Hne.
    assert (Hcase : a <> a' \/ i + 1 <= i' \/ i' + 1 <= i).
    { destruct (Z.eq_dec i i') as [->|]; [|lia]. left. congruence. }
    destruct a, a'; cbn [arr_start arr_len];
      destruct Hcase as [Hc|[Hc|Hc]]; try congruence;
      try (specialize (Hord Hc)); try (specialize (Hord' Hc)); lia.
Qed.

Lemma X22_thread_arrays_tile_thrBuf_witness :
  arr_start 4 256 512 128 QArr 3 + arr_len 256 512 128 QArr <= 4 * arrStride 256 512 128.
Proof.
  apply (X22_thread_arrays_tile_thrBuf 4 256 512 128 QArr QArr 3 3); lia.
Defined.

Lemma log2_pow_bounds (x : Z) : 1 <= x -> 1 <= 2 ^ Z.log2 x <= x.
Proof.
  intros Hx. pose proof (Z.log2_spec x ltac:(lia)) as [H1 H2].
  pose proof (Z.log2_nonneg x).
  assert (0 < 2 ^ Z.log2 x) by (apply Z.pow_pos_nonneg; lia). lia.
Qed.

(** X23.  [scaledDpAttention] needs [srcLen >= 2]: for [srcLen <= 1] the
    block size is the conversion of the logarithm of a number that is not
    positive.  For [srcLen >= 2], [srcBlk] is a power of two between 1 and
    256 and at most [srcLen / 2], and every query row lies in the block that
    starts at the multiple of [srcBlk] below it, whose length [qRealBlk] is
    between 1 and [srcBlk]. *)
Theorem X23_query_blocks_tile_the_source_rows (srcLen : Z) :
  (srcLen <= 1 -> srcBlk srcLen = UB)
  /\ (2 <= srcLen ->
      exists blk : Z,
        srcBlk srcLen = Ret blk
        /\ 1 <= blk <= 256 /\ 2 * blk <= srcLen
        /\ (exists k : Z, 0 <= k <= 8 /\ blk = 2 ^ k)
        /\ forall row : Z, 0 <= row < srcLen ->
             let m := row / blk * blk in
             let '(start, qRealBlk) := qBlock srcLen blk m in
             0 <= m < srcLen /\ 1 <= qRealBlk <= blk /\ start <= row < start + qRealBlk).
Proof.
  split.
  - intros H. unfold srcBlk. cbv zeta.
    assert (Z.quot srcLen 2 <= 0).
    { destruct (Z.le_gt_cases 0 srcLen).
      - rewrite Z.quot_div_nonneg by lia. assert (srcLen / 2 < 1); [|lia].
        apply Z.div_lt_upper_bound; lia.
      - assert (Z.quot srcLen 2 <= Z.quot 0 2) by (apply Z.quot_le_mono; lia).
        rewrite Z.quot_0_l in *; lia. }
    destruct (Z.leb_spec (Z.quot srcLen 2) 0); [reflexivity | lia].
  - intros H. unfold srcBlk. cbv zeta.
    rewrite Z.quot_div_nonneg by lia.
    assert (Hhalf : 1 <= srcLen / 2) by (apply Z.div_le_lower_bound; lia).
    assert (Hh2 : 2 * (srcLen / 2) <= srcLen).
    { pose proof (Z.div_mod srcLen 2 ltac:(lia)).
      pose proof (Z.mod_pos_bound srcLen 2 ltac:(lia)). lia. }
    destruct (Z.leb_spec (srcLen / 2) 0); [lia|].
    pose proof (log2_pow_bounds (srcLen / 2) Hhalf) as Hp.
    pose proof (Z.log2_nonneg (srcLen / 2)) as Hl.
    set (blk := Z.min 256 (2 ^ Z.log2 (srcLen / 2))).
    assert (Hblk : 1 <= blk <= 256 /\ 2 * blk <= srcLen) by (subst blk; lia).
    exists blk. split; [reflexivity|]. split; [lia|]. split; [lia|]. split.
    + destruct (Z.le_gt_cases (Z.log2 (srcLen / 2)) 8) as [Hle|Hgt].
      * exists (Z.log2 (srcLen / 2)). split; [lia|].
        assert (2 ^ Z.log2 (srcLen / 2) <= 2 ^ 8) by (apply Z.pow_le_mono_r; lia).
        change (2 ^ 8) with 256 in *. subst blk. lia.
      * exists 8. split; [lia|].
        assert (2 ^ 8 <= 2 ^ Z.log2 (srcLen / 2)) by (apply Z.pow_le_mono_r; lia).
        change (2 ^ 8) with 256 in *. subst blk. lia.
    + intros row Hrow. unfold qBlock. cbv zeta.
      pose proof (Z.div_mod row blk ltac:(lia)) as Hd.
      pose proof (Z.mod_pos_bound row blk ltac:(lia)) as Hm.
      assert (0 <= row / blk) by (apply Z.div_pos; lia).
      nia.
Qed.

Lemma X23_query_blocks_tile_the_source_rows_witness :
  srcBlk 1 = UB /\ srcBlk 1025 = Ret 256.
Proof.
  destruct (X23_query_blocks_tile_the_source_rows 1) as [H1 _].
  destruct (X23_query_blocks_tile_the_source_rows 1025) as [_ H2].
  split; [apply H1; lia|].
  destruct (H2 ltac:(lia)) as (blk & E & _). rewrite E. f_equal.
  vm_compute in E. injection E as <-. reflexivity.
Defined.

End FlashFacts.

(** ** The output of [LlamaMLP::forward] *)

Module MLPFormula.
Import MM Mem LlamaMLP MMFacts LlamaMLPFacts.
Open Scope R_scope.

(** X24.  With separate gate and up weights and [doLnBefore],
    [LlamaMLP::forward] leaves in [output] the down projection of
    [silu(gate) * up] of the normalised input, plus the input tile on the
    rank with [splitIdx == 0] and nothing more on the other ranks, for
    buffers of the asserted shapes that do not alias. *)
Theorem X24_mlp_forward_formula
    (rmsNorm : Data -> Data -> Data -> nat -> nat -> nat -> nat -> Data)
    (mlp : MLP) (ctx : DecoderContext) (sc : Scratch) (input output : addr)
    (iStride oStride : nat) (m : store) (i j : nat) :
  let M := Z.to_nat (batchSize ctx * inputSeqLen ctx) in
  let hidden := Z.to_nat (hiddenSize ctx) in
  let cols := v_Cols (imOut sc) in
  let x := rmsNorm (rd m (v_ptr (normBuf sc))) (rd m input) (normWeight mlp) M hidden
                   iStride (v_Stride (normBuf sc)) in
  let gate k := gemm_at hidden x (v_Stride (normBuf sc)) (W_at (gateWeight mlp)) i k in
  let up k := gemm_at hidden x (v_Stride (normBuf sc)) (W_at (upWeight mlp)) i k in
  v_Rows (normBuf sc) = M -> v_Cols (normBuf sc) = hidden ->
  v_Rows (imOut sc) = M -> (cols <= v_Stride (imOut sc))%nat ->
  W_Rows (downWeight mlp) = cols ->
  v_ptr (normBuf sc) <> input -> v_ptr (imOut sc) <> v_ptr (normBuf sc) ->
  v_ptr (imOut sc) <> input -> v_ptr (imOut sc) <> output ->
  (i < M)%nat -> (j < hidden)%nat -> (hidden <= oStride)%nat ->
  rd (forward rmsNorm false mlp ctx sc input output iStride oStride true m) output
     (i * oStride + j)%nat
  = sigma cols (fun k => silu (gate k) * up k * W_at (downWeight mlp) k j)
    + (if (splitIdx ctx =? 0)%Z then rd m input (i * iStride + j)%nat else 0).
Proof.
  intros M hidden cols x gate up HnR HnC HiR HiS HdR Dni Din Dii Dio Hi Hj Hs.
  unfold forward. cbn [negb]. cbv zeta. fold M hidden.
  set (m1 := wr (v_ptr (normBuf sc)) _ m).
  assert (Ex : rd m1 (v_ptr (normBuf sc)) = x) by (subst m1; apply rd_wr_eq).
  unfold downProj. cbv zeta. rewrite rd_wr_eq. cbn [v_ptr v_Rows v_Cols v_Stride].
  rewrite HiR, HdR.
  assert (Ei : rd (upProj mlp (normBuf sc) (imOut sc) (gateProj mlp (normBuf sc) (imOut sc) m1))
                  input = rd m input).
  { unfold upProj, gateProj. cbv zeta. rewrite !rd_wr_ne by congruence.
    subst m1. rewrite rd_wr_ne by congruence. reflexivity. }
  assert (Him : forall k, (k < cols)%nat ->
    rd (upProj mlp (normBuf sc) (imOut sc) (gateProj mlp (normBuf sc) (imOut sc) m1))
       (v_ptr (imOut sc)) (i * v_Stride (imOut sc) + k)%nat
    = up k * silu (gate k)).
  { intros k Hk. rewrite pathA_intermediate by (try congruence; try lia).
    rewrite Ex, HnC. reflexivity. }
  unfold downProj_call. cbn [v_ptr v_Stride]. rewrite Ei.
  destruct (splitIdx ctx =? 0)%Z; cbn [run].
  - unfold compute_residential. rewrite store_tile_at by assumption. cbn [bias_at].
    unfold gemm_at at 1. rewrite Rplus_0_r. f_equal.
    apply sigma_ext. intros k Hk. rewrite Him by assumption. lra.
  - unfold compute. rewrite store_tile_at by assumption.
    unfold gemm_at at 1. rewrite Rplus_0_r.
    apply sigma_ext. intros k Hk. rewrite Him by assumption. lra.
Qed.

(** One token and a hidden size of 1, with all weights equal to 1 and the
    norm the identity. *)
Definition mlp_ones : MLP :=
  mkMLP (mkWeight (fun _ _ => 1) 1 1) (mkWeight (fun _ _ => 1) 1 1) noWeight
        (mkWeight (fun _ _ => 1) 1 1) (fun _ => 1).

Definition mlp_scratch : Scratch :=
  mkScratch (mkView 7%positive 1 1 1) (mkView 8%positive 1 1 1) 9%positive.

Definition mlp_mem : store := <[1%positive := fun _ => 2]> ∅.

Lemma X24_mlp_forward_formula_witness :
  rd (forward (fun _ inp _ _ _ _ _ => inp) false mlp_ones Examples.ctx_one mlp_scratch
              1%positive 3%positive 1 1 true mlp_mem)
     3%positive 0%nat
  = sigma 1 (fun k => silu (gemm_at 1 (rd mlp_mem 1%positive) 1 (fun _ _ => 1) 0 k)
                      * gemm_at 1 (rd mlp_mem 1%positive) 1 (fun _ _ => 1) 0 k * 1)
    + rd mlp_mem 1%positive 0%nat.
Proof.
  refine (X24_mlp_forward_formula (fun _ inp _ _ _ _ _ => inp) mlp_ones Examples.ctx_one
            mlp_scratch 1%positive 3%positive 1 1 mlp_mem 0 0 _ _ _ _ _ _ _ _ _ _ _ _);
    cbn; (lia || discriminate || reflexivity).
Defined.

End MLPFormula.

(** ** Concatenated scales, zero points and sums *)

Module CatVectorsFacts.
Import SetWeights SetWeightsFacts CatVectors.
Open Scope Z_scope.

Section Facts.
Context {A : Type}.

Lemma skipn_repeat (x : A) (n m : nat) : skipn n (repeat x m) = repeat x (m - n).
Proof.
  revert m. induction n as [|n IH]; intros [|m]; cbn; auto.
Qed.

(** Two copies into a fresh array: [m] elements of [g], then [n] of [u]. *)
Lemma two_copies (old : A) (g u : list A) (total m n : Z) :
  0 <= m <= Z.of_nat (length g) -> 0 <= n <= Z.of_nat (length u) -> m + n <= total ->
  (do c1 <- memcpy (Resize old total) 0 g 0 m; memcpy c1 m u 0 n)
  = Ret (firstn (Z.to_nat m) g ++ firstn (Z.to_nat n) u
         ++ repeat old (Z.to_nat (total - m - n))).
Proof.
  intros Hm Hn Ht. unfold Resize.
  rewrite memcpy_ok by (rewrite ?repeat_length; lia).
  cbn [rbind]. change (Z.to_nat 0) with O. rewrite firstn_O, skipn_O, Z.add_0_l. cbn [app].
  set (G := firstn (Z.to_nat m) g).
  assert (HG : length G = Z.to_nat m) by (subst G; rewrite length_firstn; lia).
  set (c1 := G ++ skipn (Z.to_nat m) (repeat old (Z.to_nat total))).
  assert (Hc1 : length c1 = Z.to_nat total).
  { subst c1. rewrite length_app, length_skipn, repeat_length. lia. }
  rewrite memcpy_ok by (rewrite ?Hc1; lia).
  f_equal. rewrite skipn_O.
  assert (E1 : firstn (Z.to_nat m) c1 = G) by (subst c1; apply take_app_length'; lia).
  rewrite E1. f_equal. f_equal.
  subst c1. rewrite skipn_app, HG.
  rewrite (skipn_all2 G) by lia. cbn [app].
  rewrite ?skipn_repeat.
  f_equal. lia.
Qed.

Lemma two_copies_defined (old : A) (g u : list A) (total m n : Z) (r : list A) :
  0 <= m -> 0 <= n ->
  (do c1 <- memcpy (Resize old total) 0 g 0 m; memcpy c1 m u 0 n) = Ret r ->
  m <= Z.of_nat (length g) /\ n <= Z.of_nat (length u).
Proof.
  intros Hm Hn H.
  destruct (memcpy (Resize old total) 0 g 0 m) as [c1| |] eqn:E1; cbn [rbind] in H;
    try discriminate.
  apply memcpy_inv in E1 as [B1 _]. apply memcpy_inv in H as [B2 _]. lia.
Qed.

(** X25.  The concatenation of the scale, zero-point and sum vectors in
    [catGateUpWeights] copies the zero points with the sizes of the scale
    vectors.  It stays inside the arrays exactly when neither scale vector
    is longer than its zero-point vector, and then the zero points of the up
    weight start at the size of the gate scales: the result is the plain
    concatenation when the sizes agree, and otherwise truncates both zero
    vectors and leaves the tail unset. *)
Theorem X25_catGateUp_vectors_outcome (old : A) (gs gz gsum us uz usum : list A) :
  ((exists r, catGateUp_vectors old gs gz gsum us uz usum = Ret r)
   <-> (length gs <= length gz)%nat /\ (length us <= length uz)%nat)
  /\ ((length gs <= length gz)%nat -> (length us <= length uz)%nat ->
      catGateUp_vectors old gs gz gsum us uz usum
      = Ret (gs ++ us,
             firstn (length gs) gz ++ firstn (length us) uz
               ++ repeat old (length gz + length uz - length gs - length us),
             gsum ++ usum)).
Proof.
  assert (Hfull : forall (g u : list A),
    (do c1 <- memcpy (Resize old (Z.of_nat (length g) + Z.of_nat (length u))) 0 g 0
                     (Z.of_nat (length g));
     memcpy c1 (Z.of_nat (length g)) u 0 (Z.of_nat (length u)))
    = Ret (g ++ u)).
  { intros g u. rewrite two_copies by lia.
    rewrite !Nat2Z.id, !firstn_all.
    replace (Z.to_nat (Z.of_nat (length g) + Z.of_nat (length u) - Z.of_nat (length g)
                       - Z.of_nat (length u))) with O by lia.
    cbn [repeat]. rewrite app_nil_r. reflexivity. }
  assert (Hbind : forall {X Y Z0} (m1 : res X) (k1 : X -> res Y) (k2 : Y -> res Z0),
    rbind (rbind m1 k1) k2 = rbind m1 (fun x => rbind (k1 x) k2)).
  { intros X Y Z0 [x|msg|] k1 k2; reflexivity. }
  pose (Z2 := do z1 <- memcpy (Resize old (Z.of_nat (length gz) + Z.of_nat (length uz)))
                              0 gz 0 (Z.of_nat (length gs));
              memcpy z1 (Z.of_nat (length gs)) uz 0 (Z.of_nat (length us))).
  assert (Eall : catGateUp_vectors old gs gz gsum us uz usum
                 = do z2 <- Z2; Ret (gs ++ us, z2, gsum ++ usum)).
  { transitivity
      (do s2 <- (do c1 <- memcpy (Resize old (Z.of_nat (length gs) + Z.of_nat (length us)))
                                 0 gs 0 (Z.of_nat (length gs));
                 memcpy c1 (Z.of_nat (length gs)) us 0 (Z.of_nat (length us)));
       do z2 <- Z2;
       do u2 <- (do c1 <- memcpy (Resize old (Z.of_nat (length gsum)
                                               + Z.of_nat (length usum)))
                                 0 gsum 0 (Z.of_nat (length gsum));
                 memcpy c1 (Z.of_nat (length gsum)) usum 0 (Z.of_nat (length usum)));
       Ret (s2, z2, u2)).
    - unfold catGateUp_vectors, Z2. cbv zeta.
      repeat match goal with
             | |- context [rbind (memcpy ?a ?b ?c ?d ?e) _] =>
                 destruct (memcpy a b c d e); cbn [rbind]; try reflexivity
             end.
    - rewrite !Hfull. cbn [rbind]. destruct Z2; reflexivity. }
  rewrite Eall. split.
  - split.
    + intros [r H]. destruct Z2 as [z2| |] eqn:EZ; cbn [rbind] in H; try discriminate.
      subst Z2. apply two_copies_defined in EZ; lia.
    + intros [H1 H2]. subst Z2. rewrite two_copies by lia. cbn [rbind]. eauto.
  - intros H1 H2. subst Z2. rewrite two_copies by lia. cbn [rbind].
    rewrite !Nat2Z.id. repeat f_equal. lia.
Qed.

End Facts.

(** Zero-point vectors one element longer than the scale vectors. *)
Lemma X25_catGateUp_vectors_outcome_witness :
  catGateUp_vectors 0 [1; 2] [10; 11; 12] [5; 6] [3; 4] [20; 21; 22] [7; 8]
  = Ret ([1; 2; 3; 4], [10; 11; 20; 21; 0; 0], [5; 6; 7; 8]).
Proof.
  apply (proj2 (X25_catGateUp_vectors_outcome 0 [1; 2] [10; 11; 12] [5; 6]
                  [3; 4] [20; 21; 22] [7; 8])); cbn; lia.
Defined.

End CatVectorsFacts.
